(** * paxml [eval_lib.py]: the checkpoint-driven evaluation and decode loops

    A shallow embedding of the orchestration code of [paxml/eval_lib.py].
    Python integers are [Z], floats are binary64 primitive floats,
    dictionaries are [gmap string _], input pipelines are explicit state,
    exceptions are a [result] sum and the observable effects of a run
    (executor calls, file writes, callback invocations) are recorded in an
    event log.  The model's kernels, the checkpoint store and the metric
    classes are external collaborators of the file and appear as section
    variables. *)

From Stdlib Require Import ZArith Floats.PrimFloat.
From Stdlib Require Floats.FloatAxioms Floats.SpecFloat.
From Stdlib Require Import Ascii.
From stdpp Require Import base option list gmap strings pretty.

Local Open Scope Z_scope.
Local Set Warnings "-register-all".

(** ** Exceptions *)

Inductive Exn : Type :=
| StopIteration   (* also stands for tf.errors.OutOfRangeError *)
| ValueError
| IndexError.

Inductive result (A : Type) : Type :=
| Ok (a : A)
| Raise (e : Exn).
Arguments Ok {A} a.
Arguments Raise {A} e.

Global Instance result_ret : MRet result := @Ok.
Global Instance result_bind : MBind result := fun A B k r =>
  match r with
  | Ok a => k a
  | Raise e => Raise e
  end.
Global Instance result_fmap : FMap result := fun A B f r =>
  match r with
  | Ok a => Ok (f a)
  | Raise e => Raise e
  end.

Section EvalLib.

(** Opaque data of the collaborators. *)
Context {Arr Batch StepOut Report : Type}.

(** ** Input pipelines ([base_input.BaseInput])

    The interface the loops use is [get_next_padded] / [get_next], which
    yields the next batch or raises the end-of-input exception, and
    [reset], which rewinds the pipeline. *)

Record BaseInput : Type := mkInput {
  pending : list Batch;   (* batches not handed out yet *)
  source  : list Batch    (* what a reset restores *)
}.

Definition new_input (bs : list Batch) : BaseInput := mkInput bs bs.

Definition get_next_padded (inp : BaseInput) : result (Batch * BaseInput) :=
  match pending inp with
  | [] => Raise StopIteration
  | b :: rest => Ok (b, mkInput rest (source inp))
  end.

Definition reset (inp : BaseInput) : BaseInput :=
  mkInput (source inp) (source inp).

(** ** [run_eval_loop_over_test_splits] (lines 150-266) *)

(** The executor ([eval_step] through [run_eval_one_step]) and the
    reduction of the collected per-step results to the reported metrics
    ([metric_utils.as_float_dict]). *)
Variable eval_step : Batch -> StepOut.
Variable as_float_dict : list StepOut -> Report.

(** What one pass over a split leaves behind: the pipeline, the final
    value of [step_num], and the batches handed to the executor, in
    order. *)
Record SplitPass : Type := mkPass {
  pass_input : BaseInput;
  pass_step_num : Z;
  pass_batches : list Batch
}.

(** The [while] loop of lines 201-241.  The recursion is on the pending
    batches; the [match] is the [try: get_next_padded() except ...]. *)
Fixpoint eval_while (num_split_steps step_num : Z) (src pend : list Batch)
    (seen : list Batch) : result SplitPass :=
  if bool_decide (num_split_steps < 0) || bool_decide (step_num < num_split_steps)
  then
    let step_num := step_num + 1 in
    match pend with
    | [] =>
        if bool_decide (num_split_steps > 0) then Raise StopIteration
        else Ok (mkPass (reset (mkInput [] src)) step_num seen)
    | b :: rest => eval_while num_split_steps step_num src rest (seen ++ [b])
    end
  else Ok (mkPass (mkInput pend src) step_num seen).

Definition eval_split_pass (num_split_steps : Z) (inp : BaseInput)
    : result SplitPass :=
  eval_while num_split_steps 0 (source inp) (pending inp) [].

Record EvalLoopOut : Type := mkEvalOut {
  eval_metrics_list : list Report;
  num_eval_steps : list Z;
  eval_step_calls : list (nat * Batch);   (* (split, batch) per executor call *)
  model_inputs_after : list BaseInput
}.

(** The [for split, num_split_steps in enumerate(num_steps)] loop. *)
Fixpoint eval_splits (split : nat) (num_steps : list Z)
    (acc : EvalLoopOut) : result EvalLoopOut :=
  match num_steps with
  | [] => Ok acc
  | num_split_steps :: more =>
      match model_inputs_after acc !! split with
      | None => Raise IndexError
      | Some inp =>
          p ← eval_split_pass num_split_steps inp;
          eval_splits (S split) more
            (mkEvalOut
               (eval_metrics_list acc ++ [as_float_dict (eval_step <$> pass_batches p)])
               (num_eval_steps acc ++ [pass_step_num p])
               (eval_step_calls acc ++ ((fun b => (split, b)) <$> pass_batches p))
               (<[split := pass_input p]> (model_inputs_after acc)))
      end
  end.

Definition run_eval_loop_over_test_splits (num_steps : list Z)
    (model_inputs : list BaseInput) : result EvalLoopOut :=
  eval_splits 0 num_steps (mkEvalOut [] [] [] model_inputs).

(** ** Waiting for a new checkpoint (lines 552-558, 878-884)

    [checkpoints.retrieve_latest_checkpoint_step] returns an
    [Optional[int]].  [polls] lists what its successive calls return
    from the first call of line 552 on.  The result is [None] when the
    listed polls end with the loop still sleeping. *)
Fixpoint await_while (last_checkpoint_step new_checkpoint_step : option Z)
    (polls : list (option Z)) : option (option Z) :=
  if bool_decide (new_checkpoint_step = last_checkpoint_step) then
    match polls with
    | [] => None
    | p :: rest => await_while last_checkpoint_step p rest
    end
  else Some new_checkpoint_step.

Definition await_new_checkpoint (last_checkpoint_step : option Z)
    (polls : list (option Z)) : option (option Z) :=
  match polls with
  | [] => None
  | p :: rest => await_while last_checkpoint_step p rest
  end.

(** The order of checkpoint steps: no checkpoint ([None]) is below every
    step. *)
Definition step_lt (a b : option Z) : Prop :=
  match a, b with
  | _, None => False
  | None, Some _ => True
  | Some x, Some y => x < y
  end.

Definition step_le (a b : option Z) : Prop := a = b \/ step_lt a b.

(** ** The stop decision (lines 534-549, 862-877)

    [tuning_lib.should_early_stop] applied to the early-stopping
    function is the callback; what it is called with is logged. *)
Context {EvalMetrics : Type}.
Variable should_early_stop : Z -> bool -> EvalMetrics -> bool.

Record EarlyStopCall : Type := mkCall {
  call_metrics : EvalMetrics;
  call_step : Z;
  call_is_last_ckpt : bool
}.

Inductive Decision : Type := Stopped | WaitForCheckpoint.

Definition decide_after_eval (save_interval_steps num_train_steps : Z)
    (last_checkpoint_step : option Z) (eval_metrics : EvalMetrics)
    : list EarlyStopCall * Decision :=
  match last_checkpoint_step with
  | Some last =>
      let exceeded_ckpt := last + save_interval_steps in
      let is_last_ckpt := bool_decide (exceeded_ckpt > num_train_steps) in
      let calls := [mkCall eval_metrics last is_last_ckpt] in
      if should_early_stop last is_last_ckpt eval_metrics then (calls, Stopped)
      else if is_last_ckpt then (calls, Stopped)
      else (calls, WaitForCheckpoint)
  | None => ([], WaitForCheckpoint)
  end.

(** ** Train states *)

Inductive PyTree : Type :=
| Leaf (a : Arr)
| MaskedNode                                  (* optax.MaskedNode() *)
| Dict (entries : list (string * PyTree))     (* a dict / NestedMap *)
| Tuple (items : list PyTree).

(** The optimizer state of one learner: the tuple of the states of its
    transformations, or (vectorized models) a dictionary from prefix keys
    to such tuples. *)
Inductive LearnerState : Type :=
| OptTuple (items : list PyTree)
| OptDict (stages : list (string * PyTree)).

Record TrainState : Type := mkTrainState {
  step : Z;
  mdl_vars : PyTree;
  opt_states : list LearnerState    (* [[]] also stands for [{}] *)
}.

Fixpoint dict_get {A} (k : string) (d : list (string * A)) : option A :=
  match d with
  | [] => None
  | (k', v) :: d' => if String.eqb k k' then Some v else dict_get k d'
  end.

Definition NO_PREFIX_KEY : string := "no_prefix".

(** [_is_vectorized] (lines 73-78). *)
Definition _is_vectorized (states : TrainState) : result bool :=
  match opt_states states with
  | [] => Raise ValueError
  | OptTuple _ :: _ => Ok false       (* no element of the tuple is the key *)
  | OptDict stages :: _ => Ok (bool_decide (is_Some (dict_get NO_PREFIX_KEY stages)))
  end.

(** [trim_opt_states] (lines 123-127). *)
Definition trim_opt_states (model_states : TrainState) : TrainState :=
  mkTrainState (step model_states) (mdl_vars model_states) [].

(** [isinstance(v, dict) and 'ema' in v], then [v.ema]. *)
Definition ema_of (v : PyTree) : option PyTree :=
  match v with
  | Dict entries => dict_get "ema" entries
  | _ => None
  end.

(** [jax.tree_map(lambda x, y: y if is_optax_masked_node(x) else x, ret,
    v.ema, is_leaf=is_optax_masked_node)]: the second tree is cut at the
    leaves of the first, and a structure mismatch above them is a
    [ValueError]. *)
Fixpoint tree_merge (x y : PyTree) {struct x} : result PyTree :=
  match x with
  | Leaf a => Ok (Leaf a)
  | MaskedNode => Ok y
  | Dict xs =>
      match y with
      | Dict ys =>
          if bool_decide (length xs = length ys) then
            Dict <$>
              (fix go (l : list (string * PyTree)) : result (list (string * PyTree)) :=
                 match l with
                 | [] => Ok []
                 | (k, xv) :: l' =>
                     match dict_get k ys with
                     | None => Raise ValueError
                     | Some yv =>
                         v ← tree_merge xv yv; r ← go l'; Ok ((k, v) :: r)
                     end
                 end) xs
          else Raise ValueError
      | _ => Raise ValueError
      end
  | Tuple xs =>
      match y with
      | Tuple ys =>
          Tuple <$>
            (fix go (l l2 : list PyTree) : result (list PyTree) :=
               match l, l2 with
               | [], [] => Ok []
               | xv :: l', yv :: l2' =>
                   v ← tree_merge xv yv; r ← go l' l2'; Ok (v :: r)
               | _, _ => Raise ValueError
               end) xs ys
      | _ => Raise ValueError
      end
  end.

(** The [for v in model_states.opt_states[0]] loop of lines 94-96. *)
Fixpoint find_ema (items : list PyTree) : option PyTree :=
  match items with
  | [] => None
  | v :: rest =>
      match ema_of v with
      | Some ema => Some ema
      | None => find_ema rest
      end
  end.

(** The inner [for v in item] loop of lines 107-116, threading [ret]. *)
Fixpoint merge_ema_items (ret : option PyTree) (item : list PyTree)
    : result (option PyTree) :=
  match item with
  | [] => Ok ret
  | v :: rest =>
      match ema_of v with
      | Some ema =>
          match ret with
          | None => merge_ema_items (Some ema) rest
          | Some r => r' ← tree_merge r ema; merge_ema_items (Some r') rest
          end
      | None => merge_ema_items ret rest
      end
  end.

(** The outer [for item in model_states.opt_states[0].values()] loop. *)
Fixpoint merge_ema_stages (ret : option PyTree) (stages : list (string * PyTree))
    : result (option PyTree) :=
  match stages with
  | [] => Ok ret
  | (_, Tuple item) :: rest =>
      ret' ← merge_ema_items ret item; merge_ema_stages ret' rest
  | _ :: rest => merge_ema_stages ret rest
  end.

(** [extract_ema] (lines 86-120). *)
Definition extract_ema (model_states : TrainState) : result TrainState :=
  if bool_decide (length (opt_states model_states) ≠ 1%nat) then Raise ValueError
  else
    is_vectorized ← _is_vectorized model_states;
    match opt_states model_states with
    | [] => Raise ValueError
    | learner :: _ =>
        if negb is_vectorized then
          match learner with
          | OptTuple items =>
              match find_ema items with
              | Some ema => Ok (mkTrainState (step model_states) ema [])
              | None => Raise ValueError
              end
          | OptDict _ => Raise ValueError    (* iterating a dict yields its keys *)
          end
        else
          match learner with
          | OptDict stages =>
              ret ← merge_ema_stages None stages;
              match ret with
              | Some ema => Ok (mkTrainState (step model_states) ema [])
              | None => Raise ValueError
              end
          | OptTuple _ => Raise ValueError
          end
    end.

(** ** Merging clu metrics: [_merge_clu_metrics] (lines 1016-1028) *)
Context {Metric : Type}.
Variable metric_merge : Metric -> Metric -> Metric.     (* clu [Metric.merge] *)

Definition _merge_clu_metrics (metrics updated_metrics : gmap string Metric)
    : result (gmap string Metric) :=
  if bool_decide (metrics ≠ ∅) then
    if bool_decide (dom metrics ≠ dom updated_metrics) then Raise ValueError
    else
      Ok (map_zip_with metric_merge metrics updated_metrics)
  else Ok updated_metrics.

(** *** The EMA entries of a state, as the claim about [extract_ema] names them

    The entries a reader of the state finds: the ['ema'] members of the
    dictionaries among the learner's transformation states, for a
    vectorized model those of every stage's tuple, in order. *)
Definition stage_entries (stage : string * PyTree) : list PyTree :=
  match stage.2 with
  | Tuple item => omap ema_of item
  | _ => []
  end.

Definition ema_entries (s : TrainState) : list PyTree :=
  match opt_states s with
  | OptTuple items :: _ => omap ema_of items
  | OptDict stages :: _ =>
      if bool_decide (is_Some (dict_get NO_PREFIX_KEY stages))
      then concat (stage_entries <$> stages)
      else []
  | [] => []
  end.

Fixpoint fold_merge (acc : PyTree) (rest : list PyTree) : result PyTree :=
  match rest with
  | [] => Ok acc
  | ema :: rest' => acc' ← tree_merge acc ema; fold_merge acc' rest'
  end.

(** The EMA parameter tree: the first entry, and for a vectorized model
    the entries of all stages combined, a masked node giving way to the
    later entry's value. *)
Definition ema_tree (s : TrainState) : result PyTree :=
  match ema_entries s with
  | [] => Raise ValueError
  | ema :: rest =>
      match opt_states s with
      | OptDict _ :: _ => fold_merge ema rest
      | _ => Ok ema
      end
  end.

(** What the two nested loops of the vectorized case compute from the
    entries they meet, given the [ret] they start from. *)
Definition merge_from (ret : option PyTree) (entries : list PyTree)
    : result (option PyTree) :=
  match ret, entries with
  | None, [] => Ok None
  | None, ema :: rest => Some <$> fold_merge ema rest
  | Some r, _ => Some <$> fold_merge r entries
  end.

(** *** The EMA parameter tree, position by position

    A second description of the tree a vectorized model's stages hold
    between them, which does not go through the merge of the code: every
    parameter belongs to one stage and is a masked node in the others, so
    at each position the tree shows what the first entry that is not
    masked there shows. *)

(** A step from a node to a child: a dictionary key or a tuple index. *)
Inductive PathKey : Type :=
| AtKey (k : string)
| AtIndex (i : nat).

(** What is found at a position of a tree. *)
Inductive Seen : Type :=
| SeenMasked                       (* a masked node, at or above the position *)
| SeenLeaf (a : Arr)
| SeenDict (keys : list string)
| SeenTuple (n : nat)
| SeenNothing.                     (* no such position *)

Fixpoint look (path : list PathKey) (t : PyTree) {struct path} : Seen :=
  match path with
  | [] =>
      match t with
      | Leaf a => SeenLeaf a
      | MaskedNode => SeenMasked
      | Dict entries => SeenDict entries.*1
      | Tuple items => SeenTuple (length items)
      end
  | key :: rest =>
      match t, key with
      | MaskedNode, _ => SeenMasked
      | Dict entries, AtKey k =>
          match dict_get k entries with
          | Some v => look rest v
          | None => SeenNothing
          end
      | Tuple items, AtIndex i =>
          match items !! i with
          | Some v => look rest v
          | None => SeenNothing
          end
      | _, _ => SeenNothing
      end
  end.

(** The first sight that is not a masked node. *)
Fixpoint first_seen (sights : list Seen) : Seen :=
  match sights with
  | [] => SeenMasked
  | SeenMasked :: rest => first_seen rest
  | s :: _ => s
  end.

(** What two trees show together: the first, and the second where the
    first is masked. *)
Definition seen_or (s1 s2 : Seen) : Seen :=
  match s1 with
  | SeenMasked => s2
  | _ => s1
  end.

(** The sight below a child that may be missing. *)
Definition look_in (rest : list PathKey) (child : option PyTree) : Seen :=
  match child with
  | Some v => look rest v
  | None => SeenNothing
  end.

(** The EMA parameter tree of a state: the first ['ema'] entry of a plain
    learner state; for a vectorized one a tree that shows, at every
    position, what the first of the stages' entries that is not masked
    there shows. *)
Definition is_ema_parameter_tree (s : TrainState) (t : PyTree) : Prop :=
  match opt_states s with
  | OptTuple _ :: _ => head (ema_entries s) = Some t
  | OptDict _ :: _ =>
      ema_entries s ≠ []
      /\ forall path, look path t = first_seen (look path <$> ema_entries s)
  | [] => False
  end.

(** ** Replication ([trainer_lib.replicate_model_state], [x[0]]) *)

Fixpoint tree_map (f : Arr -> Arr) (t : PyTree) : PyTree :=
  match t with
  | Leaf a => Leaf (f a)
  | MaskedNode => MaskedNode
  | Dict entries => Dict ((fun '(k, v) => (k, tree_map f v)) <$> entries)
  | Tuple items => Tuple (tree_map f <$> items)
  end.

Definition learner_map (f : Arr -> Arr) (l : LearnerState) : LearnerState :=
  match l with
  | OptTuple items => OptTuple (tree_map f <$> items)
  | OptDict stages => OptDict ((fun '(k, v) => (k, tree_map f v)) <$> stages)
  end.

(** [jax.tree_map f states]; the step counter is carried along. *)
Definition state_map (f : Arr -> Arr) (s : TrainState) : TrainState :=
  mkTrainState (step s) (tree_map f (mdl_vars s)) (learner_map f <$> opt_states s).

Variable replicate_leaf : Arr -> Arr.     (* add the device axis *)
Variable first_replica : Arr -> Arr.      (* [x[0]] *)

Definition replicate_model_state : TrainState -> TrainState :=
  state_map replicate_leaf.

(** [_PmapEvalRunner.get_model_states] (lines 354-410); [restored] is
    what the checkpoint store returned and [initialize_model_state] is
    [trainer_lib.initialize_model_state] as a function of its
    [discard_opt_states] argument. *)
Variable initialize_model_state : bool -> TrainState.

Definition get_model_states (restored : option TrainState)
    (use_ema track_metric : bool) : result TrainState :=
  let model_states :=
    match restored with
    | None => initialize_model_state (negb use_ema)
    | Some model_states =>
        if negb use_ema && negb track_metric then trim_opt_states model_states
        else model_states
    end in
  model_states ← (if use_ema then extract_ema model_states else Ok model_states);
  Ok (replicate_model_state model_states).

(** The restore inside the loop of [decode_pmap_model] (lines 1174-1190). *)
Definition restore_for_next_decode (restored : TrainState)
    (use_ema track_metric : bool) : result TrainState :=
  model_states ←
    (if use_ema then extract_ema restored
     else if negb track_metric then Ok (trim_opt_states restored)
     else Ok restored);
  Ok (replicate_model_state model_states).

(** ** Files, events and the world of a decode run *)

Context {KV Out Scalars SeqioMetrics : Type}.

Record TrackedMetricRecord : Type := mkRecord {
  metric_name : string;
  split_name : string;
  best_value : float;
  best_step : Z
}.

Record FileSystem : Type := mkFS {
  fs_dirs : gset string;
  fs_outputs : gmap string (list KV);           (* decoder output files *)
  fs_status : gmap string TrackedMetricRecord;  (* tracker record, by directory *)
  fs_checkpoints : list (string * TrainState)   (* checkpoints saved, by directory *)
}.

Inductive Event : Type :=
| DecodeStepCall (split : nat) (batch : Batch)
| MakeDirs (path : string)
| WriteKeyValuePairs (file : string) (kvs : list KV)
| TrackerUpdate (dir : string) (value : float) (global_step : Z)
| SaveCheckpoint (dir : string) (state : TrainState)
| SeqioProcessOutputs (split : nat) (plain_text_output_fname : string)
| WriteSummaries (split : nat).

Record World : Type := mkWorld {
  inputs : list BaseInput;
  fs : FileSystem;
  log : list Event
}.

(** State and exceptions; the world survives a raise. *)
Definition M (A : Type) : Type := World -> result A * World.

Global Instance M_ret : MRet M := fun A a w => (Ok a, w).
Global Instance M_bind : MBind M := fun A B k m w =>
  match m w with
  | (Ok a, w') => k a w'
  | (Raise e, w') => (Raise e, w')
  end.

Definition lift {A} (r : result A) : M A := fun w => (r, w).
Definition emit (e : Event) : M unit :=
  fun w => (Ok (), mkWorld (inputs w) (fs w) (log w ++ [e])).
Definition get_fs : M FileSystem := fun w => (Ok (fs w), w).
Definition put_fs (f : FileSystem) : M unit :=
  fun w => (Ok (), mkWorld (inputs w) f (log w)).
Definition get_input (split : nat) : M BaseInput :=
  fun w => match inputs w !! split with
           | Some inp => (Ok inp, w)
           | None => (Raise IndexError, w)
           end.
Definition put_input (split : nat) (inp : BaseInput) : M unit :=
  fun w => (Ok (), mkWorld (<[split := inp]> (inputs w)) (fs w) (log w)).

(** [tf.io.gfile.exists], [tf.io.gfile.makedirs],
    [io_utils.write_key_value_pairs], [checkpoints.save_checkpoint]. *)
Definition gfile_exists (path : string) : M bool :=
  f ← get_fs; mret (bool_decide (path ∈ fs_dirs f)).

Definition gfile_makedirs (path : string) : M unit :=
  f ← get_fs;
  put_fs (mkFS ({[path]} ∪ fs_dirs f) (fs_outputs f) (fs_status f) (fs_checkpoints f));;
  emit (MakeDirs path).

Definition write_key_value_pairs (file : string) (kvs : list KV) : M unit :=
  f ← get_fs;
  put_fs (mkFS (fs_dirs f) (<[file := kvs]> (fs_outputs f)) (fs_status f) (fs_checkpoints f));;
  emit (WriteKeyValuePairs file kvs).

Definition save_checkpoint (state : TrainState) (dir : string) : M unit :=
  f ← get_fs;
  put_fs (mkFS (fs_dirs f) (fs_outputs f) (fs_status f) (fs_checkpoints f ++ [(dir, state)]));;
  emit (SaveCheckpoint dir state).

(** Modelled from the spec: [trk_utils.MetricTracker], whose source is
    not part of the file.  The tracker reads the persisted record of its
    directory, starting from [initial_metric_value] when there is none,
    and [update] replaces the record as a whole. *)
Definition tracker_metric_value (f : FileSystem) (dir_name : string)
    (initial_metric_value : float) : float :=
  match fs_status f !! dir_name with
  | Some r => best_value r
  | None => initial_metric_value
  end.

Definition tracker_update (dir_name metric partition : string) (value : float)
    (global_step : Z) : M unit :=
  f ← get_fs;
  put_fs (mkFS (fs_dirs f) (fs_outputs f)
            (<[dir_name := mkRecord metric partition value global_step]> (fs_status f))
            (fs_checkpoints f));;
  emit (TrackerUpdate dir_name value global_step).

(** [sys.float_info.max] *)
Definition float_info_max : float := 0x1.fffffffffffffp+1023%float.

(** ** [maybe_update_min_tracked_metric] (lines 1902-1953);
    [process_index] is [jax.process_index()]. *)
Definition maybe_update_min_tracked_metric (process_index : Z)
    (m_value : float) (step : Z) (tracker_dir_path track_metric
    data_partition_name : string) (replicated_model_states : TrainState) : M unit :=
  if bool_decide (process_index = 0) then
    dir_exists ← gfile_exists tracker_dir_path;
    (if negb dir_exists then gfile_makedirs tracker_dir_path else mret ());;
    f ← get_fs;
    if PrimFloat.ltb m_value (tracker_metric_value f tracker_dir_path float_info_max)
    then
      tracker_update tracker_dir_path track_metric data_partition_name m_value step;;
      let unreplicated_model_states := state_map first_replica replicated_model_states in
      save_checkpoint unreplicated_model_states tracker_dir_path
    else mret ()
  else mret ().

(** ** The decode passes *)

Record InputHParams : Type := mkHParams {
  name : string;
  reset_for_eval : bool;
  eval_loop_num_batches : Z
}.

(** [os.path.join] on relative components. *)
Definition path_join (a b : string) : string := a +:+ "/" +:+ b.

(** [_get_filename] (lines 997-1000). *)
Definition _get_filename (process_index step : Z) : string :=
  "decoder_out_" +:+ pretty step +:+ "_shard_" +:+ pretty process_index.

(** [io_utils.load_outputs]; [None] stands for any exception it raises. *)
Variable load_outputs : FileSystem -> string -> string -> Z -> option (list KV).

(** [_can_load_decode_outs] (lines 1003-1013).  Host 0 tries to load the
    outputs and [broadcast_one_to_all] hands its count to every worker,
    so the answer is the same on all of them. *)
Definition _can_load_decode_outs (f : FileSystem) (basedir pname : string)
    (step : Z) : bool :=
  let success :=
    match load_outputs f basedir pname step with
    | Some outputs => Z.of_nat (length outputs)
    | None => 0
    end in
  bool_decide (success > 0).

(** The collaborators of a decode step: the executor (the pmap'ed or
    pjit'ed decode step with its aggregation), the model's
    [process_decode_out] hook with its two or three results, the
    [base_metrics] store-and-summarize, and seqio. *)
Variable decode_step : TrainState -> Batch -> Scalars * Out * gmap string Metric.
Variable process_decode_out : Out -> Scalars * list KV * option (gmap string Metric).
Variable summarize : list Scalars -> gmap string (float * float).
Variable should_process_outputs : BaseInput -> bool.
Variable seqio_process_outputs : list KV -> SeqioMetrics.

(** [task_p.track_decoder_metric] and [FLAGS.pax_only_aggregate_summaries]. *)
Variable track_decoder_metric : option string.
Variable pax_only_aggregate_summaries : bool.

Record DecodeAcc : Type := mkAcc {
  acc_step_num : Z;
  acc_decode_metrics : list Scalars;          (* [decode_metrics.store] *)
  acc_metrics : gmap string Metric;
  acc_process_decode_metrics : list Scalars;  (* [process_decode_metrics.store] *)
  acc_processed_metrics : gmap string Metric;
  acc_processed_decodes : list KV
}.

(** Lines 1378-1391 and 1816-1831: post-processing of one batch. *)
Definition process_batch_output (out : Out) (acc : DecodeAcc) : M DecodeAcc :=
  let '(processed_scalars, processed_out, processed_metric_updates) :=
    process_decode_out out in
  processed_metrics ←
    match processed_metric_updates with
    | Some updates =>
        if bool_decide (updates ≠ ∅)
        then lift (_merge_clu_metrics (acc_processed_metrics acc) updates)
        else mret (acc_processed_metrics acc)
    | None => mret (acc_processed_metrics acc)
    end;
  mret (mkAcc (acc_step_num acc) (acc_decode_metrics acc) (acc_metrics acc)
          (acc_process_decode_metrics acc ++ [processed_scalars])
          processed_metrics
          (acc_processed_decodes acc ++ processed_out)).

Definition loop_continues (num_split_steps step_num : Z) : bool :=
  bool_decide (num_split_steps < 0) || bool_decide (step_num < num_split_steps).

(** The [while] loop of [decode_once_pmap_model] (lines 1357-1395). *)
Fixpoint decode_while_pmap (process_index : Z) (states : TrainState)
    (split : nat) (num_split_steps : Z) (src pend : list Batch)
    (acc : DecodeAcc) : M DecodeAcc :=
  if loop_continues num_split_steps (acc_step_num acc) then
    let step_num := acc_step_num acc + 1 in
    match pend with
    | [] =>
        put_input split (reset (mkInput [] src));;
        mret (mkAcc step_num (acc_decode_metrics acc) (acc_metrics acc)
                (acc_process_decode_metrics acc) (acc_processed_metrics acc)
                (acc_processed_decodes acc))
    | batch :: rest =>
        put_input split (mkInput rest src);;
        emit (DecodeStepCall split batch);;
        let '(batch_metrics, out, updated_metrics) := decode_step states batch in
        metrics ← lift (_merge_clu_metrics (acc_metrics acc) updated_metrics);
        let acc := mkAcc step_num (acc_decode_metrics acc ++ [batch_metrics]) metrics
                     (acc_process_decode_metrics acc) (acc_processed_metrics acc)
                     (acc_processed_decodes acc) in
        acc ← (if bool_decide (process_index = 0)
                then process_batch_output out acc else mret acc);
        decode_while_pmap process_index states split num_split_steps src rest acc
    end
  else mret acc.

(** The [while] loop of [decode_once_spmd_model] (lines 1768-1833). *)
Fixpoint decode_while_spmd (process_index : Z) (states : TrainState)
    (split : nat) (num_split_steps : Z) (src pend : list Batch)
    (acc : DecodeAcc) : M DecodeAcc :=
  if loop_continues num_split_steps (acc_step_num acc) then
    let step_num := acc_step_num acc + 1 in
    match pend with
    | [] =>
        put_input split (reset (mkInput [] src));;
        mret (mkAcc step_num (acc_decode_metrics acc) (acc_metrics acc)
                (acc_process_decode_metrics acc) (acc_processed_metrics acc)
                (acc_processed_decodes acc))
    | batch :: rest =>
        put_input split (mkInput rest src);;
        emit (DecodeStepCall split batch);;
        let '(weighted_scalars, out, updated_metrics) := decode_step states batch in
        metrics ← lift (_merge_clu_metrics (acc_metrics acc) updated_metrics);
        let acc := mkAcc step_num (acc_decode_metrics acc) metrics
                     (acc_process_decode_metrics acc) (acc_processed_metrics acc)
                     (acc_processed_decodes acc) in
        acc ← (if bool_decide (process_index ≠ 0) then mret acc
                else process_batch_output out
                       (mkAcc step_num (acc_decode_metrics acc ++ [weighted_scalars])
                          metrics (acc_process_decode_metrics acc)
                          (acc_processed_metrics acc) (acc_processed_decodes acc)));
        decode_while_spmd process_index states split num_split_steps src rest acc
    end
  else mret acc.

(** Per split: decode metrics, processed decode metrics (each the
    summarized weighted scalars with the clu metrics), seqio metrics, and
    the performed-step count. *)
Definition SplitMetrics : Type := gmap string (float * float) * gmap string Metric.
Definition SplitResult : Type :=
  option SplitMetrics * option SplitMetrics * option SeqioMetrics * Z.

Definition truthy (s : option string) : bool :=
  match s with
  | Some (String _ _) => true
  | _ => false
  end.

(** Lines 1397-1410 and 1835-1847. *)
Definition run_seqio (split : nat) (filename : string) (processed_decodes : list KV)
    : M (option SeqioMetrics) :=
  inp ← get_input split;
  if should_process_outputs inp then
    emit (SeqioProcessOutputs split (filename +:+ ".txt"));;
    mret (Some (seqio_process_outputs processed_decodes))
  else mret None.

(** Lines 1442-1450 and 1876-1883, below their guard. *)
Definition write_decoder_output (dir_path output_file : string)
    (processed_decodes : list KV) : M unit :=
  dir_exists ← gfile_exists dir_path;
  (if negb dir_exists then gfile_makedirs dir_path else mret ());;
  write_key_value_pairs output_file processed_decodes.

Definition steps_for (p : InputHParams) : Z :=
  if reset_for_eval p then -1 else eval_loop_num_batches p.

(** The body of the [for split, ...] loop of [decode_once_pmap_model]
    (lines 1333-1461). *)
Definition decode_split_pmap (process_index : Z) (job_log_dir : string)
    (replicated_model_states : TrainState) (split : nat) (p : InputHParams)
    : M SplitResult :=
  let step_i := step replicated_model_states in
  let basedir := path_join job_log_dir "decoder_out" in
  let filename := path_join (path_join basedir (name p))
                    (_get_filename process_index step_i) in
  f ← get_fs;
  if _can_load_decode_outs f job_log_dir (name p) step_i then
    mret (None, None, None, 0)
  else
    inp ← get_input split;
    acc ← decode_while_pmap process_index replicated_model_states split
            (steps_for p) (source inp) (pending inp) (mkAcc 0 [] ∅ [] ∅ []);
    seqio_metric_values ← run_seqio split filename (acc_processed_decodes acc);
    let decode_metric_dict := summarize (acc_decode_metrics acc) in
    let processed_metric_dict := summarize (acc_process_decode_metrics acc) in
    emit (WriteSummaries split);;
    match track_decoder_metric with
    | Some track_metric =>
        if truthy track_decoder_metric then
          match processed_metric_dict !! track_metric with
          | Some (m_value, _) =>
              maybe_update_min_tracked_metric process_index m_value step_i
                (path_join (path_join basedir (name p)) (track_metric +:+ "_min_tracker"))
                track_metric (name p) replicated_model_states
          | None => mret ()
          end
        else mret ()
    | None => mret ()
    end;;
    (if bool_decide (process_index = 0) && negb pax_only_aggregate_summaries
     then write_decoder_output (path_join basedir (name p)) filename
            (acc_processed_decodes acc)
     else mret ());;
    mret (Some (decode_metric_dict, acc_metrics acc),
          Some (processed_metric_dict, acc_processed_metrics acc),
          seqio_metric_values, acc_step_num acc).

(** The body of the [for split, ...] loop of [decode_once_spmd_model]
    (lines 1744-1897); tracking a metric is only logged there. *)
Definition decode_split_spmd (process_index : Z) (job_log_dir : string)
    (train_state : TrainState) (split : nat) (p : InputHParams)
    : M SplitResult :=
  let step_i := step train_state in
  let basedir := path_join job_log_dir "decoder_out" in
  let filename := path_join (path_join basedir (name p))
                    (_get_filename process_index step_i) in
  f ← get_fs;
  if _can_load_decode_outs f job_log_dir (name p) step_i then
    mret (None, None, None, 0)
  else
    inp ← get_input split;
    acc ← decode_while_spmd process_index train_state split
            (steps_for p) (source inp) (pending inp) (mkAcc 0 [] ∅ [] ∅ []);
    seqio_metric_values ← run_seqio split filename (acc_processed_decodes acc);
    let decode_metric_dict := summarize (acc_decode_metrics acc) in
    let processed_metric_dict := summarize (acc_process_decode_metrics acc) in
    emit (WriteSummaries split);;
    (if bool_decide (process_index = 0)
     then write_decoder_output (path_join basedir (name p)) filename
            (acc_processed_decodes acc)
     else mret ());;
    mret (Some (decode_metric_dict, acc_metrics acc),
          Some (processed_metric_dict, acc_processed_metrics acc),
          seqio_metric_values, acc_step_num acc).

(** The four result lists of a decode pass, aligned with [input_p]. *)
Record DecodeOnceOut : Type := mkDecodeOut {
  decode_metrics_list : list (option SplitMetrics);
  processed_decode_metrics_list : list (option SplitMetrics);
  seqio_metrics_list : list (option SeqioMetrics);
  num_decode_steps : list Z
}.

Fixpoint decode_splits (body : nat -> InputHParams -> M SplitResult)
    (split : nat) (input_p : list InputHParams) (acc : DecodeOnceOut)
    : M DecodeOnceOut :=
  match input_p with
  | [] => mret acc
  | p :: more =>
      '(dm, pdm, sm, n) ← body split p;
      decode_splits body (S split) more
        (mkDecodeOut (decode_metrics_list acc ++ [dm])
           (processed_decode_metrics_list acc ++ [pdm])
           (seqio_metrics_list acc ++ [sm])
           (num_decode_steps acc ++ [n]))
  end.

Definition decode_once_pmap_model (process_index : Z) (job_log_dir : string)
    (input_p : list InputHParams) (replicated_model_states : TrainState)
    : M DecodeOnceOut :=
  decode_splits (decode_split_pmap process_index job_log_dir replicated_model_states)
    0 input_p (mkDecodeOut [] [] [] []).

Definition decode_once_spmd_model (process_index : Z) (job_log_dir : string)
    (input_p : list InputHParams) (train_state : TrainState)
    : M DecodeOnceOut :=
  decode_splits (decode_split_spmd process_index job_log_dir train_state)
    0 input_p (mkDecodeOut [] [] [] []).

(** ** What the claims speak of *)

(** The destructive file-system writes of a log: directories, decoder
    output files, the tracker's record and its checkpoints, and the call
    of seqio's [process_outputs], which is handed the name of a
    plain-text output file to write.  Executor calls and the summaries
    written through the summary writers are logged apart. *)
Definition is_destructive_write (e : Event) : bool :=
  match e with
  | MakeDirs _ | WriteKeyValuePairs _ _ | TrackerUpdate _ _ _ | SaveCheckpoint _ _
  | SeqioProcessOutputs _ _ => true
  | _ => false
  end.

(** A computation that leaves the file system as it found it and logs no
    destructive write. *)
Definition writes_nothing {A} (m : M A) : Prop :=
  forall w, fs (m w).2 = fs w
            /\ List.filter is_destructive_write (log (m w).2)
               = List.filter is_destructive_write (log w).

(** A computation that leaves the file system as it found it and whose
    destructive writes, if any, all satisfy [P]. *)
Definition writes_only (P : Event -> Prop) {A} (m : M A) : Prop :=
  forall w, fs (m w).2 = fs w
            /\ exists added,
                 List.filter is_destructive_write (log (m w).2)
                 = List.filter is_destructive_write (log w) ++ added
                 /\ Forall P added.

(** The seqio call of a decode pass for one of its inputs: the
    plain-text file is named after the decoder-output file of the
    split, the step and this worker. *)
Definition seqio_output_of (process_index : Z) (job_log_dir : string) (step_i : Z)
    (input_p : list InputHParams) (e : Event) : Prop :=
  exists split p,
    input_p !! split = Some p
    /\ e = SeqioProcessOutputs split
             (path_join (path_join (path_join job_log_dir "decoder_out") (name p))
                (_get_filename process_index step_i) +:+ ".txt").

(** The result of a decode pass that skipped [n] splits. *)
Definition all_skipped (n : nat) : DecodeOnceOut :=
  mkDecodeOut (replicate n None) (replicate n None) (replicate n None) (replicate n 0).

(** The persistence events of the tracker: the rewrite of its record
    and the save of the best checkpoint. *)
Definition is_tracker_update (e : Event) : bool :=
  match e with TrackerUpdate _ _ _ => true | _ => false end.

Definition is_save_checkpoint (e : Event) : bool :=
  match e with SaveCheckpoint _ _ => true | _ => false end.

Definition persistence_events (l : list Event) : list Event :=
  List.filter (fun e => is_tracker_update e || is_save_checkpoint e) l.

(** Every worker runs the same program: one invocation of an operation
    is one call of it on each host, taken here in host order. *)
Fixpoint on_hosts (hosts : list nat) (op : Z -> M unit) : M unit :=
  match hosts with
  | [] => mret ()
  | h :: rest => op (Z.of_nat h);; on_hosts rest op
  end.

Definition tracked_metric_round (process_count : nat) (m_value : float)
    (step : Z) (tracker_dir_path track_metric partition : string)
    (states : TrainState) : M unit :=
  on_hosts (seq 0 process_count)
    (fun process_index =>
       maybe_update_min_tracked_metric process_index m_value step
         tracker_dir_path track_metric partition states).

(** Feeding a sequence of values, at consecutive steps from [step] on. *)
Fixpoint feed_tracked_values (process_count : nat)
    (tracker_dir_path track_metric partition : string) (states : TrainState)
    (step : Z) (values : list float) : M unit :=
  match values with
  | [] => mret ()
  | m_value :: rest =>
      tracked_metric_round process_count m_value step tracker_dir_path
        track_metric partition states;;
      feed_tracked_values process_count tracker_dir_path track_metric partition
        states (step + 1) rest
  end.

Definition empty_world : World := mkWorld [] (mkFS ∅ ∅ ∅ []) [].

(** The binary64 value nearest to 2.9. *)
Definition float_2_9 : float := 0x1.7333333333333p+1%float.

(** * Properties *)

(** The loop body, phrased with [get_next_padded] as in the source. *)
Lemma eval_while_unfold n k inp seen :
  eval_while n k (source inp) (pending inp) seen =
  if bool_decide (n < 0) || bool_decide (k < n) then
    match get_next_padded inp with
    | Raise e =>
        if bool_decide (n > 0) then Raise e
        else Ok (mkPass (reset inp) (k + 1) seen)
    | Ok (b, inp') =>
        eval_while n (k + 1) (source inp') (pending inp') (seen ++ [b])
    end
  else Ok (mkPass inp k seen).
Proof.
  destruct inp as [pend src]; unfold get_next_padded; simpl.
  destruct pend; simpl; reflexivity.
Qed.

(** With a negative budget the loop runs the pipeline dry, rewinds it and
    leaves [step_num] one above the number of batches it handed out. *)
Lemma eval_while_unbounded n k src pend seen :
  n < 0 ->
  eval_while n k src pend seen =
  Ok (mkPass (mkInput src src) (k + Z.of_nat (length pend) + 1) (seen ++ pend)).
Proof.
  intros Hn. revert k seen.
  induction pend as [|b rest IH]; intros k seen; simpl.
  - rewrite bool_decide_eq_true_2 by done. simpl.
    rewrite bool_decide_eq_false_2 by lia.
    unfold reset; simpl. rewrite app_nil_r. do 2 f_equal. lia.
  - rewrite bool_decide_eq_true_2 by done. simpl.
    rewrite IH, <- app_assoc. simpl. do 2 f_equal. lia.
Qed.

(** With a budget [n >= 0] the loop hands out exactly the [n - k] next
    batches when that many are pending, and raises otherwise. *)
Lemma eval_while_budget n k src pend seen :
  0 <= k <= n ->
  eval_while n k src pend seen =
  if bool_decide (n - k <= Z.of_nat (length pend))
  then Ok (mkPass (mkInput (drop (Z.to_nat (n - k)) pend) src) n
             (seen ++ take (Z.to_nat (n - k)) pend))
  else Raise StopIteration.
Proof.
  revert k seen.
  induction pend as [|b rest IH]; intros k seen Hk; simpl.
  - rewrite (bool_decide_eq_false_2 (n < 0)) by lia. simpl.
    destruct (decide (k < n)) as [Hlt|Hge].
    + rewrite (bool_decide_eq_true_2 (k < n)) by done.
      rewrite (bool_decide_eq_true_2 (n > 0)) by lia.
      rewrite bool_decide_eq_false_2 by lia. done.
    + rewrite (bool_decide_eq_false_2 (k < n)) by done.
      rewrite bool_decide_eq_true_2 by lia.
      replace (n - k) with 0 by lia. simpl.
      rewrite app_nil_r. do 2 f_equal. lia.
  - rewrite (bool_decide_eq_false_2 (n < 0)) by lia. simpl.
    destruct (decide (k < n)) as [Hlt|Hge].
    + rewrite (bool_decide_eq_true_2 (k < n)) by done.
      rewrite IH by lia.
      replace (Z.to_nat (n - k)) with (S (Z.to_nat (n - (k + 1)))) by lia.
      simpl. rewrite <- app_assoc. simpl.
      destruct (decide (n - k <= Z.of_nat (S (length rest)))).
      * rewrite !bool_decide_eq_true_2 by lia. done.
      * rewrite !bool_decide_eq_false_2 by lia. done.
    + rewrite (bool_decide_eq_false_2 (k < n)) by done.
      rewrite bool_decide_eq_true_2 by lia.
      replace (n - k) with 0 by lia. simpl.
      rewrite app_nil_r. do 2 f_equal. lia.
Qed.

(** C2.  A pass over a split raises, and then it is the end-of-input
    exception of the pipeline that propagates, if and only if the step
    budget is positive and the pipeline holds fewer batches than the
    budget asks for; with a negative budget the pass always completes,
    having handed every pending batch to the executor and reset the
    pipeline. *)
Theorem exhaustion_raises_iff_positive_budget_unmet
    (num_split_steps : Z) (inp : BaseInput) :
  (eval_split_pass num_split_steps inp = Raise StopIteration <->
     0 < num_split_steps /\ Z.of_nat (length (pending inp)) < num_split_steps)
  /\ (forall e, eval_split_pass num_split_steps inp = Raise e -> e = StopIteration)
  /\ (num_split_steps < 0 ->
      exists p, eval_split_pass num_split_steps inp = Ok p
                /\ pass_input p = reset inp
                /\ pass_batches p = pending inp).
Proof.
  unfold eval_split_pass.
  destruct (decide (num_split_steps < 0)) as [Hneg|Hpos].
  - rewrite eval_while_unbounded by done.
    split; [|split].
    + split; [discriminate | lia].
    + discriminate.
    + intros _. eexists; split; [reflexivity|]. done.
  - rewrite eval_while_budget by lia.
    case_bool_decide as Hlen.
    + split; [|split]; [split; [discriminate | lia] | discriminate | lia].
    + split; [|split]; [split; [lia | done] | congruence | lia].
Qed.

(** *** The checkpoint watcher *)

Lemma await_while_first_change known new polls :
  (exists p, p ∈ new :: polls /\ p ≠ known) ->
  exists pre r post,
    new :: polls = pre ++ r :: post
    /\ Forall (fun p => p = known) pre
    /\ r ≠ known
    /\ await_while known new polls = Some r.
Proof.
  revert new. induction polls as [|q rest IH]; intros new [p [Hin Hne]]; simpl.
  - apply list_elem_of_singleton in Hin; subst p.
    rewrite bool_decide_eq_false_2 by done.
    exists [], new, []. by repeat split.
  - case_bool_decide as Heq.
    + subst new.
      destruct (IH q) as (pre & r & post & Hsplit & Hpre & Hr & Haw).
      { exists p. split; [|done].
        apply elem_of_cons in Hin as [->|Hin]; [done|exact Hin]. }
      exists (known :: pre), r, post. rewrite Hsplit.
      repeat split; [by constructor | done | done].
    + exists [], new, (q :: rest). by repeat split.
Qed.

(** C3 (amended).  As soon as some poll differs from [known_step] the
    wait loop returns, and what it returns is the first polled value that
    differs from [known_step]; it is strictly greater than [known_step]
    whenever no poll is below [known_step]. *)
Theorem await_new_checkpoint_returns_first_change
    (known_step : option Z) (polls : list (option Z)) :
  (exists p, p ∈ polls /\ p ≠ known_step) ->
  exists pre r post,
    polls = pre ++ r :: post
    /\ Forall (fun p => p = known_step) pre
    /\ r ≠ known_step
    /\ await_new_checkpoint known_step polls = Some r
    /\ ((forall p, p ∈ polls -> step_le known_step p) -> step_lt known_step r).
Proof.
  intros Hex. destruct polls as [|new polls].
  { destruct Hex as [p [Hin _]]. by apply elem_of_nil in Hin. }
  destruct (await_while_first_change known_step new polls Hex)
    as (pre & r & post & Hsplit & Hpre & Hr & Haw).
  exists pre, r, post. repeat split; try done.
  intros Hmono. destruct (Hmono r) as [Heq|Hlt]; [|congruence|done].
  rewrite Hsplit. apply elem_of_app. right. apply elem_of_cons. by left.
Qed.

(** *** The stop decision *)

(** C4 (amended).  When a checkpoint step is known the callback is
    invoked once, with the aggregate metrics, that step and
    [is_final_checkpoint = step + save_interval > max_steps], and the loop
    stops exactly when the callback or [is_final_checkpoint] says so;
    when no checkpoint step is known the callback is not invoked and the
    loop goes on to wait. *)
Theorem decide_after_eval_spec
    (save_interval_steps num_train_steps last : Z) (eval_metrics : EvalMetrics) :
  let is_final := bool_decide (last + save_interval_steps > num_train_steps) in
  let known := decide_after_eval save_interval_steps num_train_steps
                 (Some last) eval_metrics in
  known.1 = [mkCall eval_metrics last is_final]
  /\ (known.2 = Stopped <->
        should_early_stop last is_final eval_metrics = true \/ is_final = true)
  /\ (known.2 = WaitForCheckpoint <->
        should_early_stop last is_final eval_metrics = false /\ is_final = false)
  /\ decide_after_eval save_interval_steps num_train_steps None eval_metrics
     = ([], WaitForCheckpoint).
Proof.
  simpl. unfold decide_after_eval.
  destruct (should_early_stop _ _ _); simpl.
  - repeat split; intros; destruct_and?; try done. by left.
  - destruct (bool_decide _); simpl;
      repeat split; intros; destruct_or?; destruct_and?; try done. by right.
Qed.

(** *** Merging clu metrics *)

(** C6 (amended).  Merging into an empty accumulator returns the update
    unchanged; merging raises (a [ValueError]) if and only if the existing
    accumulator is populated and the key sets differ, which includes an
    empty update; when the key sets match every key is merged
    pointwise. *)
Theorem merge_clu_metrics_spec (metrics updated_metrics : gmap string Metric) :
  _merge_clu_metrics ∅ updated_metrics = Ok updated_metrics
  /\ ((exists e, _merge_clu_metrics metrics updated_metrics = Raise e) <->
        metrics ≠ ∅ /\ dom metrics ≠ dom updated_metrics)
  /\ (forall e, _merge_clu_metrics metrics updated_metrics = Raise e -> e = ValueError)
  /\ (metrics ≠ ∅ -> dom metrics = dom updated_metrics ->
      exists merged,
        _merge_clu_metrics metrics updated_metrics = Ok merged
        /\ dom merged = dom metrics
        /\ forall key m u, metrics !! key = Some m -> updated_metrics !! key = Some u ->
             merged !! key = Some (metric_merge m u)).
Proof.
  unfold _merge_clu_metrics. split; [|split; [|split]].
  - rewrite bool_decide_eq_false_2; [done | by intros H; apply H].
  - repeat case_bool_decide; split.
    + intros _. done.
    + intros _. by eexists.
    + intros [? ?]; done.
    + intros [_ ?]; done.
    + intros [? ?]; done.
    + intros [? _]; done.
  - repeat case_bool_decide; congruence.
  - intros Hne Hdom.
    rewrite bool_decide_eq_true_2 by done.
    rewrite bool_decide_eq_false_2 by (intros H; by apply H).
    eexists; split; [reflexivity|]. split.
    + apply set_eq. intros k. rewrite !elem_of_dom, map_lookup_zip_with.
      assert (is_Some (metrics !! k) <-> is_Some (updated_metrics !! k)) as Hk
        by (rewrite <- !elem_of_dom, Hdom; done).
      destruct (metrics !! k) as [m|] eqn:Hm; simpl.
      * destruct (proj1 Hk (mk_is_Some _ _ eq_refl)) as [u ->]. simpl. split; eauto.
      * split; intros [? ?]; done.
    + intros k m u Hm Hu. by rewrite map_lookup_zip_with, Hm, Hu.
Qed.

(** *** Extracting the EMA state *)

(** Induction on trees, with the hypothesis on every child. *)
Lemma PyTree_forall_ind (P : PyTree -> Prop) :
  (forall a, P (Leaf a)) ->
  P MaskedNode ->
  (forall entries, Forall (fun kv => P kv.2) entries -> P (Dict entries)) ->
  (forall items, Forall P items -> P (Tuple items)) ->
  forall t, P t.
Proof.
  intros HLeaf HMasked HDict HTuple.
  fix IH 1. intros [a| |entries|items].
  - apply HLeaf.
  - apply HMasked.
  - apply HDict. induction entries as [|[k v] rest IHrest]; constructor; [apply IH|apply IHrest].
  - apply HTuple. induction items as [|v rest IHrest]; constructor; [apply IH|apply IHrest].
Qed.

Lemma tree_merge_raises x : forall y e, tree_merge x y = Raise e -> e = ValueError.
Proof.
  induction x as [a| |entries IH|items IH] using PyTree_forall_ind;
    intros y e; simpl; try done.
  - destruct y as [| |ys|]; try congruence.
    case_bool_decide; [|congruence].
    clear H. induction IH as [|[k xv] rest Hxv _ IHrest]; simpl; [done|].
    destruct (dict_get k ys) as [yv|]; simpl; [|congruence].
    destruct (tree_merge xv yv) eqn:Hm; simpl; [|intros [= <-]; eauto].
    match goal with |- context [?g rest] => destruct (g rest) eqn:Hrest end;
      simpl in *; [done|]. intros [= <-]. apply IHrest. done.
  - destruct y as [| | |ys]; try congruence.
    revert ys. induction IH as [|xv rest Hxv _ IHrest]; intros [|yv ys]; simpl;
      try congruence.
    destruct (tree_merge xv yv) eqn:Hm; simpl; [|intros [= <-]; eauto].
    match goal with |- context [?g rest ys] => destruct (g rest ys) eqn:Hrest end;
      simpl in *; [done|]. intros [= <-]. apply (IHrest ys). rewrite Hrest. done.
Qed.

Lemma fold_merge_raises rest : forall acc e,
  fold_merge acc rest = Raise e -> e = ValueError.
Proof.
  induction rest as [|ema rest IH]; intros acc e; simpl; [done|].
  destruct (tree_merge acc ema) eqn:Hm; simpl; [apply IH|].
  intros [= <-]. eapply tree_merge_raises, Hm.
Qed.

Lemma find_ema_head items : find_ema items = head (omap ema_of items).
Proof.
  induction items as [|v rest IH]; simpl; [done|].
  destruct (ema_of v); simpl; done.
Qed.

Lemma merge_ema_items_from ret item :
  merge_ema_items ret item = merge_from ret (omap ema_of item).
Proof.
  revert ret. induction item as [|v rest IH]; intros ret; simpl.
  - destruct ret; done.
  - destruct (ema_of v) as [ema|]; simpl; [|apply IH].
    destruct ret as [r|]; simpl.
    + destruct (tree_merge r ema) as [r'|e]; simpl; [|done].
      rewrite IH. done.
    + rewrite IH. done.
Qed.

Lemma merge_from_app ret a b :
  merge_from ret (a ++ b) = (merge_from ret a ≫= fun ret' => merge_from ret' b).
Proof.
  assert (forall r a, fold_merge r (a ++ b)
                      = (fold_merge r a ≫= fun r' => fold_merge r' b)) as Hfold.
  { intros r a'. revert r. induction a' as [|x a' IH]; intros r; simpl; [done|].
    destruct (tree_merge r x); simpl; [apply IH|done]. }
  destruct ret as [r|]; simpl.
  - rewrite Hfold. destruct (fold_merge r a); done.
  - destruct a as [|x a]; simpl; [done|].
    rewrite Hfold. destruct (fold_merge x a); done.
Qed.

Lemma merge_ema_stages_from ret stages :
  merge_ema_stages ret stages = merge_from ret (concat (stage_entries <$> stages)).
Proof.
  revert ret. induction stages as [|[key item] rest IH]; intros ret; simpl.
  - destruct ret; done.
  - rewrite merge_from_app. unfold stage_entries at 1; simpl.
    destruct item; simpl; try (destruct ret; simpl; apply IH).
    rewrite merge_ema_items_from.
    destruct (merge_from ret _); simpl; [apply IH|done].
Qed.

(** A merged tree shows, at every position, what the first tree shows
    there, and what the second shows where the first is masked. *)
Lemma tree_merge_look x :
  forall y r, tree_merge x y = Ok r ->
  forall path, look path r = seen_or (look path x) (look path y).
Proof.
  induction x as [a| |entries IH|items IH] using PyTree_forall_ind;
    intros y r; simpl.
  - intros [= <-] [|key rest]; done.
  - intros [= <-] path. by destruct path as [|[]].
  - destruct y as [| |ys|]; try done.
    case_bool_decide; [|done]. clear H.
    match goal with |- context [?g entries] => set (go := g) end.
    assert (forall rs, go entries = Ok rs ->
              rs.*1 = entries.*1
              /\ forall k rest,
                   look_in rest (dict_get k rs)
                   = seen_or (look_in rest (dict_get k entries))
                       (look_in rest (dict_get k ys))) as Hgo.
    { induction IH as [|[k xv] more Hxv _ IHmore]; intros rs; cbn [go].
      - intros [= <-]. split; [done|]. intros k rest. done.
      - destruct (dict_get k ys) as [yv|] eqn:Hyv; [|done].
        destruct (tree_merge xv yv) as [v|e] eqn:Hm; [|done].
        cbn [mbind result_bind].
        destruct (go more) as [rs'|e] eqn:Hmore; [|done].
        cbn [mbind result_bind].
        intros [= <-]. destruct (IHmore rs' eq_refl) as [Hkeys Hlook].
        split; [cbn; f_equal; exact Hkeys|].
        intros k' rest. cbn [dict_get]. destruct (String.eqb k' k) eqn:Hk.
        + apply String.eqb_eq in Hk as ->. rewrite Hyv.
          apply (Hxv yv v Hm rest).
        + apply Hlook. }
    destruct (go entries) as [rs|e]; [|done].
    intros [= <-]. destruct (Hgo rs eq_refl) as [Hkeys Hlook].
    intros [|[k|i] rest]; cbn [look seen_or].
    + by rewrite Hkeys.
    + apply Hlook.
    + done.
  - destruct y as [| | |ys]; try done.
    match goal with |- context [?g items ys] => set (go := g) end.
    assert (forall ys rs, go items ys = Ok rs ->
              length rs = length items
              /\ forall i rest,
                   look_in rest (rs !! i)
                   = seen_or (look_in rest (items !! i))
                       (look_in rest (ys !! i))) as Hgo.
    { clear ys. induction IH as [|xv more Hxv _ IHmore]; intros [|yv ys] rs;
        cbn [go]; try done.
      - intros [= <-]. split; [done|]. intros i rest. done.
      - destruct (tree_merge xv yv) as [v|e] eqn:Hm; [|done].
        cbn [mbind result_bind].
        destruct (go more ys) as [rs'|e] eqn:Hmore; [|done].
        cbn [mbind result_bind].
        intros [= <-]. destruct (IHmore ys rs' Hmore) as [Hlen Hlook].
        split; [cbn; f_equal; exact Hlen|].
        intros [|i] rest; [apply (Hxv yv v Hm rest) | apply Hlook]. }
    destruct (go items ys) as [rs|e] eqn:Hrs; [|done].
    intros [= <-]. destruct (Hgo ys rs Hrs) as [Hlen Hlook].
    intros [|[k|i] rest]; cbn [look seen_or].
    + by rewrite Hlen.
    + done.
    + apply Hlook.
Qed.

Lemma first_seen_or s1 s2 rest :
  first_seen (seen_or s1 s2 :: rest) = first_seen (s1 :: s2 :: rest).
Proof. by destruct s1. Qed.

Lemma fold_merge_look rest :
  forall acc r, fold_merge acc rest = Ok r ->
  forall path, look path r = first_seen (look path <$> acc :: rest).
Proof.
  induction rest as [|ema rest IH]; intros acc r; cbn [fold_merge].
  - intros [= <-] path. cbn. by destruct (look path acc).
  - destruct (tree_merge acc ema) as [acc'|e] eqn:Hm; [|done].
    cbn [mbind result_bind]. intros Hr path.
    rewrite (IH acc' r Hr path), !fmap_cons.
    rewrite (tree_merge_look acc ema acc' Hm path). apply first_seen_or.
Qed.

(** What a successful extraction returns. *)
Lemma extract_ema_ok (model_states r : TrainState) :
  extract_ema model_states = Ok r ->
  step r = step model_states
  /\ ema_tree model_states = Ok (mdl_vars r)
  /\ opt_states r = [].
Proof.
  destruct model_states as [st vars opts].
  unfold extract_ema, ema_tree, ema_entries, _is_vectorized; simpl.
  destruct opts as [|learner [|l2 more]]; simpl; try done.
  destruct learner as [items|stages]; simpl.
  - rewrite find_ema_head.
    destruct (omap ema_of items) as [|ema rest]; simpl; [done|].
    intros [= <-]. done.
  - case_bool_decide as Hvec; simpl; [|done].
    rewrite merge_ema_stages_from.
    destruct (concat (stage_entries <$> stages)) as [|ema rest]; simpl; [done|].
    destruct (fold_merge ema rest) as [tree|e]; simpl; [|done].
    intros [= <-]. done.
Qed.

(** The tree the code computes is the EMA parameter tree of the state. *)
Lemma ema_tree_is_parameter_tree (s : TrainState) (t : PyTree) :
  ema_tree s = Ok t -> is_ema_parameter_tree s t.
Proof.
  unfold ema_tree, is_ema_parameter_tree, ema_entries.
  destruct (opt_states s) as [|[items|stages] more]; [done| |].
  - destruct (omap ema_of items) as [|ema rest]; [done|]. by intros [= <-].
  - destruct (if bool_decide _ then _ else _) as [|ema rest]; [done|].
    intros Hfold. split; [done|]. by apply fold_merge_look.
Qed.

(** C10.  [extract_ema] raises [ValueError] unless the state holds the
    optimizer state of exactly one learner, and raises [ValueError] when
    the state has no EMA entry.  When it succeeds the result has the step
    of the input, no optimizer state, and as [mdl_vars] the EMA parameter
    tree: the first EMA entry of a plain learner state, and for a
    vectorized model the tree that shows at every position what the
    first of the stages' entries that is not masked there shows.  And it
    does succeed on every single-learner state whose entries combine. *)
Theorem extract_ema_spec (model_states : TrainState) :
  (length (opt_states model_states) ≠ 1%nat ->
     extract_ema model_states = Raise ValueError)
  /\ (ema_entries model_states = [] -> extract_ema model_states = Raise ValueError)
  /\ (forall r, extract_ema model_states = Ok r ->
        step r = step model_states
        /\ is_ema_parameter_tree model_states (mdl_vars r)
        /\ opt_states r = [])
  /\ (length (opt_states model_states) = 1%nat ->
      forall ema, ema_tree model_states = Ok ema ->
        extract_ema model_states = Ok (mkTrainState (step model_states) ema [])).
Proof.
  split; [|split; [|split]].
  - intros Hlen. unfold extract_ema. rewrite bool_decide_eq_true_2 by done. done.
  - destruct model_states as [st vars opts].
    unfold extract_ema, ema_entries, _is_vectorized; simpl.
    destruct opts as [|learner [|l2 more]]; simpl; try done.
    destruct learner as [items|stages]; simpl.
    + rewrite find_ema_head. intros ->. done.
    + case_bool_decide as Hvec; simpl; [|done].
      rewrite merge_ema_stages_from. intros ->. done.
  - intros r Hr. apply extract_ema_ok in Hr as (Hstep & Htree & Hopt).
    split; [done|]. split; [by apply ema_tree_is_parameter_tree | done].
  - destruct model_states as [st vars opts].
    unfold extract_ema, ema_tree, ema_entries, _is_vectorized; simpl.
    destruct opts as [|learner [|l2 more]]; simpl; try done.
    intros _ tree. destruct learner as [items|stages]; simpl.
    + rewrite find_ema_head.
      destruct (omap ema_of items) as [|ema rest]; simpl; [done|].
      intros [= <-]. done.
    + case_bool_decide as Hvec; simpl; [|done].
      rewrite merge_ema_stages_from.
      destruct (concat (stage_entries <$> stages)) as [|ema rest]; simpl; [done|].
      intros ->. done.
Qed.

(** *** Skipping a split whose outputs are already there *)

Lemma decode_splits_skip body job_log_dir step_i (input_p : list InputHParams) w :
  (forall split p,
     _can_load_decode_outs (fs w) job_log_dir (name p) step_i = true ->
     body split p w = (Ok (None, None, None, 0), w)) ->
  Forall (fun p => _can_load_decode_outs (fs w) job_log_dir (name p) step_i = true)
    input_p ->
  forall split k,
    decode_splits body split input_p (all_skipped k) w
    = (Ok (all_skipped (k + length input_p)), w).
Proof.
  intros Hbody Hall. induction Hall as [|p more Hp _ IH]; intros split k; simpl.
  - rewrite Nat.add_0_r. done.
  - unfold mbind, M_bind. rewrite (Hbody split p Hp).
    replace (k + S (length more))%nat with (S k + length more)%nat by lia.
    rewrite <- (IH (S split) (S k)). f_equal. unfold all_skipped. simpl.
    rewrite <- !replicate_cons_app. done.
Qed.

(** C5.  When the skip probe finds the persisted outputs of a split at
    the step of the snapshot, the decode pass over that split, in both
    modes, calls the executor not once (the world, its log included, is
    left as it was), reports a performed-step count of 0 and records no
    metrics; and a decode run, and a second one after it, over splits
    that are all in that state performs no executor call either. *)
Theorem decode_skips_when_outputs_exist
    (process_index : Z) (job_log_dir : string) (states : TrainState)
    (split : nat) (p : InputHParams) (input_p : list InputHParams) (w : World) :
  _can_load_decode_outs (fs w) job_log_dir (name p) (step states) = true ->
  Forall (fun q => _can_load_decode_outs (fs w) job_log_dir (name q) (step states) = true)
    input_p ->
  decode_split_pmap process_index job_log_dir states split p w
    = (Ok (None, None, None, 0), w)
  /\ decode_split_spmd process_index job_log_dir states split p w
    = (Ok (None, None, None, 0), w)
  /\ (decode_once_pmap_model process_index job_log_dir input_p states;;
      decode_once_pmap_model process_index job_log_dir input_p states) w
    = (Ok (all_skipped (length input_p)), w)
  /\ (decode_once_spmd_model process_index job_log_dir input_p states;;
      decode_once_spmd_model process_index job_log_dir input_p states) w
    = (Ok (all_skipped (length input_p)), w).
Proof.
  intros Hp Hall.
  assert (forall split p,
            _can_load_decode_outs (fs w) job_log_dir (name p) (step states) = true ->
            decode_split_pmap process_index job_log_dir states split p w
            = (Ok (None, None, None, 0), w)) as Hpmap.
  { intros s q Hq. unfold decode_split_pmap, mbind, M_bind, get_fs. simpl.
    rewrite Hq. done. }
  assert (forall split p,
            _can_load_decode_outs (fs w) job_log_dir (name p) (step states) = true ->
            decode_split_spmd process_index job_log_dir states split p w
            = (Ok (None, None, None, 0), w)) as Hspmd.
  { intros s q Hq. unfold decode_split_spmd, mbind, M_bind, get_fs. simpl.
    rewrite Hq. done. }
  split; [by apply Hpmap|]. split; [by apply Hspmd|].
  unfold decode_once_pmap_model, decode_once_spmd_model, mbind, M_bind.
  change (mkDecodeOut [] [] [] []) with (all_skipped 0).
  rewrite !(decode_splits_skip _ job_log_dir (step states) input_p w); try done.
Qed.

(** *** Workers other than host 0 write nothing *)

Lemma writes_nothing_ret {A} (a : A) : writes_nothing (mret a).
Proof. intros w. done. Qed.

Lemma writes_nothing_bind {A B} (m : M A) (k : A -> M B) :
  writes_nothing m -> (forall a, writes_nothing (k a)) -> writes_nothing (m ≫= k).
Proof.
  intros Hm Hk w. unfold mbind, M_bind.
  destruct (Hm w) as [Hfs Hlog]. destruct (m w) as [[a|e] w']; simpl in *.
  - destruct (Hk a w') as [Hfs' Hlog']. split; congruence.
  - done.
Qed.

Lemma writes_nothing_lift {A} (r : result A) : writes_nothing (lift r).
Proof. intros w. done. Qed.

Lemma writes_nothing_emit e : is_destructive_write e = false -> writes_nothing (emit e).
Proof.
  intros He w. simpl. split; [done|].
  rewrite List.filter_app. simpl. rewrite He. apply app_nil_r.
Qed.

Lemma writes_nothing_get_fs : writes_nothing get_fs.
Proof. intros w. done. Qed.

Lemma writes_nothing_get_input split : writes_nothing (get_input split).
Proof. intros w. unfold get_input. destruct (inputs w !! split); done. Qed.


Lemma writes_nothing_process_batch_output out acc :
  writes_nothing (process_batch_output out acc).
Proof.
  unfold process_batch_output.
  destruct (process_decode_out out) as [[scalars kvs] [updates|]].
  - apply writes_nothing_bind.
    + case_bool_decide; [apply writes_nothing_lift | apply writes_nothing_ret].
    + intros ?. apply writes_nothing_ret.
  - apply writes_nothing_bind; [apply writes_nothing_ret|].
    intros ?. apply writes_nothing_ret.
Qed.

Lemma writes_nothing_only P {A} (m : M A) : writes_nothing m -> writes_only P m.
Proof.
  intros Hm w. destruct (Hm w) as [Hfs Hlog]. split; [done|].
  exists []. by rewrite app_nil_r.
Qed.

Lemma writes_only_nothing {A} (m : M A) :
  writes_only (fun _ => False) m -> writes_nothing m.
Proof.
  intros Hm w. destruct (Hm w) as (Hfs & added & Hlog & Hall). split; [done|].
  destruct added as [|e added]; [by rewrite app_nil_r in Hlog|].
  by inversion Hall.
Qed.

Lemma writes_only_bind P {A B} (m : M A) (k : A -> M B) :
  writes_only P m -> (forall a, writes_only P (k a)) -> writes_only P (m ≫= k).
Proof.
  intros Hm Hk w. unfold mbind, M_bind.
  destruct (Hm w) as (Hfs & added & Hlog & Hall).
  destruct (m w) as [[a|e] w1]; simpl in *.
  - destruct (Hk a w1) as (Hfs2 & added2 & Hlog2 & Hall2).
    split; [congruence|]. exists (added ++ added2).
    rewrite Hlog2, Hlog, app_assoc. split; [done | by apply Forall_app].
  - split; [done|]. by exists added.
Qed.

(** The seqio call is made on every worker, for the inputs whose
    outputs seqio processes. *)
Lemma writes_only_run_seqio (P : Event -> Prop) split filename kvs :
  P (SeqioProcessOutputs split (filename +:+ ".txt"))
  \/ (forall inp, should_process_outputs inp = false) ->
  writes_only P (run_seqio split filename kvs).
Proof.
  intros HP. unfold run_seqio.
  apply writes_only_bind; [apply writes_nothing_only, writes_nothing_get_input|].
  intros inp. destruct (should_process_outputs inp) eqn:Hinp.
  2: { apply writes_nothing_only, writes_nothing_ret. }
  destruct HP as [HP|Hoff]; [|by rewrite Hoff in Hinp].
  apply writes_only_bind; [|intros ?; apply writes_nothing_only, writes_nothing_ret].
  intros w. split; [done|]. exists [SeqioProcessOutputs split (filename +:+ ".txt")].
  simpl. rewrite List.filter_app. simpl. split; [done|]. by constructor.
Qed.

Lemma writes_only_decode_splits P body :
  forall input_p split,
    (forall i p, input_p !! i = Some p -> writes_only P (body (split + i)%nat p)) ->
    forall acc, writes_only P (decode_splits body split input_p acc).
Proof.
  intros input_p. induction input_p as [|p more IH]; intros split Hbody acc; simpl.
  - apply writes_nothing_only, writes_nothing_ret.
  - apply writes_only_bind.
    + specialize (Hbody 0%nat p eq_refl). by rewrite Nat.add_0_r in Hbody.
    + intros [[[dm pdm] sm] n]. apply IH. intros i q Hq.
      specialize (Hbody (S i) q Hq). by rewrite Nat.add_succ_r in Hbody.
Qed.

Lemma writes_nothing_maybe_update process_index m_value st dir tm part states :
  process_index ≠ 0 ->
  writes_nothing
    (maybe_update_min_tracked_metric process_index m_value st dir tm part states).
Proof.
  intros Hpi. unfold maybe_update_min_tracked_metric.
  rewrite bool_decide_eq_false_2 by done. apply writes_nothing_ret.
Qed.



Lemma writes_nothing_decode_splits body :
  (forall split p, writes_nothing (body split p)) ->
  forall input_p split acc, writes_nothing (decode_splits body split input_p acc).
Proof.
  intros Hbody input_p. induction input_p as [|p more IH]; intros split acc; simpl.
  - apply writes_nothing_ret.
  - apply writes_nothing_bind; [apply Hbody|].
    intros [[[dm pdm] sm] n]. apply IH.
Qed.

(** One split of a replicated-mode pass on a worker that takes no part
    in the guarded writes: a worker other than host 0, or any worker
    when only summaries are aggregated and no metric is tracked. *)
Lemma decode_split_pmap_writes_only (P : Event -> Prop) process_index job_log_dir
    states split p :
  (forall n src pend acc,
     writes_nothing (decode_while_pmap process_index states split n src pend acc)) ->
  process_index ≠ 0
  \/ (pax_only_aggregate_summaries = true /\ truthy track_decoder_metric = false) ->
  P (SeqioProcessOutputs split
       (path_join (path_join (path_join job_log_dir "decoder_out") (name p))
          (_get_filename process_index (step states)) +:+ ".txt"))
  \/ (forall inp, should_process_outputs inp = false) ->
  writes_only P (decode_split_pmap process_index job_log_dir states split p).
Proof.
  intros Hloop Hquiet HP. unfold decode_split_pmap.
  apply writes_only_bind; [apply writes_nothing_only, writes_nothing_get_fs|].
  intros f.
  destruct (_can_load_decode_outs _ _ _ _);
    [apply writes_nothing_only, writes_nothing_ret|].
  apply writes_only_bind; [apply writes_nothing_only, writes_nothing_get_input|].
  intros inp. apply writes_only_bind; [apply writes_nothing_only, Hloop|].
  intros acc. apply writes_only_bind; [by apply writes_only_run_seqio|].
  intros seqio. apply writes_nothing_only.
  apply writes_nothing_bind; [by apply writes_nothing_emit|]. intros _.
  apply writes_nothing_bind.
  { destruct track_decoder_metric as [tm|] eqn:Htm; [|apply writes_nothing_ret].
    destruct (truthy (Some tm)) eqn:Htruthy; [|apply writes_nothing_ret].
    destruct Hquiet as [Hpi|[_ Hoff]]; [|congruence].
    destruct (summarize _ !! tm) as [[v wt]|]; [|apply writes_nothing_ret].
    by apply writes_nothing_maybe_update. }
  intros _. apply writes_nothing_bind; [|intros _; apply writes_nothing_ret].
  destruct Hquiet as [Hpi|[Hflag _]].
  - rewrite bool_decide_eq_false_2 by done. apply writes_nothing_ret.
  - rewrite Hflag, andb_false_r. apply writes_nothing_ret.
Qed.


(** The seqio calls of a pass are calls for its inputs. *)
Lemma seqio_output_of_split process_index job_log_dir step_i input_p split p :
  input_p !! split = Some p ->
  seqio_output_of process_index job_log_dir step_i input_p
    (SeqioProcessOutputs split
       (path_join (path_join (path_join job_log_dir "decoder_out") (name p))
          (_get_filename process_index step_i) +:+ ".txt")).
Proof. intros Hp. by exists split, p. Qed.


(** *** The tracked metric *)

Lemma maybe_update_other_host process_index m_value st dir tm part states w :
  process_index ≠ 0 ->
  maybe_update_min_tracked_metric process_index m_value st dir tm part states w
  = (Ok (), w).
Proof.
  intros Hpi. unfold maybe_update_min_tracked_metric.
  rewrite bool_decide_eq_false_2 by done. done.
Qed.

Lemma maybe_update_returns process_index m_value st dir tm part states w :
  (maybe_update_min_tracked_metric process_index m_value st dir tm part states w).1
  = Ok ().
Proof.
  unfold maybe_update_min_tracked_metric.
  case_bool_decide; [|done].
  unfold mbind, M_bind, gfile_exists, get_fs; simpl.
  destruct (bool_decide (dir ∈ _)); simpl;
    destruct (PrimFloat.ltb _ _); done.
Qed.

Lemma tracked_metric_round_host0 process_count m_value st dir tm part states w :
  (0 < process_count)%nat ->
  tracked_metric_round process_count m_value st dir tm part states w
  = maybe_update_min_tracked_metric 0 m_value st dir tm part states w.
Proof.
  intros Hpc. destruct process_count as [|n]; [lia|].
  unfold tracked_metric_round. simpl. unfold mbind at 1, M_bind at 1.
  change (Z.of_nat 0) with 0.
  pose proof (maybe_update_returns 0 m_value st dir tm part states w) as Hok.
  destruct (maybe_update_min_tracked_metric 0 _ _ _ _ _ _ w) as [r w1].
  simpl in Hok. subst r.
  assert (forall hosts w, Forall (fun h => h ≠ 0%nat) hosts ->
            on_hosts hosts
              (fun process_index =>
                 maybe_update_min_tracked_metric process_index m_value st dir tm
                   part states) w = (Ok (), w)) as Hrest.
  { clear. intros hosts. induction hosts as [|h rest IH]; intros w Hall; [done|].
    inversion Hall; subst. simpl. unfold mbind at 1, M_bind at 1.
    rewrite maybe_update_other_host by lia. by apply IH. }
  apply Hrest. apply Forall_forall. intros h Hin.
  apply list_elem_of_In, in_seq in Hin. lia.
Qed.

Lemma feed_tracked_values_host0 process_count dir tm part states values :
  (0 < process_count)%nat ->
  forall st w,
    feed_tracked_values process_count dir tm part states st values w
    = feed_tracked_values 1 dir tm part states st values w.
Proof.
  intros Hpc. induction values as [|v rest IH]; intros st w; [done|].
  simpl. unfold mbind, M_bind.
  rewrite (tracked_metric_round_host0 process_count) by done.
  rewrite (tracked_metric_round_host0 1) by lia.
  destruct (maybe_update_min_tracked_metric 0 _ _ _ _ _ _ w) as [[[]|e] w1];
    [apply IH|done].
Qed.

(** C7.  Each time a value is fed to the tracked-metric update, on
    however many workers, the tracker's record is rewritten and the best
    checkpoint saved, once, exactly when the value is strictly below the
    stored best value ([sys.float_info.max] when there is no record); an
    equal or larger value leaves record and checkpoints alone.  Feeding
    5.0, 7.0, 3.0, 3.0, 2.9 to a fresh tracker rewrites the record three
    times, at the first, third and fifth value, saves three checkpoints
    and ends with the best value 2.9. *)
Theorem tracked_metric_updates_on_strict_improvement
    (process_count : nat) (m_value : float) (st : Z)
    (dir track_metric partition : string) (states : TrainState) (w : World) :
  (0 < process_count)%nat ->
  let w' := (tracked_metric_round process_count m_value st dir track_metric
               partition states w).2 in
  let best := tracker_metric_value (fs w) dir float_info_max in
  (PrimFloat.ltb m_value best = true ->
     persistence_events (log w')
     = persistence_events (log w)
       ++ [TrackerUpdate dir m_value st;
           SaveCheckpoint dir (state_map first_replica states)]
     /\ fs_status (fs w') !! dir = Some (mkRecord track_metric partition m_value st))
  /\ (PrimFloat.ltb m_value best = false ->
      persistence_events (log w') = persistence_events (log w)
      /\ fs_status (fs w') = fs_status (fs w)
      /\ fs_checkpoints (fs w') = fs_checkpoints (fs w))
  /\ (let final := (feed_tracked_values process_count "wer_min_tracker"
                      track_metric partition states 1
                      [5.0; 7.0; 3.0; 3.0; float_2_9]%float empty_world).2 in
      List.filter is_tracker_update (log final)
      = [TrackerUpdate "wer_min_tracker" 5.0 1;
         TrackerUpdate "wer_min_tracker" 3.0 3;
         TrackerUpdate "wer_min_tracker" float_2_9 5]
      /\ length (List.filter is_save_checkpoint (log final)) = 3%nat
      /\ tracker_metric_value (fs final) "wer_min_tracker" float_info_max = float_2_9).
Proof.
  intros Hpc. cbv zeta. rewrite tracked_metric_round_host0 by done.
  split; [|split].
  - intros Hlt. unfold maybe_update_min_tracked_metric.
    rewrite bool_decide_eq_true_2 by done.
    unfold mbind, M_bind, gfile_exists, gfile_makedirs, get_fs, put_fs, emit,
      tracker_update, save_checkpoint, persistence_events; simpl.
    destruct (bool_decide (dir ∈ _)); simpl.
    + fold (tracker_metric_value (fs w) dir float_info_max). rewrite Hlt. simpl.
      rewrite <- app_assoc, List.filter_app. simpl.
      split; [done | apply lookup_insert_eq].
    + unfold tracker_metric_value in *. simpl. rewrite Hlt. simpl.
      rewrite <- !app_assoc, List.filter_app. simpl.
      split; [done | apply lookup_insert_eq].
  - intros Hge. unfold maybe_update_min_tracked_metric.
    rewrite bool_decide_eq_true_2 by done.
    unfold mbind, M_bind, gfile_exists, gfile_makedirs, get_fs, put_fs, emit,
      persistence_events; simpl.
    destruct (bool_decide (dir ∈ _)); simpl.
    + fold (tracker_metric_value (fs w) dir float_info_max). rewrite Hge. done.
    + unfold tracker_metric_value in *. simpl. rewrite Hge. simpl.
      rewrite List.filter_app. simpl. rewrite app_nil_r. done.
  - rewrite feed_tracked_values_host0 by done.
    vm_compute. done.
Qed.

(** *** What the tracker saves *)

Lemma opt_states_state_map f s :
  opt_states (state_map f s) = [] <-> opt_states s = [].
Proof. unfold state_map; simpl. destruct (opt_states s); done. Qed.

(** What the tracker saves, in general: the first replica of the
    snapshot it is handed, optimizer state included.  The tracker trims
    nothing, so the saved optimizer state is empty exactly when the
    snapshot's is.  The pmap decode job hands it a restored snapshot
    whose optimizer state is empty when EMA is in use or no metric is
    tracked, and is the restored one when a metric is tracked without
    EMA. *)
Lemma tracker_saves_snapshot_as_given
    (process_index : Z) (m_value : float) (st : Z)
    (dir track_metric partition : string) (states : TrainState) (w : World)
    (restored : TrainState) (use_ema track : bool) :
  (forall d saved,
     SaveCheckpoint d saved ∈
       log (maybe_update_min_tracked_metric process_index m_value st dir
              track_metric partition states w).2 ->
     SaveCheckpoint d saved ∈ log w
     \/ (process_index = 0 /\ d = dir
         /\ saved = state_map first_replica states
         /\ (opt_states saved = [] <-> opt_states states = [])))
  /\ (forall r, get_model_states (Some restored) use_ema track = Ok r ->
        opt_states r
        = if use_ema then []
          else if track then learner_map replicate_leaf <$> opt_states restored
          else [])
  /\ (forall r, restore_for_next_decode restored use_ema track = Ok r ->
        opt_states r
        = if use_ema then []
          else if track then learner_map replicate_leaf <$> opt_states restored
          else []).
Proof.
  split; [|split].
  - intros d saved. unfold maybe_update_min_tracked_metric.
    case_bool_decide as Hpi; [|by left].
    unfold mbind, M_bind, gfile_exists, gfile_makedirs, get_fs, put_fs, emit,
      tracker_update, save_checkpoint; simpl.
    destruct (bool_decide (dir ∈ _)); simpl;
      destruct (PrimFloat.ltb _ _); simpl;
      intros Hin; set_unfold in Hin; destruct_or?; simplify_eq;
      try (by left); right;
      do 3 (split; [done|]); apply opt_states_state_map.
  - intros r. unfold get_model_states.
    destruct use_ema; simpl.
    + destruct (extract_ema restored) as [s|e] eqn:Hema; simpl; [|done].
      intros [= <-]. simpl.
      destruct (extract_ema_ok restored s Hema) as (_ & _ & ->). done.
    + destruct track; simpl; intros [= <-]; done.
  - intros r. unfold restore_for_next_decode.
    destruct use_ema; simpl.
    + destruct (extract_ema restored) as [s|e] eqn:Hema; simpl; [|done].
      intros [= <-]. simpl.
      destruct (extract_ema_ok restored s Hema) as (_ & _ & ->). done.
    + destruct track; simpl; intros [= <-]; done.
Qed.

(** * Further properties of the evaluation loop *)

(** A pass completes exactly when its budget is not positive or the
    pipeline holds at least that many batches. *)
Lemma eval_split_pass_ok_iff (n : Z) (inp : BaseInput) :
  (exists p, eval_split_pass n inp = Ok p)
  <-> (0 < n -> n <= Z.of_nat (length (pending inp))).
Proof.
  unfold eval_split_pass. destruct (decide (n < 0)) as [Hneg|Hpos].
  - rewrite eval_while_unbounded by done. split; [lia | by eexists].
  - rewrite eval_while_budget by lia. case_bool_decide as Hlen.
    + split; [lia | by eexists].
    + split; [intros [p Hp]; done | lia].
Qed.

Lemma eval_split_pass_raises (n : Z) (inp : BaseInput) (e : Exn) :
  eval_split_pass n inp = Raise e -> e = StopIteration.
Proof.
  unfold eval_split_pass. destruct (decide (n < 0)) as [Hneg|Hpos].
  - rewrite eval_while_unbounded by done. done.
  - rewrite eval_while_budget by lia. case_bool_decide; congruence.
Qed.

(** X1.  A pass with a budget [n >= 0] that completes has handed the
    executor exactly the first [n] pending batches, in their order, has
    left the others pending, and reports [n] steps. *)
Theorem eval_pass_hands_out_first_batches
    (n : Z) (inp : BaseInput) (p : SplitPass) :
  0 <= n ->
  eval_split_pass n inp = Ok p ->
  pass_batches p = take (Z.to_nat n) (pending inp)
  /\ length (pass_batches p) = Z.to_nat n
  /\ pass_input p = mkInput (drop (Z.to_nat n) (pending inp)) (source inp)
  /\ pending inp = pass_batches p ++ pending (pass_input p)
  /\ pass_step_num p = n.
Proof.
  intros Hn. unfold eval_split_pass. rewrite eval_while_budget by lia.
  rewrite Z.sub_0_r. case_bool_decide as Hlen; [|done].
  intros [= <-]. simpl. repeat split.
  - rewrite length_take. lia.
  - symmetry. apply take_drop.
Qed.

Lemma eval_splits_lengths ns : forall split acc out,
  eval_splits split ns acc = Ok out ->
  length (eval_metrics_list out) = (length (eval_metrics_list acc) + length ns)%nat
  /\ length (num_eval_steps out) = (length (num_eval_steps acc) + length ns)%nat
  /\ length (model_inputs_after out) = length (model_inputs_after acc).
Proof.
  induction ns as [|n more IH]; intros split acc out; simpl.
  - intros [= <-]. lia.
  - destruct (model_inputs_after acc !! split) as [inp|]; [|done].
    destruct (eval_split_pass n inp) as [p|e]; simpl; [|done].
    intros Hout. apply IH in Hout. simpl in Hout.
    rewrite !length_app, length_insert in Hout. simpl in Hout. lia.
Qed.

(** X2.  The three lists a completed run returns are aligned with its
    arguments: one metrics entry and one step count per element of
    [num_steps], and as many pipelines as it was given. *)
Theorem eval_loop_results_aligned
    (num_steps : list Z) (model_inputs : list BaseInput) (out : EvalLoopOut) :
  run_eval_loop_over_test_splits num_steps model_inputs = Ok out ->
  length (eval_metrics_list out) = length num_steps
  /\ length (num_eval_steps out) = length num_steps
  /\ length (model_inputs_after out) = length model_inputs.
Proof.
  intros Hout. apply eval_splits_lengths in Hout. simpl in Hout. lia.
Qed.

Lemma eval_splits_ok_iff ns : forall split acc,
  (exists out, eval_splits split ns acc = Ok out)
  <-> (forall i n, ns !! i = Some n ->
         exists inp, model_inputs_after acc !! (split + i)%nat = Some inp
                     /\ (0 < n -> n <= Z.of_nat (length (pending inp)))).
Proof.
  induction ns as [|n more IH]; intros split acc; simpl.
  - split; [intros _ i n' Hi; done | by eexists].
  - split.
    + intros [out Hout] i n' Hi.
      destruct (model_inputs_after acc !! split) as [inp|] eqn:Hinp; [|done].
      destruct (eval_split_pass n inp) as [p|e] eqn:Hp; simpl in Hout; [|done].
      destruct i as [|i]; simpl in Hi.
      * injection Hi as <-. exists inp. rewrite Nat.add_0_r. split; [done|].
        apply eval_split_pass_ok_iff. by exists p.
      * destruct (proj1 (IH _ _) (ex_intro _ out Hout) i n' Hi)
          as (inp' & Hinp' & Hlen). simpl in Hinp'.
        rewrite list_lookup_insert_ne in Hinp' by lia.
        exists inp'. split; [|done]. rewrite <- Hinp'. f_equal. lia.
    + intros Hall.
      destruct (Hall 0%nat n eq_refl) as (inp & Hinp & Hlen).
      rewrite Nat.add_0_r in Hinp. rewrite Hinp.
      destruct (proj2 (eval_split_pass_ok_iff n inp) Hlen) as [p ->]. simpl.
      apply IH. intros i n' Hi. simpl.
      destruct (Hall (S i) n' Hi) as (inp' & Hinp' & Hlen').
      exists inp'. split; [|done].
      rewrite list_lookup_insert_ne by lia. rewrite <- Hinp'. f_equal. lia.
Qed.

Lemma eval_splits_raises ns : forall split acc e,
  eval_splits split ns acc = Raise e -> e = IndexError \/ e = StopIteration.
Proof.
  induction ns as [|n more IH]; intros split acc e; simpl; [done|].
  destruct (model_inputs_after acc !! split) as [inp|]; [|intros [= <-]; by left].
  destruct (eval_split_pass n inp) as [p|e'] eqn:Hp; simpl.
  - apply IH.
  - intros [= <-]. right. by eapply eval_split_pass_raises.
Qed.

(** *** The summary writers

    [run_eval_loop_over_test_splits] is also handed the list of summary
    writers, and indexes it by split when the pass over a split is over
    (lines 246 and 261): a list shorter than [num_steps] raises
    [IndexError] there.  The run with that argument made explicit; with a
    writer for every split, as at the call sites, it is the run above. *)
Context {SummaryWriter : Type}.

Fixpoint eval_splits_with_writers (summary_writers : list SummaryWriter)
    (split : nat) (num_steps : list Z) (acc : EvalLoopOut) : result EvalLoopOut :=
  match num_steps with
  | [] => Ok acc
  | num_split_steps :: more =>
      match model_inputs_after acc !! split with
      | None => Raise IndexError
      | Some inp =>
          p ← eval_split_pass num_split_steps inp;
          match summary_writers !! split with
          | None => Raise IndexError
          | Some _ =>
              eval_splits_with_writers summary_writers (S split) more
                (mkEvalOut
                   (eval_metrics_list acc
                      ++ [as_float_dict (eval_step <$> pass_batches p)])
                   (num_eval_steps acc ++ [pass_step_num p])
                   (eval_step_calls acc ++ ((fun b => (split, b)) <$> pass_batches p))
                   (<[split := pass_input p]> (model_inputs_after acc)))
          end
      end
  end.

Definition run_eval_loop_with_writers (summary_writers : list SummaryWriter)
    (num_steps : list Z) (model_inputs : list BaseInput) : result EvalLoopOut :=
  eval_splits_with_writers summary_writers 0 num_steps (mkEvalOut [] [] [] model_inputs).

Lemma eval_splits_with_writers_enough summary_writers ns : forall split acc,
  (split + length ns <= length summary_writers)%nat ->
  eval_splits_with_writers summary_writers split ns acc = eval_splits split ns acc.
Proof.
  induction ns as [|n more IH]; intros split acc Hlen; simpl in *; [done|].
  destruct (model_inputs_after acc !! split) as [inp|]; [|done].
  destruct (eval_split_pass n inp) as [p|e]; simpl; [|done].
  destruct (lookup_lt_is_Some_2 summary_writers split) as [writer ->]; [lia|].
  apply IH. lia.
Qed.

Lemma eval_splits_with_writers_ok summary_writers ns : forall split acc out,
  eval_splits_with_writers summary_writers split ns acc = Ok out ->
  ns = [] \/ (split + length ns <= length summary_writers)%nat.
Proof.
  induction ns as [|n more IH]; intros split acc out; simpl; [by left|].
  destruct (model_inputs_after acc !! split) as [inp|]; [|done].
  destruct (eval_split_pass n inp) as [p|e]; simpl; [|done].
  destruct (summary_writers !! split) as [writer|] eqn:Hw; [|done].
  apply lookup_lt_Some in Hw.
  intros Hout. right. apply IH in Hout as [->|Hout]; simpl; lia.
Qed.

Lemma eval_splits_with_writers_raises summary_writers ns : forall split acc e,
  eval_splits_with_writers summary_writers split ns acc = Raise e ->
  e = IndexError \/ e = StopIteration.
Proof.
  induction ns as [|n more IH]; intros split acc e; simpl; [done|].
  destruct (model_inputs_after acc !! split) as [inp|]; [|intros [= <-]; by left].
  destruct (eval_split_pass n inp) as [p|e'] eqn:Hp; simpl.
  - destruct (summary_writers !! split); [apply IH | intros [= <-]; by left].
  - intros [= <-]. right. by eapply eval_split_pass_raises.
Qed.

(** What completes a run that has a writer for every split. *)
Lemma run_eval_loop_ok_iff (num_steps : list Z) (model_inputs : list BaseInput) :
  (exists out, run_eval_loop_over_test_splits num_steps model_inputs = Ok out)
  <-> (length num_steps <= length model_inputs)%nat
      /\ forall i n inp,
           num_steps !! i = Some n -> model_inputs !! i = Some inp ->
           0 < n -> n <= Z.of_nat (length (pending inp)).
Proof.
  unfold run_eval_loop_over_test_splits. rewrite eval_splits_ok_iff. simpl. split.
  - intros Hall. split.
    + destruct (decide (length num_steps = 0)%nat) as [->|Hne]; [lia|].
      destruct (lookup_lt_is_Some_2 num_steps (length num_steps - 1)) as [n Hn]; [lia|].
      destruct (Hall _ _ Hn) as (inp & Hinp & _).
      apply lookup_lt_Some in Hinp. lia.
    + intros i n inp Hn Hinp. destruct (Hall i n Hn) as (inp' & Hinp' & Hlen).
      simpl in Hinp'. by simplify_eq.
  - intros [Hlen Hall] i n Hn.
    destruct (lookup_lt_is_Some_2 model_inputs i) as [inp Hinp].
    { apply lookup_lt_Some in Hn. lia. }
    exists inp. split; [done|]. by eapply Hall.
Qed.

(** X3.  A run over the splits completes if and only if every split has
    a pipeline and a summary writer and every positive budget is covered
    by the batches its pipeline holds; otherwise it raises [IndexError]
    (a missing pipeline or writer) or the end-of-input exception, and
    nothing else.  With a writer for every split the writers play no
    further part in what the run returns. *)
Theorem eval_loop_completes_iff
    (summary_writers : list SummaryWriter) (num_steps : list Z)
    (model_inputs : list BaseInput) :
  ((exists out,
      run_eval_loop_with_writers summary_writers num_steps model_inputs = Ok out)
   <-> (length num_steps <= length model_inputs)%nat
       /\ (length num_steps <= length summary_writers)%nat
       /\ forall i n inp,
            num_steps !! i = Some n -> model_inputs !! i = Some inp ->
            0 < n -> n <= Z.of_nat (length (pending inp)))
  /\ (forall e,
        run_eval_loop_with_writers summary_writers num_steps model_inputs = Raise e ->
        e = IndexError \/ e = StopIteration)
  /\ ((length num_steps <= length summary_writers)%nat ->
      run_eval_loop_with_writers summary_writers num_steps model_inputs
      = run_eval_loop_over_test_splits num_steps model_inputs).
Proof.
  assert ((length num_steps <= length summary_writers)%nat ->
          run_eval_loop_with_writers summary_writers num_steps model_inputs
          = run_eval_loop_over_test_splits num_steps model_inputs) as Henough.
  { intros Hlen. by apply eval_splits_with_writers_enough. }
  split; [|split; [apply eval_splits_with_writers_raises | exact Henough]].
  split.
  - intros [out Hout].
    assert (length num_steps <= length summary_writers)%nat as Hlen.
    { apply eval_splits_with_writers_ok in Hout as [->|Hout]; simpl in *; lia. }
    rewrite (Henough Hlen) in Hout.
    destruct (proj1 (run_eval_loop_ok_iff num_steps model_inputs)
                (ex_intro _ out Hout)) as [Hinputs Hbudget].
    done.
  - intros (Hinputs & Hlen & Hbudget). rewrite (Henough Hlen).
    by apply run_eval_loop_ok_iff.
Qed.

Lemma eval_splits_unbounded ns :
  Forall (fun n => n < 0) ns ->
  forall split acc,
    (split + length ns <= length (model_inputs_after acc))%nat ->
    let l := model_inputs_after acc in
    let range := take (length ns) (drop split l) in
    exists out,
      eval_splits split ns acc = Ok out
      /\ eval_metrics_list out
         = eval_metrics_list acc
           ++ ((fun inp => as_float_dict (eval_step <$> pending inp)) <$> range)
      /\ num_eval_steps out
         = num_eval_steps acc
           ++ ((fun inp => Z.of_nat (length (pending inp)) + 1) <$> range)
      /\ model_inputs_after out
         = take split l ++ (reset <$> range) ++ drop (split + length ns) l.
Proof.
  induction 1 as [|n more Hn _ IH]; intros split acc Hlen; simpl in *.
  - eexists. split; [done|]. rewrite !app_nil_r, Nat.add_0_r, take_drop. done.
  - destruct (lookup_lt_is_Some_2 (model_inputs_after acc) split) as [inp Hinp]; [lia|].
    rewrite Hinp. unfold eval_split_pass. rewrite eval_while_unbounded by done. simpl.
    match goal with |- context [eval_splits (S split) more ?a] =>
      destruct (IH (S split) a) as (out & Hout & Hm & Hs & Hi) end.
    { simpl. rewrite length_insert. lia. }
    simpl in Hm, Hs, Hi.
    rewrite drop_insert_lt in Hm, Hs, Hi by lia.
    exists out. split; [done|].
    rewrite (drop_S _ _ _ Hinp). simpl.
    rewrite Hm, Hs, Hi, <- !app_assoc. simpl.
    repeat split.
    rewrite drop_insert_lt by lia.
    rewrite (take_S_r _ _ (reset inp)) by (apply list_lookup_insert_eq; by eapply lookup_lt_Some).
    rewrite take_insert_ge by lia. rewrite <- app_assoc. simpl.
    replace (split + S (length more))%nat with (S split + length more)%nat by lia.
    destruct inp; done.
Qed.

(** X4.  When every split runs until its input is exhausted (all budgets
    negative) the run completes, evaluates each split on all its pending
    batches and leaves every pipeline rewound; so a further run, as the
    one for the next checkpoint, evaluates each split on its whole source
    and leaves the pipelines as it found them. *)
Theorem eval_loop_unbounded_repeatable
    (num_steps : list Z) (model_inputs : list BaseInput) :
  Forall (fun n => n < 0) num_steps ->
  length num_steps = length model_inputs ->
  exists out out2,
    run_eval_loop_over_test_splits num_steps model_inputs = Ok out
    /\ eval_metrics_list out
       = (fun inp => as_float_dict (eval_step <$> pending inp)) <$> model_inputs
    /\ model_inputs_after out = reset <$> model_inputs
    /\ run_eval_loop_over_test_splits num_steps (model_inputs_after out) = Ok out2
    /\ eval_metrics_list out2
       = (fun inp => as_float_dict (eval_step <$> source inp)) <$> model_inputs
    /\ model_inputs_after out2 = model_inputs_after out.
Proof.
  intros Hneg Hlen.
  destruct (eval_splits_unbounded num_steps Hneg 0 (mkEvalOut [] [] [] model_inputs))
    as (out & Hout & Hm & _ & Hi); [simpl; lia|].
  simpl in Hm, Hi. rewrite drop_0 in Hm, Hi.
  rewrite Hlen, drop_all, take_ge, app_nil_r in Hi by lia.
  rewrite Hlen, take_ge in Hm by lia.
  destruct (eval_splits_unbounded num_steps Hneg 0
              (mkEvalOut [] [] [] (reset <$> model_inputs)))
    as (out2 & Hout2 & Hm2 & _ & Hi2); [simpl; rewrite length_fmap; lia|].
  simpl in Hm2, Hi2. rewrite drop_0 in Hm2, Hi2.
  rewrite Hlen in Hm2, Hi2.
  rewrite drop_ge, take_ge, app_nil_r in Hi2 by (rewrite length_fmap; lia).
  rewrite take_ge in Hm2 by (rewrite length_fmap; lia).
  exists out, out2. unfold run_eval_loop_over_test_splits.
  rewrite Hi. repeat split; try done.
  - rewrite Hm2, <- list_fmap_compose. done.
  - rewrite Hi2, <- list_fmap_compose. apply list_fmap_ext. intros _ [pd src] _. done.
Qed.

(** * Further properties of the watcher and of the metric merge *)

Lemma await_while_none known new polls :
  await_while known new polls = None
  <-> new = known /\ Forall (fun p => p = known) polls.
Proof.
  revert new. induction polls as [|q rest IH]; intros new; simpl.
  - case_bool_decide; split; try done; [intros [? _]; done].
  - case_bool_decide as Heq.
    + rewrite IH. split.
      * intros [-> Hrest]. split; [done|]. by constructor.
      * intros [_ Hall]. inversion Hall; subst. done.
    + split; [done | intros [? _]; done].
Qed.

(** X5.  The wait for a new checkpoint is still sleeping at the end of a
    sequence of polls if and only if every poll returned the known step:
    nothing but a change of the latest step ends it, and any change,
    also to no step at all, does. *)
Theorem await_new_checkpoint_sleeps_iff_unchanged
    (known_step : option Z) (polls : list (option Z)) :
  await_new_checkpoint known_step polls = None
  <-> Forall (fun p => p = known_step) polls.
Proof.
  destruct polls as [|p rest]; simpl; [done|].
  rewrite await_while_none. split.
  - intros [-> Hrest]. by constructor.
  - intros Hall. inversion Hall; subst. done.
Qed.

Lemma merge_clu_metrics_ok (metrics updated : gmap string Metric) :
  dom metrics = dom updated ->
  _merge_clu_metrics metrics updated
  = Ok (if bool_decide (metrics ≠ ∅) then map_zip_with metric_merge metrics updated
        else updated).
Proof.
  intros Hdom. unfold _merge_clu_metrics. case_bool_decide; [|done].
  rewrite bool_decide_eq_false_2; [done | by intros Hne; apply Hne].
Qed.

Lemma merge_clu_metrics_mismatch (metrics updated : gmap string Metric) :
  metrics ≠ ∅ -> dom metrics ≠ dom updated ->
  _merge_clu_metrics metrics updated = Raise ValueError.
Proof.
  intros Hne Hdom. unfold _merge_clu_metrics.
  by rewrite !bool_decide_eq_true_2.
Qed.

Lemma dom_zip_same (a b : gmap string Metric) :
  dom a = dom b -> dom (map_zip_with metric_merge a b) = dom a.
Proof. intros Hdom. rewrite dom_map_zip_with_L, <- Hdom. apply (idemp_L (∩)). Qed.

(** X6.  On accumulators that carry the same metric names, merging is
    associative whenever the metrics' own merge is: merging batch by
    batch and merging partial results give the same accumulator, and
    neither raises. *)
Theorem merge_clu_metrics_assoc (a b c : gmap string Metric) :
  (forall x y z, metric_merge (metric_merge x y) z = metric_merge x (metric_merge y z)) ->
  dom a = dom b -> dom b = dom c ->
  (_merge_clu_metrics a b ≫= fun ab => _merge_clu_metrics ab c)
  = (_merge_clu_metrics b c ≫= fun bc => _merge_clu_metrics a bc)
  /\ exists abc, (_merge_clu_metrics a b ≫= fun ab => _merge_clu_metrics ab c) = Ok abc
                 /\ dom abc = dom a.
Proof.
  intros Hassoc Hab Hbc.
  rewrite (merge_clu_metrics_ok a b Hab), (merge_clu_metrics_ok b c Hbc).
  unfold mbind, result_bind.
  destruct (decide (a = ∅)) as [->|Ha].
  - assert (b = ∅) as -> by (apply dom_empty_iff_L; rewrite <- Hab; apply dom_empty_L).
    assert (c = ∅) as -> by (apply dom_empty_iff_L; rewrite <- Hbc; apply dom_empty_L).
    rewrite !bool_decide_eq_false_2 by (intros Hne; by apply Hne).
    rewrite merge_clu_metrics_ok by done.
    rewrite bool_decide_eq_false_2 by (intros Hne; by apply Hne).
    split; [done | by eexists].
  - assert (b ≠ ∅) as Hb.
    { intros ->. apply Ha. apply dom_empty_iff_L. rewrite Hab. apply dom_empty_L. }
    rewrite !bool_decide_eq_true_2 by done.
    rewrite (merge_clu_metrics_ok (map_zip_with metric_merge a b) c)
      by (rewrite dom_zip_same by done; congruence).
    rewrite (merge_clu_metrics_ok a (map_zip_with metric_merge b c))
      by (rewrite dom_zip_same by done; congruence).
    assert (map_zip_with metric_merge a b ≠ ∅) as Hzip.
    { intros Hz. apply Ha. apply dom_empty_iff_L.
      rewrite <- (dom_zip_same a b Hab), Hz. apply dom_empty_L. }
    rewrite !bool_decide_eq_true_2 by done.
    assert (map_zip_with metric_merge (map_zip_with metric_merge a b) c
            = map_zip_with metric_merge a (map_zip_with metric_merge b c)) as Heq.
    { apply map_eq. intros k. rewrite !map_lookup_zip_with.
      destruct (a !! k), (b !! k), (c !! k); simpl; try done. by rewrite Hassoc. }
    split; [by rewrite Heq|].
    eexists. split; [done|].
    rewrite dom_zip_same; rewrite dom_zip_same by done; congruence.
Qed.

(** * Further properties of the train states *)

(** X7.  [extract_ema] raises [ValueError] on every state that
    [trim_opt_states] or [extract_ema] itself returned: a state can be
    reduced to its EMA only once, and never after its optimizer state
    was trimmed. *)
Theorem extract_ema_needs_untrimmed_state (model_states r : TrainState) :
  extract_ema (trim_opt_states model_states) = Raise ValueError
  /\ (extract_ema model_states = Ok r ->
      extract_ema r = Raise ValueError
      /\ extract_ema (trim_opt_states r) = Raise ValueError
      /\ trim_opt_states r = r).
Proof.
  split; [done|]. intros Hr.
  destruct (extract_ema_ok _ _ Hr) as (_ & _ & Hopt).
  destruct r as [st vars opts]. simpl in Hopt. subst opts. done.
Qed.

(** Whether a tree holds a masked node. *)
Fixpoint has_masked (t : PyTree) : bool :=
  match t with
  | Leaf _ => false
  | MaskedNode => true
  | Dict entries =>
      (fix go (l : list (string * PyTree)) : bool :=
         match l with
         | [] => false
         | (_, v) :: l' => has_masked v || go l'
         end) entries
  | Tuple items =>
      (fix go (l : list PyTree) : bool :=
         match l with
         | [] => false
         | v :: l' => has_masked v || go l'
         end) items
  end.

(** X8.  The merge of the stages' EMA trees is biased to the tree met
    first: where that tree has no masked node, a merge that succeeds
    returns it unchanged, whatever the later tree holds there. *)
Theorem tree_merge_keeps_unmasked (x : PyTree) :
  forall y r, has_masked x = false -> tree_merge x y = Ok r -> r = x.
Proof.
  induction x as [a| |entries IH|items IH] using PyTree_forall_ind;
    intros y r Hmask; simpl in *; try done.
  - by intros [= <-].
  - destruct y as [| |ys|]; try done.
    case_bool_decide; [|done]. clear H.
    match goal with |- context [?g entries] => set (go := g) end.
    assert (forall r', go entries = Ok r' -> r' = entries) as Hgo.
    { induction IH as [|[k xv] rest Hxv _ IHrest]; intros r'; simpl in *.
      - by intros [= <-].
      - apply orb_false_iff in Hmask as [Hxv' Hrest'].
        destruct (dict_get k ys) as [yv|]; simpl; [|done].
        destruct (tree_merge xv yv) as [v|e] eqn:Hm; simpl; [|done].
        apply Hxv in Hm as ->; [|done].
        destruct (go rest) as [rest'|e] eqn:Hrest; simpl; [|done].
        intros [= <-]. f_equal. by apply IHrest. }
    destruct (go entries) as [r'|e]; simpl; [|done].
    intros [= <-]. f_equal. by apply Hgo.
  - destruct y as [| | |ys]; try done.
    match goal with |- context [?g items ys] => set (go := g) end.
    assert (forall ys r', go items ys = Ok r' -> r' = items) as Hgo.
    { clear ys. induction IH as [|xv rest Hxv _ IHrest]; intros [|yv ys] r';
        simpl in *; try done.
      - by intros [= <-].
      - apply orb_false_iff in Hmask as [Hxv' Hrest'].
        destruct (tree_merge xv yv) as [v|e] eqn:Hm; simpl; [|done].
        apply Hxv in Hm as ->; [|done].
        destruct (go rest ys) as [rest'|e] eqn:Hrest; simpl; [|done].
        intros [= <-]. f_equal. by eapply IHrest. }
    destruct (go items ys) as [r'|e] eqn:Hr; simpl; [|done].
    intros [= <-]. f_equal. by eapply Hgo.
Qed.

Lemma tree_map_round_trip (f g : Arr -> Arr) (t : PyTree) :
  (forall a, f (g a) = a) -> tree_map f (tree_map g t) = t.
Proof.
  intros Hfg.
  induction t as [a| |entries IH|items IH] using PyTree_forall_ind.
  - simpl. by rewrite Hfg.
  - done.
  - change (Dict ((fun '(k, v) => (k, tree_map f v))
                    <$> ((fun '(k, v) => (k, tree_map g v)) <$> entries))
            = Dict entries).
    f_equal. rewrite <- list_fmap_compose.
    rewrite <- (list_fmap_id entries) at 2.
    apply Forall_fmap_ext. eapply Forall_impl; [exact IH|].
    intros [k v] Hv. simpl in *. by rewrite Hv.
  - change (Tuple (tree_map f <$> (tree_map g <$> items)) = Tuple items).
    f_equal. rewrite <- list_fmap_compose.
    rewrite <- (list_fmap_id items) at 2.
    apply Forall_fmap_ext. eapply Forall_impl; [exact IH|].
    intros v Hv. simpl. done.
Qed.

Lemma learner_map_round_trip (f g : Arr -> Arr) (l : LearnerState) :
  (forall a, f (g a) = a) -> learner_map f (learner_map g l) = l.
Proof.
  intros Hfg.
  pose proof (tree_map_round_trip f g (Tuple match l with OptTuple i => i | _ => [] end) Hfg) as Ht.
  pose proof (tree_map_round_trip f g (Dict match l with OptDict d => d | _ => [] end) Hfg) as Hd.
  destruct l as [items|stages].
  - change (OptTuple (tree_map f <$> (tree_map g <$> items)) = OptTuple items).
    change (Tuple (tree_map f <$> (tree_map g <$> items)) = Tuple items) in Ht.
    by injection Ht as ->.
  - change (OptDict ((fun '(k, v) => (k, tree_map f v))
                       <$> ((fun '(k, v) => (k, tree_map g v)) <$> stages))
            = OptDict stages).
    change (Dict ((fun '(k, v) => (k, tree_map f v))
                    <$> ((fun '(k, v) => (k, tree_map g v)) <$> stages))
            = Dict stages) in Hd.
    by injection Hd as ->.
Qed.

Lemma state_map_round_trip (f g : Arr -> Arr) (s : TrainState) :
  (forall a, f (g a) = a) -> state_map f (state_map g s) = s.
Proof.
  intros Hfg. destruct s as [st vars opts]. unfold state_map; simpl.
  rewrite tree_map_round_trip by done. f_equal.
  rewrite <- list_fmap_compose. rewrite <- (list_fmap_id opts) at 2.
  apply list_fmap_ext. intros _ l _. simpl. by apply learner_map_round_trip.
Qed.

(** X9.  When taking the first replica undoes the replication of a
    leaf, the checkpoint the tracker saves in a pmap decode job that
    tracks a metric without EMA is the checkpoint the job restored,
    unchanged: replicated by [get_model_states], unreplicated by the
    tracker. *)
Theorem tracker_checkpoint_is_restored_state
    (restored states : TrainState) (m_value : float) (st : Z)
    (dir track_metric partition : string) (w : World) :
  (forall a, first_replica (replicate_leaf a) = a) ->
  get_model_states (Some restored) false true = Ok states ->
  PrimFloat.ltb m_value (tracker_metric_value (fs w) dir float_info_max) = true ->
  let w' := (maybe_update_min_tracked_metric 0 m_value st dir track_metric
               partition states w).2 in
  fs_checkpoints (fs w') = fs_checkpoints (fs w) ++ [(dir, restored)]
  /\ List.filter is_save_checkpoint (log w')
     = List.filter is_save_checkpoint (log w) ++ [SaveCheckpoint dir restored].
Proof.
  intros Hrep [= <-] Hlt. unfold replicate_model_state.
  rewrite <- (state_map_round_trip first_replica replicate_leaf restored Hrep) at 2 4.
  unfold maybe_update_min_tracked_metric. rewrite bool_decide_eq_true_2 by done.
  unfold mbind, M_bind, gfile_exists, gfile_makedirs, get_fs, put_fs, emit,
    tracker_update, save_checkpoint; simpl.
  destruct (bool_decide (dir ∈ _)); simpl.
  - fold (tracker_metric_value (fs w) dir float_info_max). rewrite Hlt. simpl.
    rewrite <- app_assoc, List.filter_app. done.
  - unfold tracker_metric_value in *. simpl. rewrite Hlt. simpl.
    rewrite <- !app_assoc, List.filter_app. done.
Qed.

(** * Further properties of the tracked metric *)

(** The better of the stored best value and a new value. *)
Definition better_of (best m_value : float) : float :=
  if PrimFloat.ltb m_value best then m_value else best.

(** The values of a sequence that improve strictly on all before them,
    with the steps at which they were fed. *)
Fixpoint improvements (best : float) (step : Z) (values : list float)
    : list (float * Z) :=
  match values with
  | [] => []
  | m_value :: rest =>
      if PrimFloat.ltb m_value best
      then (m_value, step) :: improvements m_value (step + 1) rest
      else improvements best (step + 1) rest
  end.

Lemma maybe_update_host0_effect m_value st dir tm part states w :
  let w' := (maybe_update_min_tracked_metric 0 m_value st dir tm part states w).2 in
  let best := tracker_metric_value (fs w) dir float_info_max in
  tracker_metric_value (fs w') dir float_info_max = better_of best m_value
  /\ List.filter is_tracker_update (log w')
     = List.filter is_tracker_update (log w)
       ++ (if PrimFloat.ltb m_value best then [TrackerUpdate dir m_value st] else [])
  /\ List.filter is_save_checkpoint (log w')
     = List.filter is_save_checkpoint (log w)
       ++ (if PrimFloat.ltb m_value best
           then [SaveCheckpoint dir (state_map first_replica states)] else [])
  /\ dir ∈ fs_dirs (fs w').
Proof.
  unfold maybe_update_min_tracked_metric, better_of.
  rewrite bool_decide_eq_true_2 by done.
  unfold mbind, M_bind, gfile_exists, gfile_makedirs, get_fs, put_fs, emit,
    tracker_update, save_checkpoint; simpl.
  case_bool_decide as Hdir; simpl.
  - fold (tracker_metric_value (fs w) dir float_info_max).
    destruct (PrimFloat.ltb _ _); simpl.
    + unfold tracker_metric_value; simpl. rewrite lookup_insert_eq. simpl.
      rewrite <- !app_assoc, !List.filter_app. done.
    + rewrite !app_nil_r. done.
  - unfold tracker_metric_value at 1 2 3 4. simpl.
    fold (tracker_metric_value (fs w) dir float_info_max).
    destruct (PrimFloat.ltb _ _); simpl.
    + unfold tracker_metric_value; simpl. rewrite lookup_insert_eq. simpl.
      rewrite <- !app_assoc, !List.filter_app. simpl.
      repeat split; try done. by apply elem_of_union_l, elem_of_singleton.
    + rewrite !List.filter_app. simpl. rewrite !app_nil_r.
      repeat split; try done. by apply elem_of_union_l, elem_of_singleton.
Qed.

Lemma feed_tracked_values_step dir tm part states st v rest w :
  feed_tracked_values 1 dir tm part states st (v :: rest) w
  = feed_tracked_values 1 dir tm part states (st + 1) rest
      (maybe_update_min_tracked_metric 0 v st dir tm part states w).2.
Proof.
  simpl. unfold mbind, M_bind.
  rewrite (tracked_metric_round_host0 1) by lia.
  pose proof (maybe_update_returns 0 v st dir tm part states w) as Hok.
  destruct (maybe_update_min_tracked_metric 0 v st dir tm part states w) as [r w1].
  simpl in *. by subst r.
Qed.

(** X10.  Fed any sequence of values, on any number of workers, the
    tracker ends with the running minimum of its stored best value and
    the values ([<] on binary64, so a NaN never replaces anything), and
    it rewrote its record and saved a checkpoint once for each value
    that improved strictly on everything before it, at that value's
    step. *)
Theorem tracker_keeps_running_minimum
    (process_count : nat) (dir track_metric partition : string)
    (states : TrainState) (values : list float) (st : Z) (w : World) :
  (0 < process_count)%nat ->
  let final := (feed_tracked_values process_count dir track_metric partition
                  states st values w).2 in
  let best := tracker_metric_value (fs w) dir float_info_max in
  tracker_metric_value (fs final) dir float_info_max = foldl better_of best values
  /\ List.filter is_tracker_update (log final)
     = List.filter is_tracker_update (log w)
       ++ ((fun '(v, s) => TrackerUpdate dir v s) <$> improvements best st values)
  /\ length (List.filter is_save_checkpoint (log final))
     = (length (List.filter is_save_checkpoint (log w))
        + length (improvements best st values))%nat.
Proof.
  intros Hpc. cbv zeta. rewrite feed_tracked_values_host0 by done.
  revert st w. induction values as [|v rest IH]; intros st w.
  - simpl. rewrite app_nil_r. repeat split; lia.
  - rewrite feed_tracked_values_step.
    pose proof (maybe_update_host0_effect v st dir track_metric partition states w)
      as (Hbest & Hupd & Hsave & _).
    destruct (IH (st + 1)
                (maybe_update_min_tracked_metric 0 v st dir track_metric partition
                   states w).2) as (IHbest & IHupd & IHsave).
    rewrite IHbest, IHupd, IHsave, Hbest, Hupd, Hsave. simpl. unfold better_of.
    destruct (PrimFloat.ltb v _); simpl.
    + rewrite <- !app_assoc, !length_app. simpl. repeat split; lia.
    + rewrite !app_nil_r. done.
Qed.

(** No float is strictly below itself. *)
Lemma float_ltb_irrefl (x : float) : PrimFloat.ltb x x = false.
Proof.
  rewrite FloatAxioms.ltb_spec. unfold SpecFloat.SFltb.
  destruct (FloatOps.Prim2SF x) as [s|s| |s m e]; simpl; try done.
  - by destruct s.
  - destruct s; rewrite Z.compare_refl, Pos.compare_cont_refl; done.
Qed.

Lemma maybe_update_host0_no_change m_value st dir tm part states w :
  dir ∈ fs_dirs (fs w) ->
  PrimFloat.ltb m_value (tracker_metric_value (fs w) dir float_info_max) = false ->
  maybe_update_min_tracked_metric 0 m_value st dir tm part states w = (Ok (), w).
Proof.
  intros Hdir Hge. unfold maybe_update_min_tracked_metric.
  rewrite bool_decide_eq_true_2 by done.
  unfold mbind, M_bind, gfile_exists, get_fs; simpl.
  rewrite bool_decide_eq_true_2 by done. simpl. rewrite Hge. done.
Qed.

(** X11.  Reporting the same value again, at whatever step, changes
    nothing: after a first report the tracker's directory exists and the
    value is not strictly below the stored best, so a repeated decode of
    a checkpoint rewrites neither the record nor the best checkpoint. *)
Theorem tracker_update_idempotent
    (m_value : float) (st st' : Z) (dir track_metric partition : string)
    (states states' : TrainState) (w : World) :
  let w1 := (maybe_update_min_tracked_metric 0 m_value st dir track_metric
               partition states w).2 in
  maybe_update_min_tracked_metric 0 m_value st' dir track_metric partition
    states' w1
  = (Ok (), w1).
Proof.
  cbv zeta.
  pose proof (maybe_update_host0_effect m_value st dir track_metric partition
                states w) as (Hbest & _ & _ & Hdir).
  apply maybe_update_host0_no_change; [done|].
  simpl in Hbest. rewrite Hbest. unfold better_of.
  destruct (PrimFloat.ltb m_value (tracker_metric_value (fs w) dir float_info_max))
    eqn:Hlt; [apply float_ltb_irrefl | done].
Qed.

(** * Further properties of the decode passes *)

(** The batches a pass that started at step count [k] goes on to decode:
    all that are pending when the budget is negative, else as many of
    them as the budget still allows. *)
Definition planned_batches (num_split_steps k : Z) (pend : list Batch) : list Batch :=
  if bool_decide (num_split_steps < 0) then pend
  else take (Z.to_nat (num_split_steps - k)) pend.

(** The clu metrics and the processed outputs of the batches decoded. *)
Definition clu_updates (states : TrainState) (batches : list Batch)
    : list (gmap string Metric) :=
  (fun b => (decode_step states b).2) <$> batches.

Definition processed_outputs (states : TrainState) (batches : list Batch) : list KV :=
  concat ((fun b => (process_decode_out (decode_step states b).1.2).1.2) <$> batches).

(** [metrics = _merge_clu_metrics(metrics, updated_metrics)], batch after
    batch. *)
Fixpoint merge_batches (metrics : gmap string Metric)
    (updates : list (gmap string Metric)) : result (gmap string Metric) :=
  match updates with
  | [] => Ok metrics
  | updated_metrics :: rest =>
      metrics' ← _merge_clu_metrics metrics updated_metrics;
      merge_batches metrics' rest
  end.

(** The executor calls of a log. *)
Definition decode_step_calls (l : list Event) : list (nat * Batch) :=
  omap (fun e => match e with DecodeStepCall s b => Some (s, b) | _ => None end) l.

Lemma planned_batches_nil n k : planned_batches n k [] = [].
Proof. unfold planned_batches. case_bool_decide; [done | by rewrite take_nil]. Qed.

Lemma planned_batches_stop n k pend :
  loop_continues n k = false -> planned_batches n k pend = [].
Proof.
  unfold loop_continues, planned_batches. intros Hc.
  apply orb_false_iff in Hc as [Hn Hk].
  rewrite Hn. apply bool_decide_eq_false_1 in Hk.
  replace (Z.to_nat (n - k)) with 0%nat by lia. done.
Qed.

Lemma planned_batches_cons n k b rest :
  loop_continues n k = true ->
  planned_batches n k (b :: rest) = b :: planned_batches n (k + 1) rest.
Proof.
  unfold loop_continues, planned_batches. intros Hc.
  case_bool_decide as Hn; [done|]. simpl in Hc.
  apply bool_decide_eq_true_1 in Hc.
  replace (Z.to_nat (n - k)) with (S (Z.to_nat (n - (k + 1)))) by lia. done.
Qed.

Lemma process_batch_output_ok out acc w acc' w' :
  process_batch_output out acc w = (Ok acc', w') ->
  w' = w
  /\ acc_step_num acc' = acc_step_num acc
  /\ acc_metrics acc' = acc_metrics acc
  /\ acc_processed_decodes acc'
     = acc_processed_decodes acc ++ (process_decode_out out).1.2.
Proof.
  unfold process_batch_output.
  destruct (process_decode_out out) as [[scalars kvs] updates]; simpl.
  unfold mbind, M_bind, lift, mret, M_ret.
  destruct updates as [u|]; [case_bool_decide|]; simpl;
    try (intros [= <- <-]; done).
  destruct (_merge_clu_metrics _ _); simpl; [|done].
  intros [= <- <-]; done.
Qed.

Lemma process_batch_output_world out acc w :
  (process_batch_output out acc w).2 = w
  /\ forall e, (process_batch_output out acc w).1 = Raise e -> e = ValueError.
Proof.
  unfold process_batch_output.
  destruct (process_decode_out out) as [[scalars kvs] updates]; simpl.
  unfold mbind, M_bind, lift, mret, M_ret.
  destruct updates as [u|]; [case_bool_decide|]; simpl; try done.
  destruct (_merge_clu_metrics _ _) eqn:Hm; simpl; [done|].
  split; [done|]. intros e' [= <-].
  unfold _merge_clu_metrics in Hm. repeat case_bool_decide; congruence.
Qed.

Lemma merge_clu_metrics_raises (metrics updated : gmap string Metric) e :
  _merge_clu_metrics metrics updated = Raise e -> e = ValueError.
Proof. unfold _merge_clu_metrics. repeat case_bool_decide; congruence. Qed.

Lemma bind_run {A B} (m : M A) (k : A -> M B) (w : World) :
  (m ≫= k) w
  = match m w with
    | (Ok a, w') => k a w'
    | (Raise e, w') => (Raise e, w')
    end.
Proof. reflexivity. Qed.

(** One turn of the partitioned-mode loop on a pending batch. *)
Lemma decode_while_spmd_cons process_index states split n src batch rest acc w :
  loop_continues n (acc_step_num acc) = true ->
  decode_while_spmd process_index states split n src (batch :: rest) acc w
  = let w1 := mkWorld (<[split := mkInput rest src]> (inputs w)) (fs w)
                (log w ++ [DecodeStepCall split batch]) in
    match _merge_clu_metrics (acc_metrics acc) (decode_step states batch).2 with
    | Raise e => (Raise e, w1)
    | Ok metrics =>
        let acc1 decode_metrics :=
          mkAcc (acc_step_num acc + 1) decode_metrics metrics
            (acc_process_decode_metrics acc) (acc_processed_metrics acc)
            (acc_processed_decodes acc) in
        if bool_decide (process_index = 0) then
          match process_batch_output (decode_step states batch).1.2
                  (acc1 (acc_decode_metrics acc ++ [(decode_step states batch).1.1]))
                  w1 with
          | (Ok acc2, w2) =>
              decode_while_spmd process_index states split n src rest acc2 w2
          | (Raise e, w2) => (Raise e, w2)
          end
        else decode_while_spmd process_index states split n src rest
               (acc1 (acc_decode_metrics acc)) w1
    end.
Proof.
  intros Hc. simpl. rewrite Hc.
  destruct (decode_step states batch) as [[scalars out] updated]. simpl.
  rewrite bind_run. unfold put_input at 1. cbv iota beta.
  rewrite bind_run. unfold emit at 1. cbv iota beta. cbn [inputs fs log].
  rewrite bind_run. unfold lift at 1. cbv iota beta.
  destruct (_merge_clu_metrics (acc_metrics acc) updated) as [metrics|e]; [|done].
  rewrite bind_run.
  destruct (decide (process_index = 0)) as [Hpi|Hpi].
  - rewrite (bool_decide_eq_false_2 (process_index ≠ 0)) by (intros Hne; by apply Hne).
    rewrite (bool_decide_eq_true_2 (process_index = 0)) by done. done.
  - rewrite (bool_decide_eq_true_2 (process_index ≠ 0)) by done.
    rewrite (bool_decide_eq_false_2 (process_index = 0)) by done. done.
Qed.


Ltac loop_ended :=
  split; [done|]; split; [done|];
  split; [exists []; split; [done | by rewrite app_nil_r]|];
  intros ? [= <-]; simpl; rewrite ?app_nil_r;
  split; [done|]; split; [done|];
  by destruct (bool_decide _); rewrite ?app_nil_r.

(** What the partitioned-mode loop has done when it ends, in whichever
    way: it called the executor on a prefix of the planned batches, in
    order, and touched no file; and when it ends without an exception it
    decoded all of them. *)
Lemma decode_while_spmd_effect process_index states split n src pend :
  forall acc w,
    let r := decode_while_spmd process_index states split n src pend acc w in
    let planned := planned_batches n (acc_step_num acc) pend in
    fs r.2 = fs w
    /\ (forall e, r.1 = Raise e -> e = ValueError)
    /\ (exists decoded, decoded `prefix_of` planned
                        /\ log r.2 = log w ++ (DecodeStepCall split <$> decoded))
    /\ (forall acc', r.1 = Ok acc' ->
          log r.2 = log w ++ (DecodeStepCall split <$> planned)
          /\ merge_batches (acc_metrics acc) (clu_updates states planned)
             = Ok (acc_metrics acc')
          /\ acc_processed_decodes acc'
             = acc_processed_decodes acc
               ++ (if bool_decide (process_index = 0)
                   then processed_outputs states planned else [])).
Proof.
  induction pend as [|batch rest IH]; intros acc w; cbv zeta.
  - rewrite planned_batches_nil. simpl.
    destruct (loop_continues n (acc_step_num acc)); simpl; loop_ended.
  - destruct (loop_continues n (acc_step_num acc)) eqn:Hc.
    2: { rewrite planned_batches_stop by done. simpl. rewrite Hc. simpl. loop_ended. }
    rewrite (planned_batches_cons _ _ _ _ Hc), decode_while_spmd_cons by done.
    cbv zeta. unfold clu_updates, processed_outputs. rewrite !fmap_cons. simpl.
    destruct (_merge_clu_metrics (acc_metrics acc) (decode_step states batch).2)
      as [metrics|e] eqn:Hm; simpl.
    { set (w1 := mkWorld _ _ _).
      case_bool_decide as Hpi.
      - pose proof (process_batch_output_world (decode_step states batch).1.2
                      (mkAcc (acc_step_num acc + 1)
                         (acc_decode_metrics acc ++ [(decode_step states batch).1.1])
                         metrics (acc_process_decode_metrics acc)
                         (acc_processed_metrics acc) (acc_processed_decodes acc)) w1)
          as [Hw Hraise].
        destruct (process_batch_output _ _ w1) as [[acc2|e] w2] eqn:Hp;
          simpl in Hw, Hraise; subst w2.
        + apply process_batch_output_ok in Hp as (_ & Hk & Hmet & Hdec).
          simpl in Hk, Hmet, Hdec.
          destruct (IH acc2 w1) as (Hfs & Hr & (decoded & Hpre & Hlog) & Hok).
          rewrite Hk, Hmet in *.
          split; [by rewrite Hfs|]. split; [done|]. split.
          * exists (batch :: decoded). split; [by apply prefix_cons|].
            rewrite Hlog. subst w1. simpl. by rewrite <- app_assoc.
          * intros acc' Hacc'. destruct (Hok acc' Hacc') as (Hl & Hmb & Hpd).
            split; [rewrite Hl; subst w1; simpl; by rewrite <- app_assoc|].
            split; [done|].
            rewrite Hpd, Hdec, <- app_assoc. done.
        + simpl. split; [done|]. split; [intros e' [= <-]; by apply Hraise|].
          split; [|done]. exists [batch]. split; [apply prefix_cons, prefix_nil|done].
      - set (acc1 := mkAcc _ _ _ _ _ _).
        destruct (IH acc1 w1) as (Hfs & Hr & (decoded & Hpre & Hlog) & Hok).
        subst acc1. simpl in *.
        split; [by rewrite Hfs|]. split; [done|]. split.
        * exists (batch :: decoded). split; [by apply prefix_cons|].
          rewrite Hlog. subst w1. simpl. by rewrite <- app_assoc.
        * intros acc' Hacc'. destruct (Hok acc' Hacc') as (Hl & Hmb & Hpd).
          split; [rewrite Hl; subst w1; simpl; by rewrite <- app_assoc|].
          split; [done|]. rewrite Hpd. done. }
    split; [done|]. split; [intros e' [= <-]; by eapply merge_clu_metrics_raises|].
    split; [|done]. exists [batch]. split; [apply prefix_cons, prefix_nil|done].
Qed.

(** One turn of the replicated-mode loop on a pending batch. *)
Lemma decode_while_pmap_cons process_index states split n src batch rest acc w :
  loop_continues n (acc_step_num acc) = true ->
  decode_while_pmap process_index states split n src (batch :: rest) acc w
  = let w1 := mkWorld (<[split := mkInput rest src]> (inputs w)) (fs w)
                (log w ++ [DecodeStepCall split batch]) in
    match _merge_clu_metrics (acc_metrics acc) (decode_step states batch).2 with
    | Raise e => (Raise e, w1)
    | Ok metrics =>
        let acc1 :=
          mkAcc (acc_step_num acc + 1)
            (acc_decode_metrics acc ++ [(decode_step states batch).1.1]) metrics
            (acc_process_decode_metrics acc) (acc_processed_metrics acc)
            (acc_processed_decodes acc) in
        if bool_decide (process_index = 0) then
          match process_batch_output (decode_step states batch).1.2 acc1 w1 with
          | (Ok acc2, w2) =>
              decode_while_pmap process_index states split n src rest acc2 w2
          | (Raise e, w2) => (Raise e, w2)
          end
        else decode_while_pmap process_index states split n src rest acc1 w1
    end.
Proof.
  intros Hc. simpl. rewrite Hc.
  destruct (decode_step states batch) as [[scalars out] updated]. simpl.
  rewrite bind_run. unfold put_input at 1. cbv iota beta.
  rewrite bind_run. unfold emit at 1. cbv iota beta. cbn [inputs fs log].
  rewrite bind_run. unfold lift at 1. cbv iota beta.
  destruct (_merge_clu_metrics (acc_metrics acc) updated) as [metrics|e]; [|done].
  rewrite bind_run. case_bool_decide; done.
Qed.

(** The same account of the replicated-mode loop. *)
Lemma decode_while_pmap_effect process_index states split n src pend :
  forall acc w,
    let r := decode_while_pmap process_index states split n src pend acc w in
    let planned := planned_batches n (acc_step_num acc) pend in
    fs r.2 = fs w
    /\ (forall e, r.1 = Raise e -> e = ValueError)
    /\ (exists decoded, decoded `prefix_of` planned
                        /\ log r.2 = log w ++ (DecodeStepCall split <$> decoded))
    /\ (forall acc', r.1 = Ok acc' ->
          log r.2 = log w ++ (DecodeStepCall split <$> planned)
          /\ merge_batches (acc_metrics acc) (clu_updates states planned)
             = Ok (acc_metrics acc')
          /\ acc_processed_decodes acc'
             = acc_processed_decodes acc
               ++ (if bool_decide (process_index = 0)
                   then processed_outputs states planned else [])).
Proof.
  induction pend as [|batch rest IH]; intros acc w; cbv zeta.
  - rewrite planned_batches_nil. simpl.
    destruct (loop_continues n (acc_step_num acc)); simpl; loop_ended.
  - destruct (loop_continues n (acc_step_num acc)) eqn:Hc.
    2: { rewrite planned_batches_stop by done. simpl. rewrite Hc. simpl. loop_ended. }
    rewrite (planned_batches_cons _ _ _ _ Hc), decode_while_pmap_cons by done.
    cbv zeta. unfold clu_updates, processed_outputs. rewrite !fmap_cons. simpl.
    destruct (_merge_clu_metrics (acc_metrics acc) (decode_step states batch).2)
      as [metrics|e] eqn:Hm; simpl.
    { set (w1 := mkWorld _ _ _). set (acc1 := mkAcc _ _ _ _ _ _).
      case_bool_decide as Hpi.
      - pose proof (process_batch_output_world (decode_step states batch).1.2 acc1 w1)
          as [Hw Hraise].
        destruct (process_batch_output _ _ w1) as [[acc2|e] w2] eqn:Hp;
          simpl in Hw, Hraise; subst w2.
        + apply process_batch_output_ok in Hp as (_ & Hk & Hmet & Hdec).
          subst acc1. simpl in Hk, Hmet, Hdec.
          destruct (IH acc2 w1) as (Hfs & Hr & (decoded & Hpre & Hlog) & Hok).
          rewrite Hk, Hmet in *.
          split; [by rewrite Hfs|]. split; [done|]. split.
          * exists (batch :: decoded). split; [by apply prefix_cons|].
            rewrite Hlog. subst w1. simpl. by rewrite <- app_assoc.
          * intros acc' Hacc'. destruct (Hok acc' Hacc') as (Hl & Hmb & Hpd).
            split; [rewrite Hl; subst w1; simpl; by rewrite <- app_assoc|].
            split; [done|].
            rewrite Hpd, Hdec, <- app_assoc. done.
        + simpl. split; [done|]. split; [intros e' [= <-]; by apply Hraise|].
          split; [|done]. exists [batch]. split; [apply prefix_cons, prefix_nil|done].
      - destruct (IH acc1 w1) as (Hfs & Hr & (decoded & Hpre & Hlog) & Hok).
        subst acc1. simpl in *.
        split; [by rewrite Hfs|]. split; [done|]. split.
        * exists (batch :: decoded). split; [by apply prefix_cons|].
          rewrite Hlog. subst w1. simpl. by rewrite <- app_assoc.
        * intros acc' Hacc'. destruct (Hok acc' Hacc') as (Hl & Hmb & Hpd).
          split; [rewrite Hl; subst w1; simpl; by rewrite <- app_assoc|].
          split; [done|]. rewrite Hpd. done. }
    split; [done|]. split; [intros e' [= <-]; by eapply merge_clu_metrics_raises|].
    split; [|done]. exists [batch]. split; [apply prefix_cons, prefix_nil|done].
Qed.

Lemma decode_splits_lengths body input_p : forall split acc w out w',
  decode_splits body split input_p acc w = (Ok out, w') ->
  length (decode_metrics_list out)
    = (length (decode_metrics_list acc) + length input_p)%nat
  /\ length (processed_decode_metrics_list out)
    = (length (processed_decode_metrics_list acc) + length input_p)%nat
  /\ length (seqio_metrics_list out)
    = (length (seqio_metrics_list acc) + length input_p)%nat
  /\ length (num_decode_steps out)
    = (length (num_decode_steps acc) + length input_p)%nat.
Proof.
  induction input_p as [|p more IH]; intros split acc w out w'; simpl.
  - intros [= <- <-]. lia.
  - rewrite bind_run.
    destruct (body split p w) as [[[[[dm pdm] sm] k]|e] w1]; [|done].
    intros Hout. apply IH in Hout. simpl in Hout.
    rewrite !length_app in Hout. simpl in Hout. lia.
Qed.

(** X12.  The four lists a completed decode pass returns are aligned
    with [input_p], in both modes: one entry per input each, skipped
    inputs included. *)
Theorem decode_once_results_aligned
    (process_index : Z) (job_log_dir : string) (input_p : list InputHParams)
    (states : TrainState) (w w' : World) (out : DecodeOnceOut) :
  decode_once_pmap_model process_index job_log_dir input_p states w = (Ok out, w')
  \/ decode_once_spmd_model process_index job_log_dir input_p states w = (Ok out, w') ->
  length (decode_metrics_list out) = length input_p
  /\ length (processed_decode_metrics_list out) = length input_p
  /\ length (seqio_metrics_list out) = length input_p
  /\ length (num_decode_steps out) = length input_p.
Proof.
  intros [Hout|Hout]; apply decode_splits_lengths in Hout; simpl in Hout; lia.
Qed.

(** A computation that raises only exceptions of a given kind. *)
Definition raises_only (P : Exn -> Prop) {A} (m : M A) : Prop :=
  forall w e, (m w).1 = Raise e -> P e.

Lemma raises_only_bind P {A B} (m : M A) (k : A -> M B) :
  raises_only P m -> (forall a, raises_only P (k a)) -> raises_only P (m ≫= k).
Proof.
  intros Hm Hk w e. rewrite bind_run.
  specialize (Hm w). destruct (m w) as [[a|e'] w1]; simpl in *.
  - apply Hk.
  - intros [= <-]. by apply Hm.
Qed.

Lemma raises_only_never P {A} (m : M A) :
  (forall w, exists a, (m w).1 = Ok a) -> raises_only P m.
Proof. intros Hm w e He. destruct (Hm w) as [a Ha]. congruence. Qed.

Lemma maybe_update_never_raises P process_index m_value st dir tm part states :
  raises_only P
    (maybe_update_min_tracked_metric process_index m_value st dir tm part states).
Proof.
  apply raises_only_never. intros w. exists ().
  apply maybe_update_returns.
Qed.

Lemma write_decoder_output_never_raises P dir_path file kvs :
  raises_only P (write_decoder_output dir_path file kvs).
Proof.
  apply raises_only_never. intros w. exists ().
  unfold write_decoder_output. rewrite bind_run. unfold gfile_exists.
  rewrite bind_run. simpl. destruct (bool_decide _); done.
Qed.

Definition decode_error (e : Exn) : Prop := e = ValueError \/ e = IndexError.

Lemma raises_only_get_input split : raises_only decode_error (get_input split).
Proof.
  intros w e. unfold get_input. destruct (inputs w !! split); [done|].
  intros [= <-]. by right.
Qed.

Lemma raises_only_run_seqio split filename kvs :
  raises_only decode_error (run_seqio split filename kvs).
Proof.
  unfold run_seqio. apply raises_only_bind; [apply raises_only_get_input|].
  intros inp. destruct (should_process_outputs inp); [|done].
  apply raises_only_never. intros w. by eexists.
Qed.

Lemma raises_only_decode_splits body :
  (forall split p, raises_only decode_error (body split p)) ->
  forall input_p split acc, raises_only decode_error (decode_splits body split input_p acc).
Proof.
  intros Hbody input_p. induction input_p as [|p more IH]; intros split acc; simpl.
  - done.
  - apply raises_only_bind; [apply Hbody|]. intros [[[dm pdm] sm] k]. apply IH.
Qed.

(** What a decode pass can raise: the key mismatch of the metric merge
    or a missing pipeline, never the end of an input. *)
Lemma decode_once_raises_in
    (process_index : Z) (job_log_dir : string) (input_p : list InputHParams)
    (states : TrainState) (w : World) (e : Exn) :
  (decode_once_pmap_model process_index job_log_dir input_p states w).1 = Raise e
  \/ (decode_once_spmd_model process_index job_log_dir input_p states w).1 = Raise e ->
  e ≠ StopIteration /\ (e = ValueError \/ e = IndexError).
Proof.
  assert (raises_only decode_error
            (decode_once_pmap_model process_index job_log_dir input_p states)) as Hpmap.
  { apply raises_only_decode_splits. intros split p. unfold decode_split_pmap.
    apply raises_only_bind; [done|]. intros f.
    destruct (_can_load_decode_outs _ _ _ _); [done|].
    apply raises_only_bind; [apply raises_only_get_input|]. intros inp.
    apply raises_only_bind.
    { intros w0 e0 He0. left.
      by eapply (decode_while_pmap_effect process_index states split (steps_for p)). }
    intros acc. apply raises_only_bind; [apply raises_only_run_seqio|]. intros seqio.
    apply raises_only_bind; [done|]. intros _.
    apply raises_only_bind.
    { destruct track_decoder_metric as [tm|]; [|done].
      destruct (truthy _); [|done].
      destruct (summarize _ !! tm) as [[v wt]|]; [|done].
      apply maybe_update_never_raises. }
    intros _. apply raises_only_bind; [|done].
    destruct (_ && _); [apply write_decoder_output_never_raises | done]. }
  assert (raises_only decode_error
            (decode_once_spmd_model process_index job_log_dir input_p states)) as Hspmd.
  { apply raises_only_decode_splits. intros split p. unfold decode_split_spmd.
    apply raises_only_bind; [done|]. intros f.
    destruct (_can_load_decode_outs _ _ _ _); [done|].
    apply raises_only_bind; [apply raises_only_get_input|]. intros inp.
    apply raises_only_bind.
    { intros w0 e0 He0. left.
      by eapply (decode_while_spmd_effect process_index states split (steps_for p)). }
    intros acc. apply raises_only_bind; [apply raises_only_run_seqio|]. intros seqio.
    apply raises_only_bind; [done|]. intros _.
    apply raises_only_bind; [|done].
    destruct (bool_decide _); [apply write_decoder_output_never_raises | done]. }
  intros [He|He]; [apply Hpmap in He | apply Hspmd in He];
    (split; [by destruct He as [-> | ->] | exact He]).
Qed.

(** A computation whose final world is related to its initial one. *)
Definition keeps (R : World -> World -> Prop) {A} (m : M A) : Prop :=
  forall w, R w (m w).2.

Lemma keeps_bind R `{!Reflexive R, !Transitive R} {A B} (m : M A) (k : A -> M B) :
  keeps R m -> (forall a, keeps R (k a)) -> keeps R (m ≫= k).
Proof.
  intros Hm Hk w. rewrite bind_run. specialize (Hm w).
  destruct (m w) as [[a|e] w1]; simpl in *; [|done].
  etrans; [exact Hm | apply Hk].
Qed.

(** *** The pipeline a decode loop leaves behind *)

(** Whether a loop with budget [n] that has counted [k] steps meets the
    end of the pending batches. *)
Definition runs_dry (n k : Z) (pend : list Batch) : bool :=
  bool_decide (n < 0) || bool_decide (k + Z.of_nat (length pend) < n).

(** The pipeline after the loop: rewound when the loop met the end of
    the input, else behind the batches it took. *)
Definition pipeline_after (n k : Z) (src pend : list Batch) : BaseInput :=
  if runs_dry n k pend then reset (mkInput pend src)
  else mkInput (drop (length (planned_batches n k pend)) pend) src.

Lemma pipeline_after_cons n k src batch rest :
  loop_continues n k = true ->
  pipeline_after n (k + 1) src rest = pipeline_after n k src (batch :: rest).
Proof.
  intros Hc. unfold pipeline_after, runs_dry.
  rewrite planned_batches_cons by done. cbn [length drop].
  replace (bool_decide (k + 1 + Z.of_nat (length rest) < n))
    with (bool_decide (k + Z.of_nat (S (length rest)) < n))
    by (apply bool_decide_ext; lia).
  done.
Qed.

Lemma pipeline_after_stop n k src pend :
  loop_continues n k = false -> pipeline_after n k src pend = mkInput pend src.
Proof.
  intros Hc. unfold pipeline_after, runs_dry.
  rewrite planned_batches_stop by done.
  unfold loop_continues in Hc. apply orb_false_iff in Hc as [Hn Hk].
  rewrite Hn. apply bool_decide_eq_false_1 in Hk.
  rewrite bool_decide_eq_false_2 by lia. done.
Qed.

Lemma pipeline_after_nil n k src :
  loop_continues n k = true -> pipeline_after n k src [] = reset (mkInput [] src).
Proof.
  intros Hc. unfold pipeline_after, runs_dry. cbn [length].
  rewrite Z.add_0_r. unfold loop_continues in Hc. by rewrite Hc.
Qed.

Lemma decode_while_spmd_pipeline process_index states split n src pend :
  forall acc w acc',
    inputs w !! split = Some (mkInput pend src) ->
    (decode_while_spmd process_index states split n src pend acc w).1 = Ok acc' ->
    inputs (decode_while_spmd process_index states split n src pend acc w).2
    = <[split := pipeline_after n (acc_step_num acc) src pend]> (inputs w).
Proof.
  induction pend as [|batch rest IH]; intros acc w acc' Hinp.
  - simpl. destruct (loop_continues n (acc_step_num acc)) eqn:Hc; simpl.
    + intros _. by rewrite pipeline_after_nil.
    + intros _. rewrite pipeline_after_stop by done.
      symmetry. by apply list_insert_id.
  - destruct (loop_continues n (acc_step_num acc)) eqn:Hc.
    2: { simpl. rewrite Hc. simpl. intros _. rewrite pipeline_after_stop by done.
         symmetry. by apply list_insert_id. }
    rewrite decode_while_spmd_cons by done. cbv zeta.
    rewrite <- (pipeline_after_cons n (acc_step_num acc) src batch rest Hc).
    set (w1 := mkWorld _ _ _).
    assert (inputs w1 !! split = Some (mkInput rest src)) as Hinp1.
    { subst w1. simpl. apply list_lookup_insert_eq. by eapply lookup_lt_Some. }
    destruct (_merge_clu_metrics _ _) as [metrics|e]; [|done].
    case_bool_decide.
    + destruct (process_batch_output _ _ w1) as [[acc2|e] w2] eqn:Hp; [|done].
      apply process_batch_output_ok in Hp as (-> & Hk & _). simpl in Hk.
      intros Hok. rewrite (IH acc2 w1 acc' Hinp1 Hok), Hk.
      subst w1. simpl. apply list_insert_insert_eq.
    + intros Hok. rewrite (IH _ w1 acc' Hinp1 Hok).
      subst w1. simpl. apply list_insert_insert_eq.
Qed.

Lemma decode_while_pmap_pipeline process_index states split n src pend :
  forall acc w acc',
    inputs w !! split = Some (mkInput pend src) ->
    (decode_while_pmap process_index states split n src pend acc w).1 = Ok acc' ->
    inputs (decode_while_pmap process_index states split n src pend acc w).2
    = <[split := pipeline_after n (acc_step_num acc) src pend]> (inputs w).
Proof.
  induction pend as [|batch rest IH]; intros acc w acc' Hinp.
  - simpl. destruct (loop_continues n (acc_step_num acc)) eqn:Hc; simpl.
    + intros _. by rewrite pipeline_after_nil.
    + intros _. rewrite pipeline_after_stop by done.
      symmetry. by apply list_insert_id.
  - destruct (loop_continues n (acc_step_num acc)) eqn:Hc.
    2: { simpl. rewrite Hc. simpl. intros _. rewrite pipeline_after_stop by done.
         symmetry. by apply list_insert_id. }
    rewrite decode_while_pmap_cons by done. cbv zeta.
    rewrite <- (pipeline_after_cons n (acc_step_num acc) src batch rest Hc).
    set (w1 := mkWorld _ _ _).
    assert (inputs w1 !! split = Some (mkInput rest src)) as Hinp1.
    { subst w1. simpl. apply list_lookup_insert_eq. by eapply lookup_lt_Some. }
    destruct (_merge_clu_metrics _ _) as [metrics|e]; [|done].
    case_bool_decide.
    + destruct (process_batch_output _ _ w1) as [[acc2|e] w2] eqn:Hp; [|done].
      apply process_batch_output_ok in Hp as (-> & Hk & _). simpl in Hk.
      intros Hok. rewrite (IH acc2 w1 acc' Hinp1 Hok), Hk.
      subst w1. simpl. apply list_insert_insert_eq.
    + intros Hok. rewrite (IH _ w1 acc' Hinp1 Hok).
      subst w1. simpl. apply list_insert_insert_eq.
Qed.

(** The pipelines are as they were. *)
Definition pipelines_kept (w w' : World) : Prop := inputs w' = inputs w.

Local Instance pipelines_kept_refl : Reflexive pipelines_kept.
Proof. intros w. done. Qed.

Local Instance pipelines_kept_trans : Transitive pipelines_kept.
Proof. intros w1 w2 w3 H1 H2. unfold pipelines_kept in *. congruence. Qed.

Lemma pipelines_kept_run_seqio split filename kvs :
  keeps pipelines_kept (run_seqio split filename kvs).
Proof.
  intros w. unfold run_seqio. rewrite bind_run. unfold get_input.
  destruct (inputs w !! split) as [inp|]; [|done].
  by destruct (should_process_outputs inp).
Qed.

Lemma pipelines_kept_maybe_update process_index m_value st dir tm part states :
  keeps pipelines_kept
    (maybe_update_min_tracked_metric process_index m_value st dir tm part states).
Proof.
  intros w. unfold maybe_update_min_tracked_metric. case_bool_decide; [|done].
  unfold mbind, M_bind, gfile_exists, gfile_makedirs, get_fs, put_fs, emit,
    tracker_update, save_checkpoint; simpl.
  destruct (bool_decide (dir ∈ _)); simpl; by destruct (PrimFloat.ltb _ _).
Qed.

Lemma pipelines_kept_write_decoder_output dir_path file kvs :
  keeps pipelines_kept (write_decoder_output dir_path file kvs).
Proof.
  intros w. unfold write_decoder_output. rewrite bind_run. unfold gfile_exists.
  rewrite bind_run. simpl. by destruct (bool_decide _).
Qed.

(** A split that is decoded and ends without an exception leaves its
    pipeline as the loop left it, and the others as they were. *)
Lemma decode_split_pipeline process_index job_log_dir states split p inp w r w' :
  _can_load_decode_outs (fs w) job_log_dir (name p) (step states) = false ->
  inputs w !! split = Some inp ->
  decode_split_pmap process_index job_log_dir states split p w = (Ok r, w')
  \/ decode_split_spmd process_index job_log_dir states split p w = (Ok r, w') ->
  inputs w'
  = <[split := pipeline_after (steps_for p) 0 (source inp) (pending inp)]> (inputs w).
Proof.
  intros Hprobe Hinp.
  assert (inputs w !! split = Some (mkInput (pending inp) (source inp))) as Hinp'
    by (by destruct inp).
  intros [Hrun|Hrun]; revert Hrun.
  - unfold decode_split_pmap.
    rewrite bind_run. unfold get_fs at 1. cbv iota beta. rewrite Hprobe.
    rewrite bind_run. unfold get_input at 1. rewrite Hinp.
    rewrite bind_run.
    pose proof (decode_while_pmap_pipeline process_index states split (steps_for p)
                  (source inp) (pending inp) (mkAcc 0 [] ∅ [] ∅ []) w) as Hloop.
    destruct (decode_while_pmap _ _ _ _ _ _ _ w) as [[acc|e] w1]; [|done].
    specialize (Hloop acc Hinp' eq_refl). simpl in Hloop. rewrite <- Hloop.
    match goal with |- ?m w1 = _ -> _ =>
      assert (keeps pipelines_kept m) as Hkept end.
    { apply keeps_bind; try apply _; [apply pipelines_kept_run_seqio|]. intros seqio.
      apply keeps_bind; try apply _; [done|]. intros _.
      apply keeps_bind; try apply _.
      { destruct track_decoder_metric as [tm|]; [|done].
        destruct (truthy _); [|done].
        destruct (summarize _ !! tm) as [[v wt]|]; [|done].
        apply pipelines_kept_maybe_update. }
      intros _. apply keeps_bind; try apply _; [|done].
      destruct (_ && _); [apply pipelines_kept_write_decoder_output | done]. }
    intros Hrun. specialize (Hkept w1). rewrite Hrun in Hkept. exact Hkept.
  - unfold decode_split_spmd.
    rewrite bind_run. unfold get_fs at 1. cbv iota beta. rewrite Hprobe.
    rewrite bind_run. unfold get_input at 1. rewrite Hinp.
    rewrite bind_run.
    pose proof (decode_while_spmd_pipeline process_index states split (steps_for p)
                  (source inp) (pending inp) (mkAcc 0 [] ∅ [] ∅ []) w) as Hloop.
    destruct (decode_while_spmd _ _ _ _ _ _ _ w) as [[acc|e] w1]; [|done].
    specialize (Hloop acc Hinp' eq_refl). simpl in Hloop. rewrite <- Hloop.
    match goal with |- ?m w1 = _ -> _ =>
      assert (keeps pipelines_kept m) as Hkept end.
    { apply keeps_bind; try apply _; [apply pipelines_kept_run_seqio|]. intros seqio.
      apply keeps_bind; try apply _; [done|]. intros _.
      apply keeps_bind; try apply _; [|done].
      destruct (bool_decide _); [apply pipelines_kept_write_decoder_output | done]. }
    intros Hrun. specialize (Hkept w1). rewrite Hrun in Hkept. exact Hkept.
Qed.

(** X13.  A decode pass never lets the end of an input out: in both
    modes a pipeline that runs dry, also below a positive budget, is
    rewound and just ends the split's loop, and a loop that stops at its
    budget leaves the pipeline behind the batches it took.  What a pass
    can raise is the key mismatch of the metric merge ([ValueError]) or
    a missing pipeline ([IndexError]). *)
Theorem decode_once_raises_only_mismatch
    (process_index : Z) (job_log_dir : string) (input_p : list InputHParams)
    (states : TrainState) (w : World) :
  (forall e,
     (decode_once_pmap_model process_index job_log_dir input_p states w).1 = Raise e
     \/ (decode_once_spmd_model process_index job_log_dir input_p states w).1 = Raise e ->
     e ≠ StopIteration /\ (e = ValueError \/ e = IndexError))
  /\ (forall split p inp r w',
        _can_load_decode_outs (fs w) job_log_dir (name p) (step states) = false ->
        inputs w !! split = Some inp ->
        decode_split_pmap process_index job_log_dir states split p w = (Ok r, w')
        \/ decode_split_spmd process_index job_log_dir states split p w = (Ok r, w') ->
        inputs w'
        = <[split := if runs_dry (steps_for p) 0 (pending inp) then reset inp
                     else mkInput
                            (drop (length (planned_batches (steps_for p) 0 (pending inp)))
                               (pending inp))
                            (source inp)]> (inputs w)).
Proof.
  split.
  - intros e. apply decode_once_raises_in.
  - intros split p inp r w' Hprobe Hinp Hrun.
    rewrite (decode_split_pipeline _ _ _ _ _ _ _ _ _ Hprobe Hinp Hrun).
    unfold pipeline_after. by destruct inp.
Qed.

(** The tracker's record and checkpoints are as they were. *)
Definition tracker_untouched (w w' : World) : Prop :=
  fs_status (fs w') = fs_status (fs w)
  /\ fs_checkpoints (fs w') = fs_checkpoints (fs w)
  /\ persistence_events (log w') = persistence_events (log w).

Local Instance tracker_untouched_refl : Reflexive tracker_untouched.
Proof. intros w. done. Qed.

Local Instance tracker_untouched_trans : Transitive tracker_untouched.
Proof.
  intros w1 w2 w3 (H1 & H2 & H3) (H4 & H5 & H6).
  repeat split; congruence.
Qed.

Lemma persistence_events_calls l split (batches : list Batch) :
  persistence_events (l ++ (DecodeStepCall split <$> batches)) = persistence_events l.
Proof.
  unfold persistence_events. rewrite List.filter_app.
  induction batches as [|b rest IH]; simpl; [by rewrite app_nil_r | exact IH].
Qed.

Lemma tracker_untouched_emit e :
  is_tracker_update e || is_save_checkpoint e = false ->
  keeps tracker_untouched (emit e).
Proof.
  intros He w. repeat split. simpl. unfold persistence_events.
  rewrite List.filter_app. simpl. rewrite He. apply app_nil_r.
Qed.

Lemma tracker_untouched_write_decoder_output dir_path file kvs :
  keeps tracker_untouched (write_decoder_output dir_path file kvs).
Proof.
  intros w. unfold write_decoder_output. rewrite bind_run. unfold gfile_exists.
  rewrite bind_run. simpl. destruct (bool_decide _); simpl.
  - repeat split. simpl. unfold persistence_events.
    rewrite List.filter_app. simpl. apply app_nil_r.
  - repeat split. simpl. unfold persistence_events.
    rewrite !List.filter_app. simpl. by rewrite !app_nil_r.
Qed.

(** X14.  In the partitioned mode the tracked metric is only logged: on
    no worker, the host with index 0 included, and whatever metric is
    configured to be tracked, does a decode pass rewrite a tracker record
    or save a best checkpoint. *)
Theorem spmd_decode_leaves_tracker_untouched
    (process_index : Z) (job_log_dir : string) (input_p : list InputHParams)
    (states : TrainState) (w : World) :
  let w' := (decode_once_spmd_model process_index job_log_dir input_p states w).2 in
  fs_status (fs w') = fs_status (fs w)
  /\ fs_checkpoints (fs w') = fs_checkpoints (fs w)
  /\ persistence_events (log w') = persistence_events (log w).
Proof.
  cbv zeta. revert w. change (keeps tracker_untouched
    (decode_once_spmd_model process_index job_log_dir input_p states)).
  unfold decode_once_spmd_model.
  generalize (mkDecodeOut [] [] [] []) 0%nat.
  induction input_p as [|p more IH]; intros acc split; simpl; [done|].
  apply keeps_bind; try apply _; [|intros [[[dm pdm] sm] k]; apply IH].
  unfold decode_split_spmd.
  apply keeps_bind; try apply _; [done|]. intros f.
  destruct (_can_load_decode_outs _ _ _ _); [done|].
  apply keeps_bind; try apply _.
  { intros w. unfold get_input. by destruct (inputs w !! split). }
  intros inp. apply keeps_bind; try apply _.
  { intros w.
    destruct (decode_while_spmd_effect process_index states split (steps_for p)
                (source inp) (pending inp) (mkAcc 0 [] ∅ [] ∅ []) w)
      as (Hfs & _ & (decoded & _ & Hlog) & _).
    repeat split; [by rewrite Hfs..|].
    rewrite Hlog. apply persistence_events_calls. }
  intros acc'. apply keeps_bind; try apply _.
  { unfold run_seqio. apply keeps_bind; try apply _.
    - intros w. unfold get_input. by destruct (inputs w !! split).
    - intros inp'. destruct (should_process_outputs inp'); [|done].
      apply keeps_bind; try apply _; [by apply tracker_untouched_emit | done]. }
  intros seqio. apply keeps_bind; try apply _; [by apply tracker_untouched_emit|].
  intros _. apply keeps_bind; try apply _; [|done].
  destruct (bool_decide _); [apply tracker_untouched_write_decoder_output | done].
Qed.

Lemma destructive_writes_calls l split (batches : list Batch) :
  List.filter is_destructive_write (l ++ (DecodeStepCall split <$> batches))
  = List.filter is_destructive_write l.
Proof.
  rewrite List.filter_app.
  induction batches as [|b rest IH]; simpl; [apply app_nil_r | exact IH].
Qed.

Lemma writes_nothing_decode_while_pmap_any process_index states split n src pend acc :
  writes_nothing (decode_while_pmap process_index states split n src pend acc).
Proof.
  intros w.
  destruct (decode_while_pmap_effect process_index states split n src pend acc w)
    as (Hfs & _ & (decoded & _ & Hlog) & _).
  split; [done|]. rewrite Hlog. apply destructive_writes_calls.
Qed.

(** X15.  With [pax_only_aggregate_summaries] set and no metric to
    track, a replicated-mode decode pass leaves the file system
    untouched on every worker, host 0 included: it creates no directory
    and writes no decoder-output file, no tracker record and no
    checkpoint.  What is left of its destructive writes are the calls of
    seqio's [process_outputs] for its inputs, each handed the plain-text
    file named after the split's decoder-output file; over inputs whose
    outputs seqio does not process the pass performs none.  (The
    summaries written through the summary writers are not counted
    here.) *)
Theorem pmap_decode_only_aggregating_keeps_files
    (process_index : Z) (job_log_dir : string) (input_p : list InputHParams)
    (states : TrainState) :
  pax_only_aggregate_summaries = true ->
  truthy track_decoder_metric = false ->
  writes_only (seqio_output_of process_index job_log_dir (step states) input_p)
    (decode_once_pmap_model process_index job_log_dir input_p states)
  /\ ((forall inp, should_process_outputs inp = false) ->
      writes_nothing (decode_once_pmap_model process_index job_log_dir input_p states)).
Proof.
  intros Hflag Htrack.
  split; [|intros Hoff; apply writes_only_nothing];
    apply writes_only_decode_splits; intros i p Hp;
    (apply decode_split_pmap_writes_only;
       [intros n src pend acc; apply writes_nothing_decode_while_pmap_any
       |by right|]).
  - left. by apply seqio_output_of_split.
  - by right.
Qed.

Lemma decode_step_calls_app l1 l2 :
  decode_step_calls (l1 ++ l2) = decode_step_calls l1 ++ decode_step_calls l2.
Proof. apply omap_app. Qed.

Lemma decode_step_calls_fmap split (batches : list Batch) :
  decode_step_calls (DecodeStepCall split <$> batches) = (fun b => (split, b)) <$> batches.
Proof.
  induction batches as [|b rest IH]; [done|].
  rewrite !fmap_cons. simpl. by rewrite IH.
Qed.

(** What [run_seqio] and the guarded write leave behind. *)
Lemma run_seqio_effect split filename kvs w :
  let r := run_seqio split filename kvs w in
  fs r.2 = fs w /\ decode_step_calls (log r.2) = decode_step_calls (log w).
Proof.
  unfold run_seqio. rewrite bind_run. unfold get_input.
  destruct (inputs w !! split) as [inp|]; [|done].
  destruct (should_process_outputs inp); [|done].
  rewrite bind_run. simpl. rewrite decode_step_calls_app. simpl.
  by rewrite app_nil_r.
Qed.

Lemma write_decoder_output_effect dir_path file kvs w :
  let r := write_decoder_output dir_path file kvs w in
  r.1 = Ok ()
  /\ fs_outputs (fs r.2) = <[file := kvs]> (fs_outputs (fs w))
  /\ dir_path ∈ fs_dirs (fs r.2)
  /\ decode_step_calls (log r.2) = decode_step_calls (log w).
Proof.
  unfold write_decoder_output. rewrite bind_run. unfold gfile_exists.
  rewrite bind_run. simpl. case_bool_decide as Hdir; simpl.
  - rewrite decode_step_calls_app. simpl. by rewrite app_nil_r.
  - rewrite !decode_step_calls_app. simpl. rewrite !app_nil_r.
    repeat split; try done. by apply elem_of_union_l, elem_of_singleton.
Qed.

(** X16.  On host 0, a partitioned-mode pass over a split that is not
    skipped and ends without an exception has called the executor on
    exactly the planned batches of the split's pipeline, in order, has
    written under the split's directory one file, named after the step
    and shard 0, that holds the processed outputs of these batches in
    that order, and reports as clu metrics the batch-by-batch merge of
    theirs. *)
Theorem spmd_host0_pass_persists_outputs
    (job_log_dir : string) (states : TrainState) (split : nat)
    (p : InputHParams) (inp : BaseInput) (w w' : World) (r : SplitResult) :
  _can_load_decode_outs (fs w) job_log_dir (name p) (step states) = false ->
  inputs w !! split = Some inp ->
  decode_split_spmd 0 job_log_dir states split p w = (Ok r, w') ->
  let planned := planned_batches (steps_for p) 0 (pending inp) in
  let dir := path_join (path_join job_log_dir "decoder_out") (name p) in
  let file := path_join dir (_get_filename 0 (step states)) in
  decode_step_calls (log w')
  = decode_step_calls (log w) ++ ((fun b => (split, b)) <$> planned)
  /\ fs_outputs (fs w') = <[file := processed_outputs states planned]> (fs_outputs (fs w))
  /\ dir ∈ fs_dirs (fs w')
  /\ exists scalars metrics,
       r.1.1.1 = Some (scalars, metrics)
       /\ merge_batches ∅ (clu_updates states planned) = Ok metrics.
Proof.
  intros Hprobe Hinp. unfold decode_split_spmd.
  rewrite bind_run. unfold get_fs at 1. cbv iota beta. rewrite Hprobe.
  rewrite bind_run. unfold get_input at 1. rewrite Hinp.
  rewrite bind_run.
  destruct (decode_while_spmd_effect 0 states split (steps_for p) (source inp)
              (pending inp) (mkAcc 0 [] ∅ [] ∅ []) w) as (Hfs & _ & _ & Hok).
  destruct (decode_while_spmd 0 states split (steps_for p) (source inp)
              (pending inp) (mkAcc 0 [] ∅ [] ∅ []) w) as [[acc|e] w1]; [|done].
  destruct (Hok acc eq_refl) as (Hlog & Hmerge & Hdec). simpl in Hfs, Hlog, Hmerge, Hdec.
  rewrite ?bool_decide_eq_true_2 in Hdec by done.
  rewrite bind_run.
  pose proof (run_seqio_effect split
                (path_join (path_join (path_join job_log_dir "decoder_out") (name p))
                   (_get_filename 0 (step states)))
                (acc_processed_decodes acc) w1) as [Hfs2 Hcalls2].
  destruct (run_seqio _ _ _ w1) as [[seqio|e] w2]; [|done]. simpl in Hfs2, Hcalls2.
  rewrite bind_run. unfold emit at 1. cbv iota beta.
  rewrite bind_run. rewrite bool_decide_eq_true_2 by done.
  match goal with |- context [write_decoder_output ?d ?f ?k ?w0] =>
    pose proof (write_decoder_output_effect d f k w0) as (Hret & Hout & Hdir & Hcalls3);
    destruct (write_decoder_output d f k w0) as [[[]|e] w3] end; [|done].
  simpl in Hret, Hout, Hdir, Hcalls3.
  intros [= <- <-]. cbv zeta.
  rewrite Hcalls3, decode_step_calls_app. simpl. rewrite app_nil_r.
  rewrite Hcalls2, Hlog, decode_step_calls_app, decode_step_calls_fmap.
  rewrite Hout, Hfs2, Hfs, Hdec.
  repeat split; try done. by eexists _, _.
Qed.

Lemma maybe_update_keeps_outputs process_index m_value st dir tm part states w :
  let r := maybe_update_min_tracked_metric process_index m_value st dir tm part
             states w in
  r.1 = Ok ()
  /\ fs_outputs (fs r.2) = fs_outputs (fs w)
  /\ fs_dirs (fs w) ⊆ fs_dirs (fs r.2)
  /\ decode_step_calls (log r.2) = decode_step_calls (log w).
Proof.
  unfold maybe_update_min_tracked_metric. case_bool_decide; [|done].
  unfold mbind, M_bind, gfile_exists, gfile_makedirs, get_fs, put_fs, emit,
    tracker_update, save_checkpoint; simpl.
  destruct (bool_decide (dir ∈ _)); simpl;
    destruct (PrimFloat.ltb _ _); simpl;
    rewrite ?decode_step_calls_app; simpl; rewrite ?app_nil_r;
    repeat split; try done; apply union_subseteq_r.
Qed.

(** X17.  The same holds in the replicated mode when
    [pax_only_aggregate_summaries] is not set: host 0 calls the executor
    on exactly the planned batches and writes their processed outputs,
    in order, to the one file of the split and step; updating the
    tracked metric on the way does not touch that file. *)
Theorem pmap_host0_pass_persists_outputs
    (job_log_dir : string) (states : TrainState) (split : nat)
    (p : InputHParams) (inp : BaseInput) (w w' : World) (r : SplitResult) :
  pax_only_aggregate_summaries = false ->
  _can_load_decode_outs (fs w) job_log_dir (name p) (step states) = false ->
  inputs w !! split = Some inp ->
  decode_split_pmap 0 job_log_dir states split p w = (Ok r, w') ->
  let planned := planned_batches (steps_for p) 0 (pending inp) in
  let dir := path_join (path_join job_log_dir "decoder_out") (name p) in
  let file := path_join dir (_get_filename 0 (step states)) in
  decode_step_calls (log w')
  = decode_step_calls (log w) ++ ((fun b => (split, b)) <$> planned)
  /\ fs_outputs (fs w') = <[file := processed_outputs states planned]> (fs_outputs (fs w))
  /\ dir ∈ fs_dirs (fs w')
  /\ exists scalars metrics,
       r.1.1.1 = Some (scalars, metrics)
       /\ merge_batches ∅ (clu_updates states planned) = Ok metrics.
Proof.
  intros Hflag Hprobe Hinp. unfold decode_split_pmap.
  rewrite bind_run. unfold get_fs at 1. cbv iota beta. rewrite Hprobe.
  rewrite bind_run. unfold get_input at 1. rewrite Hinp.
  rewrite bind_run.
  destruct (decode_while_pmap_effect 0 states split (steps_for p) (source inp)
              (pending inp) (mkAcc 0 [] ∅ [] ∅ []) w) as (Hfs & _ & _ & Hok).
  destruct (decode_while_pmap 0 states split (steps_for p) (source inp)
              (pending inp) (mkAcc 0 [] ∅ [] ∅ []) w) as [[acc|e] w1]; [|done].
  destruct (Hok acc eq_refl) as (Hlog & Hmerge & Hdec). simpl in Hfs, Hlog, Hmerge, Hdec.
  rewrite ?bool_decide_eq_true_2 in Hdec by done.
  rewrite bind_run.
  pose proof (run_seqio_effect split
                (path_join (path_join (path_join job_log_dir "decoder_out") (name p))
                   (_get_filename 0 (step states)))
                (acc_processed_decodes acc) w1) as [Hfs2 Hcalls2].
  destruct (run_seqio _ _ _ w1) as [[seqio|e] w2]; [|done]. simpl in Hfs2, Hcalls2.
  rewrite bind_run. unfold emit at 1. cbv iota beta.
  rewrite bind_run.
  set (w3 := mkWorld (inputs w2) (fs w2) (log w2 ++ [WriteSummaries split])).
  match goal with |- context [match ?m w3 with _ => _ end] =>
    assert ((m w3).1 = Ok ()
            /\ fs_outputs (fs (m w3).2) = fs_outputs (fs w3)
            /\ decode_step_calls (log (m w3).2) = decode_step_calls (log w3))
      as (Hret & Hout4 & Hcalls4);
    [|destruct (m w3) as [[[]|e] w4]; [|done]] end.
  { destruct track_decoder_metric as [tm|]; [|done].
    destruct (truthy _); [|done].
    destruct (summarize _ !! tm) as [[v wt]|]; [|done].
    match goal with |- context [maybe_update_min_tracked_metric ?a ?b ?c ?d ?e ?f ?g w3] =>
      destruct (maybe_update_keeps_outputs a b c d e f g w3) as (? & ? & _ & ?) end.
    done. }
  simpl in Hout4, Hcalls4.
  rewrite bind_run, Hflag. rewrite ?bool_decide_eq_true_2 by done. simpl.
  match goal with |- context [write_decoder_output ?d ?f ?k ?w0] =>
    pose proof (write_decoder_output_effect d f k w0) as (Hret5 & Hout & Hdir & Hcalls5);
    destruct (write_decoder_output d f k w0) as [[[]|e] w5] end; [|done].
  simpl in Hret5, Hout, Hdir, Hcalls5.
  intros [= <- <-]. cbv zeta.
  rewrite Hcalls5, Hcalls4, decode_step_calls_app. simpl. rewrite app_nil_r.
  rewrite Hcalls2, Hlog, decode_step_calls_app, decode_step_calls_fmap.
  rewrite Hout, Hout4, Hfs2, Hfs, Hdec.
  repeat split; try done. by eexists _, _.
Qed.

(** * The name of the decoder-output file *)

Fixpoint has_underscore (s : string) : bool :=
  match s with
  | EmptyString => false
  | String c s' => Ascii.eqb c "_"%char || has_underscore s'
  end.

Lemma pretty_N_go_no_underscore (x : N) : forall s,
  has_underscore s = false -> has_underscore (pretty_N_go x s) = false.
Proof.
  induction (N.lt_wf_0 x) as [x _ IH]; intros s Hs.
  assert (x = 0 \/ 0 < x)%N as [->|Hx] by lia.
  - by rewrite pretty_N_go_0.
  - rewrite pretty_N_go_step by done. apply IH.
    { by apply N.div_lt. }
    simpl. rewrite Hs, orb_false_r.
    unfold pretty_N_char. by repeat case_match.
Qed.

Lemma pretty_Z_no_underscore (z : Z) : has_underscore (pretty z) = false.
Proof.
  assert (forall n : N, has_underscore (pretty n) = false) as HN.
  { intros n. unfold pretty, pretty_N. case_decide; [done|].
    by apply pretty_N_go_no_underscore. }
  destruct z as [|p|p]; [done| apply (HN (Npos p)) |].
  unfold pretty, pretty_Z. simpl. apply (HN (Npos p)).
Qed.

Lemma append_underscore_inj (a a' b b' : string) :
  has_underscore a = false -> has_underscore a' = false ->
  a +:+ String "_"%char b = a' +:+ String "_"%char b' -> a = a' /\ b = b'.
Proof.
  revert a'. induction a as [|c a IH]; intros [|c' a'] Ha Ha'; simpl in *.
  - by intros [= ->].
  - intros [= <- _]. done.
  - intros [= -> _]. done.
  - apply orb_false_iff in Ha as [_ Ha]. apply orb_false_iff in Ha' as [_ Ha'].
    intros [= -> Heq]. destruct (IH a' Ha Ha' Heq) as [-> ->]. done.
Qed.

(** X18.  The file name of a decoder output determines the step and the
    host that wrote it: two (step, host) pairs never share a file name,
    so the outputs of different checkpoints or workers cannot overwrite
    each other within a split's directory. *)
Theorem get_filename_inj (process_index process_index' step step' : Z) :
  _get_filename process_index step = _get_filename process_index' step' ->
  step = step' /\ process_index = process_index'.
Proof.
  unfold _get_filename. intros Heq.
  apply (inj (String.append "decoder_out_")) in Heq.
  change ("_shard_" +:+ pretty process_index)
    with (String "_"%char ("shard_" +:+ pretty process_index)) in Heq.
  change ("_shard_" +:+ pretty process_index')
    with (String "_"%char ("shard_" +:+ pretty process_index')) in Heq.
  apply append_underscore_inj in Heq as [Hstep Hpi];
    [|apply pretty_Z_no_underscore..].
  apply (inj (String.append "shard_")) in Hpi.
  split; by apply (inj pretty).
Qed.

End EvalLib.

(** * A concrete run

    The collaborators instantiated: batches, outputs and array leaves are
    numbers, the executor passes a batch through, [process_decode_out]
    yields one entry per batch, the processed metric ["wer"] is 0.5, and
    [io_utils.load_outputs] reads the file host 0 wrote. *)

Definition demo_load_outputs (f : @FileSystem nat nat) (basedir pname : string)
    (step : Z) : option (list nat) :=
  fs_outputs f
    !! path_join (path_join (path_join basedir "decoder_out") pname)
         (_get_filename 0 step).

Definition demo_decode_step (_ : @TrainState nat) (b : nat)
    : nat * nat * gmap string nat :=
  (b, b, {["num_decoded" := 1%nat]}).

Definition demo_process_decode_out (out : nat)
    : nat * list nat * option (gmap string nat) :=
  (out, [out], None).

Definition demo_summarize (stored : list nat) : gmap string (float * float) :=
  match stored with
  | [] => ∅
  | _ => {["wer" := (0.5%float, 1%float)]}
  end.

Definition demo_states : @TrainState nat :=
  mkTrainState 100 (Dict [("w", Leaf 7%nat)]) [].

Definition demo_input_p : list InputHParams := [mkHParams "test" true 0].

Definition demo_world : @World nat nat nat :=
  mkWorld [new_input [1; 2]%nat] (mkFS ∅ ∅ ∅ []) [].

Definition demo_decode_once_pmap (process_index : Z) : M DecodeOnceOut :=
  decode_once_pmap_model Nat.add id demo_load_outputs demo_decode_step
    demo_process_decode_out demo_summarize (fun _ => false) (fun _ => ())
    (Some "wer") false process_index "job" demo_input_p demo_states.

Definition demo_decode_once_spmd (process_index : Z) : M DecodeOnceOut :=
  decode_once_spmd_model Nat.add demo_load_outputs demo_decode_step
    demo_process_decode_out demo_summarize (fun _ => false) (fun _ => ())
    process_index "job" demo_input_p demo_states.

(** The world host 0 leaves behind after a first decode pass. *)
Definition demo_world_after : @World nat nat nat :=
  (demo_decode_once_pmap 0 demo_world).2.

(** The first pass on host 0: two executor calls, a reported count of 3,
    the tracker's directory, record and checkpoint, and the output file. *)
Example demo_first_pass :
  (num_decode_steps <$> (demo_decode_once_pmap 0 demo_world).1) = Ok [3]
  /\ log demo_world_after
     = [DecodeStepCall 0 1%nat; DecodeStepCall 0 2%nat; WriteSummaries 0;
        MakeDirs "job/decoder_out/test/wer_min_tracker";
        TrackerUpdate "job/decoder_out/test/wer_min_tracker" 0.5 100;
        SaveCheckpoint "job/decoder_out/test/wer_min_tracker" demo_states;
        MakeDirs "job/decoder_out/test";
        WriteKeyValuePairs "job/decoder_out/test/decoder_out_100_shard_0"
          [1; 2]%nat].
Proof. vm_compute. done. Qed.

(** ** C1: the reported step count *)

(** C1.  With a budget of -1 and a pipeline of exactly five batches the
    run loop hands five batches to the executor and resets the pipeline,
    and the performed-step count it returns for the split is 6. *)
Theorem eval_loop_reports_six_steps_for_five_batches :
  run_eval_loop_over_test_splits (fun b : nat => b) (fun outs => length outs)
    [-1] [new_input [11; 12; 13; 14; 15]%nat]
  = Ok (mkEvalOut [5%nat] [6]
          [(0, 11); (0, 12); (0, 13); (0, 14); (0, 15)]%nat
          [new_input [11; 12; 13; 14; 15]%nat]).
Proof. vm_compute. reflexivity. Qed.

(** With a budget of 3 and five batches the count is the number of
    batches handed out, 3, and the pipeline is left where the pass
    stopped. *)
Example eval_loop_budget_three :
  run_eval_loop_over_test_splits (fun b : nat => b) (fun outs => length outs)
    [3] [new_input [11; 12; 13; 14; 15]%nat]
  = Ok (mkEvalOut [3%nat] [3] [(0, 11); (0, 12); (0, 13)]%nat
          [mkInput [14; 15]%nat [11; 12; 13; 14; 15]%nat]).
Proof. vm_compute. reflexivity. Qed.

(** ** C2 *)

Lemma exhaustion_witness :
  eval_split_pass 3 (new_input [11; 12]%nat) = Raise StopIteration
  /\ exists p, eval_split_pass (-1) (new_input [11; 12]%nat) = Ok p
               /\ pass_input p = reset (new_input [11; 12]%nat)
               /\ pass_batches p = pending (new_input [11; 12]%nat).
Proof.
  split.
  - apply (exhaustion_raises_iff_positive_budget_unmet 3 (new_input [11; 12]%nat)).
    simpl. lia.
  - apply (exhaustion_raises_iff_positive_budget_unmet (-1) (new_input [11; 12]%nat)).
    lia.
Defined.

(** ** C3 *)

(** After step 10 was reported, a stale listing that shows step 5 ends
    the wait, and 5 is what the loop returns. *)
Lemma await_returns_a_smaller_step :
  await_new_checkpoint (Some 10) [Some 10; Some 5] = Some (Some 5)
  /\ step_lt (Some 5) (Some 10).
Proof. split; [reflexivity | simpl; lia]. Qed.

Lemma await_first_change_witness :
  exists pre r post,
    [Some 10; Some 10; Some 20; Some 15] = pre ++ r :: post
    /\ Forall (fun p => p = Some 10) pre
    /\ r ≠ Some 10
    /\ await_new_checkpoint (Some 10) [Some 10; Some 10; Some 20; Some 15] = Some r
    /\ ((forall p, p ∈ [Some 10; Some 10; Some 20; Some 15] -> step_le (Some 10) p)
        -> step_lt (Some 10) r).
Proof.
  apply await_new_checkpoint_returns_first_change.
  exists (Some 20). split; [|discriminate].
  do 2 apply list_elem_of_further. apply list_elem_of_here.
Defined.

(** ** C4 *)

(** With no checkpoint step known, a callback that would always say stop
    is not invoked and the loop goes on to wait. *)
Lemma no_known_step_never_stops :
  decide_after_eval (fun _ _ (_ : unit) => true) 10 100 None ()
  = ([], WaitForCheckpoint).
Proof. reflexivity. Qed.

Lemma decide_after_eval_witness :
  (decide_after_eval (fun _ _ (_ : unit) => false) 10 100 (Some 95) ()).2 = Stopped.
Proof.
  apply (decide_after_eval_spec (fun _ _ (_ : unit) => false) 10 100 95 ()).
  right. reflexivity.
Defined.

(** ** C6 *)

(** A populated accumulator merged with an empty update raises. *)
Lemma merge_with_empty_update_raises :
  _merge_clu_metrics Nat.add {["loss" := 1%nat]} ∅ = Raise ValueError.
Proof. vm_compute. reflexivity. Qed.

Lemma merge_clu_metrics_witness :
  exists merged : gmap string nat,
    _merge_clu_metrics Nat.add {["loss" := 1%nat]} {["loss" := 2%nat]} = Ok merged
    /\ dom merged = dom ({["loss" := 1%nat]} : gmap string nat)
    /\ forall key m u,
         ({["loss" := 1%nat]} : gmap string nat) !! key = Some m ->
         ({["loss" := 2%nat]} : gmap string nat) !! key = Some u ->
         merged !! key = Some (m + u)%nat.
Proof.
  apply (merge_clu_metrics_spec Nat.add {["loss" := 1%nat]} {["loss" := 2%nat]}).
  - apply (bool_decide_unpack _). vm_compute. exact I.
  - apply (bool_decide_unpack _). vm_compute. exact I.
Defined.

(** ** C10 *)

Definition demo_ema_state : @TrainState nat :=
  mkTrainState 7 (Dict [("w", Leaf 0%nat)])
    [OptTuple [Dict [("count", Leaf 3%nat)];
               Dict [("ema", Dict [("w", Leaf 42%nat)])]]].

(** A vectorized state of two stages: each parameter is held by one
    stage and masked in the other. *)
Definition demo_vectorized_state : @TrainState nat :=
  mkTrainState 7 (Leaf 0%nat)
    [OptDict
       [("no_prefix", Tuple [Dict [("ema", Dict [("a", Leaf 1%nat); ("b", MaskedNode)])]]);
        ("p#2", Tuple [Dict [("ema", Dict [("a", MaskedNode); ("b", Leaf 2%nat)])]])]].

Lemma extract_ema_witness :
  extract_ema (mkTrainState 7 (Leaf 0%nat) [OptTuple []; OptTuple []])
  = Raise ValueError
  /\ extract_ema (mkTrainState 7 (Leaf 0%nat) [OptTuple [Dict [("count", Leaf 3%nat)]]])
     = Raise ValueError
  /\ extract_ema demo_ema_state
     = Ok (mkTrainState 7 (Dict [("w", Leaf 42%nat)]) [])
  /\ extract_ema demo_vectorized_state
     = Ok (mkTrainState 7 (Dict [("a", Leaf 1%nat); ("b", Leaf 2%nat)]) [])
  /\ is_ema_parameter_tree demo_ema_state (Dict [("w", Leaf 42%nat)])
  /\ is_ema_parameter_tree demo_vectorized_state
       (Dict [("a", Leaf 1%nat); ("b", Leaf 2%nat)]).
Proof.
  split; [|split; [|split; [|split; [|split]]]].
  - apply (proj1 (extract_ema_spec _)). simpl. lia.
  - apply (proj1 (proj2 (extract_ema_spec _))). reflexivity.
  - apply (proj2 (proj2 (proj2 (extract_ema_spec demo_ema_state)))); reflexivity.
  - apply (proj2 (proj2 (proj2 (extract_ema_spec demo_vectorized_state))));
      reflexivity.
  - apply (proj1 (proj2 (proj1 (proj2 (proj2 (extract_ema_spec demo_ema_state)))
                           (mkTrainState 7 (Dict [("w", Leaf 42%nat)]) []) eq_refl))).
  - apply (proj1 (proj2 (proj1 (proj2 (proj2 (extract_ema_spec demo_vectorized_state)))
                           (mkTrainState 7 (Dict [("a", Leaf 1%nat); ("b", Leaf 2%nat)]) [])
                           eq_refl))).
Defined.

(** In the combined tree of the vectorized state each parameter shows
    the value of the stage that holds it. *)
Example extract_ema_vectorized :
  (mdl_vars <$> extract_ema demo_vectorized_state)
  = Ok (Dict [("a", Leaf 1%nat); ("b", Leaf 2%nat)])
  /\ look [AtKey "a"] (Dict [("a", Leaf 1%nat); ("b", Leaf 2%nat)]) = SeenLeaf 1%nat
  /\ look [AtKey "b"] (Dict [("a", Leaf 1%nat); ("b", Leaf 2%nat)]) = SeenLeaf 2%nat.
Proof. vm_compute. done. Qed.

(** ** C5 *)

Lemma decode_skip_witness :
  (demo_decode_once_pmap 0;; demo_decode_once_pmap 0) demo_world_after
  = (Ok (all_skipped 1), demo_world_after)
  /\ (demo_decode_once_spmd 0;; demo_decode_once_spmd 0) demo_world_after
     = (Ok (all_skipped 1), demo_world_after).
Proof.
  assert (_can_load_decode_outs demo_load_outputs (fs demo_world_after) "job"
            "test" 100 = true) as Hprobe by (vm_compute; reflexivity).
  apply (decode_skips_when_outputs_exist Nat.add id demo_load_outputs
           demo_decode_step demo_process_decode_out demo_summarize
           (fun _ => false) (fun _ => ()) (Some "wer") false 0 "job"
           demo_states 0%nat (mkHParams "test" true 0) demo_input_p
           demo_world_after Hprobe).
  constructor; [exact Hprobe | constructor].
Defined.

(** ** C9 *)





(** ** C7 *)

Lemma tracked_metric_witness :
  let final := (feed_tracked_values (Batch := nat) (KV := nat) id 3
                  "wer_min_tracker" "wer" "test" demo_states 1
                  [5.0; 7.0; 3.0; 3.0; float_2_9]%float empty_world).2 in
  List.filter is_tracker_update (log final)
  = [TrackerUpdate "wer_min_tracker" 5.0 1;
     TrackerUpdate "wer_min_tracker" 3.0 3;
     TrackerUpdate "wer_min_tracker" float_2_9 5]
  /\ length (List.filter is_save_checkpoint (log final)) = 3%nat
  /\ tracker_metric_value (fs final) "wer_min_tracker" float_info_max = float_2_9.
Proof.
  assert (0 < 3)%nat as Hpc by lia.
  apply (tracked_metric_updates_on_strict_improvement (Batch := nat) (KV := nat)
           id 3 5.0%float 1 "wer_min_tracker" "wer" "test" demo_states
           empty_world Hpc).
Defined.

(** ** C8 *)

Definition demo_restored : @TrainState nat :=
  mkTrainState 100 (Dict [("w", Leaf 7%nat)])
    [OptTuple [Dict [("count", Leaf 3%nat)]; Dict [("m", Dict [("w", Leaf 1%nat)])]]].

(** C8.  A separate pmap decode job that tracks the metric ["wer"]
    without EMA: the states it decodes with are the replicated
    checkpoint, from [get_model_states] and from the restore inside the
    loop alike, and the decode pass of host 0, whose tracked value 0.5
    improves on the tracker's initial value, saves as best checkpoint the
    restored checkpoint with its optimizer state, against the warning in
    [maybe_update_min_tracked_metric] that a checkpoint written by a
    separate decoding job will not contain optimizer state. *)
Theorem separate_decode_job_saves_optimizer_state :
  exists states,
    get_model_states S (fun _ => demo_states) (Some demo_restored) false true = Ok states
    /\ restore_for_next_decode S demo_restored false true = Ok states
    /\ fs_checkpoints
         (fs (decode_once_pmap_model Nat.add Nat.pred demo_load_outputs
                demo_decode_step demo_process_decode_out demo_summarize
                (fun _ => false) (fun _ => ()) (Some "wer") false 0 "job"
                demo_input_p states demo_world).2)
       = [("job/decoder_out/test/wer_min_tracker", demo_restored)]
    /\ opt_states demo_restored
       = [OptTuple [Dict [("count", Leaf 3%nat)]; Dict [("m", Dict [("w", Leaf 1%nat)])]]].
Proof.
  eexists. split; [reflexivity|]. split; [reflexivity|]. vm_compute. done.
Qed.

(** With EMA the snapshot handed to the tracker has no optimizer state. *)
Lemma tracker_saves_snapshot_witness :
  exists r,
    get_model_states id (fun _ => demo_states) (Some demo_ema_state) true true = Ok r
    /\ opt_states r = [].
Proof.
  eexists. split; [reflexivity|].
  apply (tracker_saves_snapshot_as_given (Batch := nat) (KV := nat) id id
           (fun _ => demo_states) 0 0.5%float 100 "tracker" "wer" "test"
           demo_states empty_world demo_ema_state true true).
  reflexivity.
Defined.

(** * The evaluation orchestrators: [evaluate_pmap_model] and
      [evaluate_spmd_model] (lines 463-579, 761-898)

    The two functions run the same loop: evaluate all splits on the
    current states, decide whether to stop, wait for the latest
    checkpoint step to change, restore at the new step.  They differ in
    what they do to a restored state. *)

Section Orchestrator.

Context {Arr Batch StepOut Report EvalMetrics : Type}.

(** The eval step closed over the states ([eval_step_fn]), the reduction
    of the collected results, [tuning_lib.EvalMetrics] built from a run,
    (its timing included), the early-stopping callback, the checkpoint
    store read at a step ([None] when it has nothing to restore), the
    pipeline built from its parameters, the fresh state of
    [trainer_lib.initialize_model_state] and
    [trainer_lib.check_unique_names]. *)
Variable eval_step_of : @TrainState Arr -> Batch -> StepOut.
Variable as_float_dict : list StepOut -> Report.
Variable eval_metrics_of : @EvalLoopOut Batch Report -> EvalMetrics.
Variable should_early_stop : Z -> bool -> EvalMetrics -> bool.
Variable restore_checkpoint : option Z -> option (@TrainState Arr).
Variable replicate_leaf : Arr -> Arr.
Variable instantiate : InputHParams -> BaseInput (Batch := Batch).
Variable initialize_model_state : bool -> @TrainState Arr.
Variable check_unique_names : list InputHParams -> result unit.

(** [task_p.train.save_interval_steps], [task_p.train.num_train_steps]
    and [has_ema(task_p)]. *)
Variable save_interval_steps num_train_steps : Z.
Variable use_ema : bool.

(** The inner wait loop, returning with the new step the polls that are
    left for later. *)
Fixpoint await_rest (last_checkpoint_step new_checkpoint_step : option Z)
    (polls : list (option Z)) : option (option Z * list (option Z)) :=
  if bool_decide (new_checkpoint_step = last_checkpoint_step) then
    match polls with
    | [] => None
    | p :: rest => await_rest last_checkpoint_step p rest
    end
  else Some (new_checkpoint_step, polls).

(** Lines 561-578: what [evaluate_pmap_model] does to a restored state. *)
Definition pmap_restored (model_states : @TrainState Arr) : result (@TrainState Arr) :=
  model_states ←
    (if use_ema then extract_ema model_states
     else Ok (trim_opt_states model_states));
  Ok (replicate_model_state replicate_leaf model_states).

(** Lines 887-896: what [evaluate_spmd_model] does to it. *)
Definition spmd_restored (partitioned_train_state : @TrainState Arr)
    : result (@TrainState Arr) :=
  if use_ema then extract_ema partitioned_train_state
  else Ok partitioned_train_state.

(** How a run of the loop over a finite sequence of polls ends. *)
Inductive Outcome : Type :=
| Finished                 (* the function returned *)
| StillWaiting             (* the polls ended during the wait *)
| Failed (e : Exn)         (* an exception left the function *)
| NothingRestored          (* the store had nothing at the new step *)
| OutOfFuel.

(** One turn of the [while True] loop: the states that were evaluated,
    the value of [last_checkpoint_step], the metrics of the turn and the
    calls of the callback. *)
Record Iteration : Type := mkIteration {
  it_states : @TrainState Arr;
  it_last : option Z;
  it_metrics : EvalMetrics;
  it_calls : list (@EarlyStopCall EvalMetrics)
}.

(** The [while True] loop of both functions; [post] is the treatment of
    a restored state. *)
Fixpoint eval_loop (post : @TrainState Arr -> result (@TrainState Arr))
    (eval_num_steps : list Z) (fuel : nat)
    (states : @TrainState Arr) (last_checkpoint_step : option Z)
    (model_inputs : list (BaseInput (Batch := Batch))) (polls : list (option Z))
    : list Iteration * Outcome :=
  match fuel with
  | O => ([], OutOfFuel)
  | S fuel' =>
      match run_eval_loop_over_test_splits (eval_step_of states) as_float_dict
              eval_num_steps model_inputs with
      | Raise e => ([], Failed e)
      | Ok out =>
          let eval_metrics := eval_metrics_of out in
          let '(calls, decision) :=
            decide_after_eval should_early_stop save_interval_steps num_train_steps
              last_checkpoint_step eval_metrics in
          let it := mkIteration states last_checkpoint_step eval_metrics calls in
          match decision with
          | Stopped => ([it], Finished)
          | WaitForCheckpoint =>
              match polls with
              | [] => ([it], StillWaiting)
              | p :: rest =>
                  match await_rest last_checkpoint_step p rest with
                  | None => ([it], StillWaiting)
                  | Some (new_checkpoint_step, rest') =>
                      match restore_checkpoint new_checkpoint_step with
                      | None => ([it], NothingRestored)
                      | Some model_states =>
                          match post model_states with
                          | Raise e => ([it], Failed e)
                          | Ok states' =>
                              let '(its, o) :=
                                eval_loop post eval_num_steps fuel' states'
                                  new_checkpoint_step (model_inputs_after out) rest' in
                              (it :: its, o)
                          end
                      end
                  end
              end
          end
      end
  end.

Definition evaluate_pmap_loop := eval_loop pmap_restored.
Definition evaluate_spmd_loop := eval_loop spmd_restored.

(** [evaluate_pmap_model]: [checkpoint_step] and [last_checkpoint_step]
    are the two reads of the latest step made before the loop (lines 487
    and 515). *)
Definition evaluate_pmap_model (fuel : nat) (eval_input_p : list InputHParams)
    (checkpoint_step last_checkpoint_step : option Z) (polls : list (option Z))
    : list Iteration * Outcome :=
  match eval_input_p with
  | [] => ([], Finished)
  | p0 :: _ =>
      match get_next_padded (instantiate p0) with
      | Raise e => ([], Failed e)
      | Ok _ =>
          match get_model_states replicate_leaf initialize_model_state
                  (restore_checkpoint checkpoint_step) use_ema false with
          | Raise e => ([], Failed e)
          | Ok replicated_model_states =>
              match check_unique_names eval_input_p with
              | Raise e => ([], Failed e)
              | Ok _ =>
                  evaluate_pmap_loop (steps_for <$> eval_input_p) fuel
                    replicated_model_states last_checkpoint_step
                    (instantiate <$> eval_input_p) polls
              end
          end
      end
  end.

(** The successive values of the latest step, repeats dropped. *)
Fixpoint changes (last : option Z) (polls : list (option Z)) : list (option Z) :=
  match polls with
  | [] => []
  | p :: rest =>
      if bool_decide (p = last) then changes last rest else p :: changes p rest
  end.

(** Whether the loop is left after a turn. *)
Definition stops_at (it : Iteration) : bool :=
  match it_last it with
  | Some last =>
      let is_last_ckpt := bool_decide (last + save_interval_steps > num_train_steps) in
      should_early_stop last is_last_ckpt (it_metrics it) || is_last_ckpt
  | None => false
  end.

(** The calls of the callback a turn makes. *)
Definition calls_of (it : Iteration) : list (@EarlyStopCall EvalMetrics) :=
  match it_last it with
  | Some last =>
      [mkCall (it_metrics it) last
         (bool_decide (last + save_interval_steps > num_train_steps))]
  | None => []
  end.

Lemma await_rest_spec last new polls :
  match await_rest last new polls with
  | None => changes last (new :: polls) = []
  | Some (step, rest) =>
      step ≠ last
      /\ changes last (new :: polls) = step :: changes step rest
      /\ (length rest <= length polls)%nat
      /\ await_while last new polls = Some step
  end.
Proof.
  revert new. induction polls as [|q rest IH]; intros new; simpl.
  - by case_bool_decide.
  - case_bool_decide as Heq; simpl.
    + subst new. specialize (IH q). simpl in IH.
      destruct (await_rest last q rest) as [[step rest']|]; [|done].
      destruct IH as (Hne & Hch & Hlen & Haw). repeat split; try done; lia.
    + repeat split; try done; lia.
Qed.

(** The decision of a turn, read on the record of the turn. *)
Lemma decide_after_eval_turn states last metrics :
  let '(calls, decision) :=
    decide_after_eval should_early_stop save_interval_steps num_train_steps
      last metrics in
  let it := mkIteration states last metrics calls in
  it_calls it = calls_of it
  /\ (decision = Stopped <-> stops_at it = true).
Proof.
  unfold decide_after_eval, stops_at, calls_of; simpl.
  destruct last as [last|]; simpl; [|done].
  destruct (should_early_stop _ _ _); simpl; [done|].
  by destruct (bool_decide _).
Qed.

(** One unfolding of the loop, with the decision already read. *)
Lemma eval_loop_step post eval_num_steps fuel states last model_inputs polls its o :
  eval_loop post eval_num_steps (S fuel) states last model_inputs polls = (its, o) ->
  (its = [] /\ exists e, o = Failed e
     /\ run_eval_loop_over_test_splits (eval_step_of states) as_float_dict
          eval_num_steps model_inputs = Raise e)
  \/ exists out it,
       run_eval_loop_over_test_splits (eval_step_of states) as_float_dict
         eval_num_steps model_inputs = Ok out
       /\ it_states it = states /\ it_last it = last
       /\ it_metrics it = eval_metrics_of out
       /\ it_calls it = calls_of it
       /\ ((stops_at it = true /\ its = [it] /\ o = Finished)
           \/ (stops_at it = false /\ its = [it] /\ o = StillWaiting
               /\ changes last polls = [])
           \/ (stops_at it = false /\ exists new rest',
                 changes last polls = new :: changes new rest'
                 /\ new ≠ last
                 /\ (length rest' < length polls)%nat
                 /\ ((restore_checkpoint new = None
                      /\ its = [it] /\ o = NothingRestored)
                     \/ (exists ms e, restore_checkpoint new = Some ms
                           /\ post ms = Raise e /\ its = [it] /\ o = Failed e)
                     \/ (exists ms states' its',
                           restore_checkpoint new = Some ms
                           /\ post ms = Ok states'
                           /\ its = it :: its'
                           /\ eval_loop post eval_num_steps fuel states' new
                                (model_inputs_after out) rest' = (its', o))))).
Proof.
  simpl.
  destruct (run_eval_loop_over_test_splits _ _ _ _) as [out|e] eqn:Hrun.
  2: { intros [= <- <-]. left. eauto. }
  pose proof (decide_after_eval_turn states last (eval_metrics_of out)) as Hturn.
  destruct (decide_after_eval _ _ _ _ _) as [calls decision].
  simpl in Hturn. destruct Hturn as (Hcalls & Hstop).
  set (it := mkIteration states last (eval_metrics_of out) calls) in *.
  intros Hloop. right. exists out, it. repeat split; try done.
  destruct decision.
  { injection Hloop as <- <-. left. by rewrite <- Hstop. }
  assert (stops_at it = false) as Hno.
  { destruct (stops_at it); [|done]. by destruct Hstop as [_ Hs]; specialize (Hs eq_refl). }
  right. destruct polls as [|p rest].
  { injection Hloop as <- <-. by left. }
  pose proof (await_rest_spec last p rest) as Haw.
  destruct (await_rest last p rest) as [[new rest']|].
  2: { injection Hloop as <- <-. by left. }
  destruct Haw as (Hne & Hch & Hlen & _).
  right. split; [done|]. exists new, rest'. repeat split; try done.
  { simpl; lia. }
  destruct (restore_checkpoint new) as [ms|].
  2: { injection Hloop as <- <-. by left. }
  destruct (post ms) as [states'|e] eqn:Hpost.
  2: { injection Hloop as <- <-. right; left. by exists ms, e. }
  destruct (eval_loop post eval_num_steps fuel states' new _ rest') as [its' o'] eqn:Hrest.
  injection Hloop as <- <-. right; right. by exists ms, states', its'.
Qed.

(** X19.  The steps the turns of the loop report are the successive
    values of the latest checkpoint step, repeats dropped, starting with
    the step read before the loop: no value is reported twice in a row,
    none is skipped, and when the loop is left waiting every change has
    been evaluated. *)
Theorem eval_loop_reports_successive_steps post eval_num_steps fuel states last
    model_inputs polls :
  let '(its, o) :=
    eval_loop post eval_num_steps fuel states last model_inputs polls in
  (it_last <$> its) `prefix_of` (last :: changes last polls)
  /\ (o = StillWaiting -> it_last <$> its = last :: changes last polls).
Proof.
  revert states last model_inputs polls.
  induction fuel as [|fuel IH]; intros states last model_inputs polls.
  { simpl. split; [apply prefix_nil|done]. }
  destruct (eval_loop post eval_num_steps (S fuel) states last model_inputs polls)
    as [its o] eqn:Hloop.
  apply eval_loop_step in Hloop
    as [(-> & e & -> & _)|(out & it & _ & _ & Hlast & _ & _ & Hcases)].
  { split; [apply prefix_nil|done]. }
  destruct Hcases as [(_ & -> & ->)|[(_ & -> & -> & Hch)|(_ & new & rest' & Hch & _ & _ & Hnext)]].
  - simpl. rewrite Hlast. split; [|done]. by apply prefix_cons, prefix_nil.
  - simpl. rewrite Hlast, Hch. done.
  - rewrite Hch.
    destruct Hnext as [(_ & -> & ->)|[(ms & e & _ & _ & -> & ->)|(ms & states' & its' & _ & _ & -> & Hrest)]].
    + simpl. rewrite Hlast. split; [|done]. by apply prefix_cons, prefix_nil.
    + simpl. rewrite Hlast. split; [|done]. by apply prefix_cons, prefix_nil.
    + specialize (IH states' new (model_inputs_after out) rest').
      rewrite Hrest in IH. destruct IH as [IH1 IH2].
      rewrite fmap_cons, Hlast. split.
      * by apply prefix_cons.
      * intros Ho. by rewrite IH2.
Qed.

(** X20.  The loop needs no more turns than there are polls plus one:
    with that much fuel it does not run out, and more fuel changes
    nothing. *)
Theorem eval_loop_enough_fuel post eval_num_steps fuel fuel' states last
    model_inputs polls :
  (length polls < fuel)%nat -> (fuel <= fuel')%nat ->
  (eval_loop post eval_num_steps fuel states last model_inputs polls).2 ≠ OutOfFuel
  /\ eval_loop post eval_num_steps fuel' states last model_inputs polls
     = eval_loop post eval_num_steps fuel states last model_inputs polls.
Proof.
  revert fuel' states last model_inputs polls.
  induction fuel as [|fuel IH]; intros fuel' states last model_inputs polls Hlen Hle;
    [lia|].
  destruct fuel' as [|fuel']; [lia|].
  destruct (eval_loop post eval_num_steps (S fuel) states last model_inputs polls)
    as [its o] eqn:Hloop.
  simpl in Hloop |- *.
  destruct (run_eval_loop_over_test_splits _ _ _ _) as [out|e]; [|by simplify_eq].
  destruct (decide_after_eval _ _ _ _ _) as [calls [|]]; [by simplify_eq|].
  destruct polls as [|p rest]; [by simplify_eq|].
  pose proof (await_rest_spec last p rest) as Haw.
  destruct (await_rest last p rest) as [[new rest']|]; [|by simplify_eq].
  destruct Haw as (_ & _ & Hlen' & _).
  destruct (restore_checkpoint new) as [ms|]; [|by simplify_eq].
  destruct (post ms) as [states'|e]; [|by simplify_eq].
  simpl in Hlen.
  destruct (IH fuel' states' new (model_inputs_after out) rest') as [Hne Heq];
    [lia|lia|].
  rewrite Heq.
  destruct (eval_loop post eval_num_steps fuel states' new _ rest') as [its' o'].
  simpl in Hne. by simplify_eq.
Qed.

(** What each turn of the loop evaluates, reports and calls. *)
Lemma eval_loop_turns_of post eval_num_steps fuel states last model_inputs polls its o :
  eval_loop post eval_num_steps fuel states last model_inputs polls = (its, o) ->
  (forall it, its !! 0%nat = Some it -> it_states it = states /\ it_last it = last)
  /\ (forall i it, its !! S i = Some it ->
        exists ms, restore_checkpoint (it_last it) = Some ms
                   /\ post ms = Ok (it_states it))
  /\ Forall (fun it => it_calls it = calls_of it) its.
Proof.
  revert states last model_inputs polls its o.
  induction fuel as [|fuel IH]; intros states last model_inputs polls its o Hloop.
  { simpl in Hloop. by simplify_eq. }
  apply eval_loop_step in Hloop
    as [(-> & _)|(out & it & _ & Hst & Hlast & _ & Hcalls & Hcases)]; [done|].
  assert (its = [it] \/ exists ms states' its' new rest',
            restore_checkpoint new = Some ms /\ post ms = Ok states'
            /\ its = it :: its'
            /\ eval_loop post eval_num_steps fuel states' new
                 (model_inputs_after out) rest' = (its', o)) as [->|Hmore].
  { destruct Hcases as [(_ & -> & _)|[(_ & -> & _)|(_ & new & rest' & _ & _ & _ & Hnext)]];
      [by left..|].
    destruct Hnext as [(_ & -> & _)|[(ms & e & _ & _ & -> & _)|(ms & states' & its' & ? & ? & -> & ?)]];
      [by left..|].
    right. by exists ms, states', its', new, rest'. }
  { split; [|split].
    - by intros it' [= <-].
    - done.
    - by apply Forall_singleton. }
  destruct Hmore as (ms & states' & its' & new & rest' & Hres & Hpost & -> & Hrest).
  apply IH in Hrest as (Hfirst & Hlater & Hall).
  split; [|split].
  - by intros it' [= <-].
  - intros [|i] it' Hit; simpl in Hit.
    + destruct (Hfirst it' Hit) as [-> ->]. by exists ms.
    + by apply Hlater in Hit.
  - by apply Forall_cons.
Qed.

(** X21.  The first turn evaluates the states and reports the step the
    loop was entered with; every later turn reports a step at which the
    store held a checkpoint and evaluates what the treatment of restored
    states made of that checkpoint; and each turn calls the callback
    once with its own step and metrics when the step is known, and not
    at all when it is not. *)
Theorem eval_loop_turns post eval_num_steps fuel states last model_inputs polls its o :
  eval_loop post eval_num_steps fuel states last model_inputs polls = (its, o) ->
  (forall it, its !! 0%nat = Some it -> it_states it = states /\ it_last it = last)
  /\ (forall i it, its !! S i = Some it ->
        exists ms, restore_checkpoint (it_last it) = Some ms
                   /\ post ms = Ok (it_states it))
  /\ Forall (fun it => it_calls it = calls_of it) its.
Proof. apply eval_loop_turns_of. Qed.

(** X22.  The function returns from the loop exactly when the last turn
    it made is one at a known step at which the callback asked to stop
    or the step is the last one of the training; no earlier turn is such
    a turn. *)
Theorem eval_loop_finishes_at_first_stop post eval_num_steps fuel states last
    model_inputs polls its o :
  eval_loop post eval_num_steps fuel states last model_inputs polls = (its, o) ->
  (o = Finished <-> exists it, list.last its = Some it /\ stops_at it = true)
  /\ (forall i it, its !! i = Some it -> (S i < length its)%nat -> stops_at it = false).
Proof.
  revert states last model_inputs polls its o.
  induction fuel as [|fuel IH]; intros states last model_inputs polls its o Hloop.
  { simpl in Hloop. simplify_eq. split; [|done].
    split; [done|]. by intros (it & ? & _). }
  apply eval_loop_step in Hloop
    as [(-> & e & -> & _)|(out & it & _ & _ & _ & _ & _ & Hcases)].
  { split; [|done]. split; [done|]. by intros (it & ? & _). }
  assert (forall o', o' ≠ Finished -> stops_at it = false ->
            (o' = Finished <-> exists it', list.last [it] = Some it' /\ stops_at it' = true)
            /\ (forall i it', [it] !! i = Some it' -> (S i < length [it])%nat ->
                  stops_at it' = false)) as Hone.
  { intros o' Ho' Hno. split.
    - split; [done|]. intros (it' & [= <-] & Hs). congruence.
    - intros i it' _ Hi. simpl in Hi. lia. }
  destruct Hcases as [(Hs & -> & ->)|[(Hno & -> & -> & _)|(Hno & new & rest' & _ & _ & _ & Hnext)]].
  - split.
    + split; [|done]. intros _. by exists it.
    + intros i it' _ Hi. simpl in Hi. lia.
  - by apply Hone.
  - destruct Hnext as [(_ & -> & ->)|[(ms & e & _ & _ & -> & ->)|(ms & states' & its' & _ & _ & -> & Hrest)]];
      [by apply Hone..|].
    destruct its' as [|it1 its'].
    { destruct fuel; simpl in Hrest.
      - simplify_eq. by apply Hone.
      - apply eval_loop_step in Hrest as [(_ & e & -> & _)|(? & ? & _ & _ & _ & _ & _ & Hc)].
        + by apply Hone.
        + destruct Hc as [(_ & ? & _)|[(_ & ? & _)|(_ & ? & ? & _ & _ & _ & Hn)]];
            [done..|].
          by destruct Hn as [(_ & ? & _)|[(? & ? & _ & _ & ? & _)|(? & ? & ? & _ & _ & ? & _)]]. }
    apply IH in Hrest as [Hfin Hearlier]. split.
    + rewrite Hfin. by rewrite last_cons_cons.
    + intros [|i] it' Hit Hi; simpl in Hit.
      * by simplify_eq.
      * apply (Hearlier i it' Hit). simpl in Hi |- *. lia.
Qed.

(** X23.  In [evaluate_pmap_model] every turn after the first evaluates
    the checkpoint the store holds at the step the turn reports, without
    its optimizer state: the replicated weights of the checkpoint, or,
    with EMA, the replicated EMA weights taken from its optimizer
    state. *)
Theorem evaluate_pmap_loop_evaluates_reported_checkpoint eval_num_steps fuel states
    last model_inputs polls its o i it :
  evaluate_pmap_loop eval_num_steps fuel states last model_inputs polls = (its, o) ->
  its !! S i = Some it ->
  exists ms weights,
    restore_checkpoint (it_last it) = Some ms
    /\ (if use_ema then ema_tree ms = Ok weights else weights = mdl_vars ms)
    /\ it_states it
       = mkTrainState (step ms) (tree_map replicate_leaf weights) [].
Proof.
  intros Hloop Hit.
  apply eval_loop_turns_of in Hloop as (_ & Hlater & _).
  destruct (Hlater i it Hit) as (ms & Hres & Hpost).
  exists ms. unfold pmap_restored in Hpost.
  destruct use_ema.
  - destruct (extract_ema ms) as [r|e] eqn:Hema; [|done].
    apply extract_ema_ok in Hema as (Hstep & Htree & Hopt).
    exists (mdl_vars r). split; [done|]. split; [done|].
    simpl in Hpost. injection Hpost as <-.
    unfold replicate_model_state, state_map. by rewrite Hstep, Hopt.
  - exists (mdl_vars ms). split; [done|]. split; [done|].
    simpl in Hpost. by injection Hpost as <-.
Qed.

(** X24.  [evaluate_pmap_model] reads the latest checkpoint step twice
    before its loop.  The states of its first turn come from the first
    read, the step the first turn reports is the second read, whether or
    not the two agree; and a first turn is only made with a split to
    evaluate whose first pipeline yields a batch. *)
Theorem evaluate_pmap_model_first_turn fuel eval_input_p checkpoint_step
    last_checkpoint_step polls it its o :
  evaluate_pmap_model fuel eval_input_p checkpoint_step last_checkpoint_step polls
    = (it :: its, o) ->
  get_model_states replicate_leaf initialize_model_state
    (restore_checkpoint checkpoint_step) use_ema false = Ok (it_states it)
  /\ it_last it = last_checkpoint_step
  /\ exists p0 rest, eval_input_p = p0 :: rest /\ pending (instantiate p0) ≠ [].
Proof.
  unfold evaluate_pmap_model. destruct eval_input_p as [|p0 rest]; [done|].
  unfold get_next_padded.
  destruct (pending (instantiate p0)) as [|b bs] eqn:Hpending; [done|].
  destruct (get_model_states _ _ _ _ _) as [st|e]; [|done].
  destruct (check_unique_names _) as [[]|e]; [|done].
  intros Hloop. unfold evaluate_pmap_loop in Hloop.
  apply eval_loop_turns_of in Hloop as (Hfirst & _).
  destruct (Hfirst it eq_refl) as [-> ->].
  repeat split. exists p0, rest. by rewrite Hpending.
Qed.

(** ** The loops of [decode_pmap_model] and [decode_spmd_model]
       (lines 1132-1190, 1579-1632)

    Each turn decodes, then evaluates, on the same states.  The decoder
    works on the world of files, pipelines and events; the evaluation
    has pipelines of its own. *)

Context {KV DecodeMetrics : Type}.

(** [decode_once_fn], the closure of [partition_decode_once_pmap_model]
    or [partition_decode_once_spmd_model], and the early-stopping
    callback, which here is handed the decode metrics too. *)
Variable decode_once_fn :
  @TrainState Arr -> M (Arr := Arr) (Batch := Batch) (KV := KV) DecodeMetrics.
Variable should_early_stop_decode : Z -> bool -> EvalMetrics -> DecodeMetrics -> bool.
Variable track_metric continuous_decode : bool.

Record DecodeTurn : Type := mkDecodeTurn {
  dt_states : @TrainState Arr;
  dt_last : option Z;
  dt_decode_metrics : DecodeMetrics;
  dt_eval_metrics : EvalMetrics;
  dt_calls : list (@EarlyStopCall EvalMetrics)
}.

(** The [while True] loop; [post] is the treatment of a restored state. *)
Fixpoint decode_loop (post : @TrainState Arr -> result (@TrainState Arr))
    (eval_num_steps : list Z) (fuel : nat)
    (states : @TrainState Arr) (last_checkpoint_step : option Z)
    (eval_inputs : list (BaseInput (Batch := Batch))) (polls : list (option Z))
    (w : World (Arr := Arr) (Batch := Batch) (KV := KV))
    : list DecodeTurn * Outcome * World (Arr := Arr) (Batch := Batch) (KV := KV) :=
  match fuel with
  | O => ([], OutOfFuel, w)
  | S fuel' =>
      match decode_once_fn states w with
      | (Raise e, w') => ([], Failed e, w')
      | (Ok decode_metrics, w') =>
          match run_eval_loop_over_test_splits (eval_step_of states) as_float_dict
                  eval_num_steps eval_inputs with
          | Raise e => ([], Failed e, w')
          | Ok out =>
              let eval_metrics := eval_metrics_of out in
              if negb continuous_decode then
                ([mkDecodeTurn states last_checkpoint_step decode_metrics
                    eval_metrics []], Finished, w')
              else
                let '(calls, decision) :=
                  decide_after_eval
                    (fun step is_last_ckpt eval_metrics =>
                       should_early_stop_decode step is_last_ckpt eval_metrics
                         decode_metrics)
                    save_interval_steps num_train_steps
                    last_checkpoint_step eval_metrics in
                let turn :=
                  mkDecodeTurn states last_checkpoint_step decode_metrics
                    eval_metrics calls in
                match decision with
                | Stopped => ([turn], Finished, w')
                | WaitForCheckpoint =>
                    match polls with
                    | [] => ([turn], StillWaiting, w')
                    | p :: rest =>
                        match await_rest last_checkpoint_step p rest with
                        | None => ([turn], StillWaiting, w')
                        | Some (new_checkpoint_step, rest') =>
                            match restore_checkpoint new_checkpoint_step with
                            | None => ([turn], NothingRestored, w')
                            | Some model_states =>
                                match post model_states with
                                | Raise e => ([turn], Failed e, w')
                                | Ok states' =>
                                    let '(turns, o, w'') :=
                                      decode_loop post eval_num_steps fuel' states'
                                        new_checkpoint_step
                                        (model_inputs_after out) rest' w' in
                                    (turn :: turns, o, w'')
                                end
                            end
                        end
                    end
                end
          end
      end
  end.

(** [decode_pmap_model] restores at the step it found (lines 1174-1190). *)
Definition decode_pmap_loop :=
  decode_loop (fun model_states =>
                 restore_for_next_decode replicate_leaf model_states use_ema track_metric).

(** X25.  Without [continuous_decode] the loop makes one turn and
    returns: it decodes once, evaluates once, never calls the
    early-stopping callback, and neither looks for a new checkpoint nor
    restores one, whatever the store holds. *)
Theorem decode_once_mode_makes_one_turn post eval_num_steps fuel states last
    eval_inputs polls w :
  continuous_decode = false ->
  let '(turns, o, w') :=
    decode_loop post eval_num_steps (S fuel) states last eval_inputs polls w in
  w' = (decode_once_fn states w).2
  /\ ((turns = [] /\ exists e, o = Failed e)
      \/ (o = Finished
          /\ exists decode_metrics out,
               (decode_once_fn states w).1 = Ok decode_metrics
               /\ run_eval_loop_over_test_splits (eval_step_of states) as_float_dict
                    eval_num_steps eval_inputs = Ok out
               /\ turns = [mkDecodeTurn states last decode_metrics
                             (eval_metrics_of out) []])).
Proof.
  intros Honce. simpl.
  destruct (decode_once_fn states w) as [[decode_metrics|e] w']; simpl.
  2: { split; [done|]. left. eauto. }
  destruct (run_eval_loop_over_test_splits _ _ _ _) as [out|e]; simpl.
  2: { split; [done|]. left. eauto. }
  rewrite Honce. simpl. split; [done|]. right. split; [done|]. by exists decode_metrics, out.
Qed.

(** X26.  In the loop of [decode_pmap_model] the first turn decodes the
    states and reports the step the loop was entered with; every later
    turn decodes the checkpoint the store holds at the step the turn
    reports, and when a decoder metric is tracked and EMA is off it
    decodes with the optimizer state of that checkpoint still in the
    states. *)
Theorem decode_pmap_loop_turns eval_num_steps fuel states last eval_inputs polls w
    turns o w' :
  decode_pmap_loop eval_num_steps fuel states last eval_inputs polls w
    = (turns, o, w') ->
  (forall t, turns !! 0%nat = Some t -> dt_states t = states /\ dt_last t = last)
  /\ (forall i t, turns !! S i = Some t ->
        exists ms, restore_checkpoint (dt_last t) = Some ms
                   /\ restore_for_next_decode replicate_leaf ms use_ema track_metric
                      = Ok (dt_states t)
                   /\ (use_ema = false -> track_metric = true ->
                       dt_states t = replicate_model_state replicate_leaf ms)).
Proof.
  unfold decode_pmap_loop.
  set (post := fun model_states : @TrainState Arr => _).
  revert states last eval_inputs polls w turns o w'.
  induction fuel as [|fuel IH]; intros states last eval_inputs polls w turns o w' Hloop.
  { simpl in Hloop. by simplify_eq. }
  simpl in Hloop.
  destruct (decode_once_fn states w) as [[decode_metrics|e] w1]; [|by simplify_eq].
  destruct (run_eval_loop_over_test_splits _ _ _ _) as [out|e]; [|by simplify_eq].
  assert (forall calls,
            (forall t, [mkDecodeTurn states last decode_metrics (eval_metrics_of out) calls]
                         !! 0%nat = Some t -> dt_states t = states /\ dt_last t = last)
            /\ (forall i t,
                  [mkDecodeTurn states last decode_metrics (eval_metrics_of out) calls]
                    !! S i = Some t ->
                  exists ms, restore_checkpoint (dt_last t) = Some ms
                             /\ post ms = Ok (dt_states t)
                             /\ (use_ema = false -> track_metric = true ->
                                 dt_states t = replicate_model_state replicate_leaf ms)))
    as Hone.
  { intros calls. split; [by intros t [= <-]|done]. }
  destruct (negb continuous_decode); [simplify_eq; by apply Hone|].
  destruct (decide_after_eval _ _ _ _ _) as [calls [|]]; [simplify_eq; by apply Hone|].
  destruct polls as [|p rest]; [simplify_eq; by apply Hone|].
  destruct (await_rest last p rest) as [[new rest']|]; [|simplify_eq; by apply Hone].
  destruct (restore_checkpoint new) as [ms|] eqn:Hres; [|simplify_eq; by apply Hone].
  destruct (post ms) as [states'|e] eqn:Hpost; [|simplify_eq; by apply Hone].
  destruct (decode_loop post eval_num_steps fuel states' new _ rest' w1)
    as [[turns' o'] w''] eqn:Hrest.
  simplify_eq. apply IH in Hrest as (Hfirst & Hlater). split.
  - by intros t [= <-].
  - intros [|i] t Ht; simpl in Ht; [|by apply (Hlater i)].
    destruct (Hfirst t Ht) as [-> ->]. exists ms. repeat split; try done.
    intros Hema Htrack. unfold post, restore_for_next_decode in Hpost.
    rewrite Hema, Htrack in Hpost. simpl in Hpost. by simplify_eq.
Qed.

End Orchestrator.

(** * The entry points: [evaluate] and [decode] (lines 269-316, 901-988)

    Both choose the inputs, set the infeed fields of each input to this
    process, and hand over to the SPMD or the pmap orchestrator. *)

Section EntryPoints.

Context {MeshShape CheckpointType : Type}.

(** The fields of [BaseInput.HParams] the entry points read or write. *)
Record DatasetHParams : Type := mkDataset {
  ds_name : string;
  is_training : bool;
  num_infeed_hosts : Z;
  infeed_host_index : Z
}.

(** [jax.process_count()], [jax.process_index()],
    [checkpoints.retrieve_checkpoint_type] and
    [checkpoints.retrieve_latest_checkpoint_step]. *)
Variable process_count process_index : Z.
Variable retrieve_checkpoint_type : bool -> CheckpointType.
Variable retrieve_latest_checkpoint_step : string -> option Z.

(** The body of the [for inp in ...] loops (lines 295-298, 959-962). *)
Definition set_infeed (inp : DatasetHParams) : DatasetHParams :=
  mkDataset (ds_name inp) (is_training inp)
    (if bool_decide (num_infeed_hosts inp = 0) then process_count
     else num_infeed_hosts inp)
    process_index.

(** What [evaluate] goes on to do. *)
Inductive EvaluateCall : Type :=
| EvaluateNothing
| EvaluateSpmd (eval_input_p : list DatasetHParams) (checkpoint_type : CheckpointType)
| EvaluatePmap (eval_input_p : list DatasetHParams).

Definition evaluate (datasets : list DatasetHParams) (mesh_shape : option MeshShape)
    (maybe_use_persistence_checkpointing : bool) : EvaluateCall :=
  let eval_input_p := filter (fun v => is_training v = false) datasets in
  match eval_input_p with
  | [] => EvaluateNothing
  | _ :: _ =>
      let eval_input_p := set_infeed <$> eval_input_p in
      match mesh_shape with
      | Some _ =>
          EvaluateSpmd eval_input_p
            (retrieve_checkpoint_type maybe_use_persistence_checkpointing)
      | None => EvaluatePmap eval_input_p
      end
  end.

(** What [decode] goes on to do; the arguments are those of the call. *)
Record DecodeArgs : Type := mkDecodeArgs {
  da_input_p : list DatasetHParams;
  da_eval_input_p : list DatasetHParams;
  da_restore_checkpoint_dir : string;
  da_restore_checkpoint_step : option Z;
  da_continuous_decode : bool
}.

Inductive DecodeCall : Type :=
| DecodeNothing
| DecodeSpmd (args : DecodeArgs) (checkpoint_type : CheckpointType)
| DecodePmap (args : DecodeArgs).

Definition decode (datasets decoder_datasets : list DatasetHParams)
    (mesh_shape : option MeshShape) (job_log_dir : string)
    (maybe_use_persistence_checkpointing : bool)
    (restore_checkpoint_dir : option string) (restore_checkpoint_step : option Z)
    (continuous_decode run_eval : bool) : result DecodeCall :=
  if continuous_decode && truthy restore_checkpoint_dir then Raise ValueError
  else
    let restore_checkpoint_dir :=
      match restore_checkpoint_dir with
      | Some (String c s) => String c s
      | _ => path_join job_log_dir "checkpoints"
      end in
    let restore_checkpoint_step :=
      match restore_checkpoint_step with
      | None => retrieve_latest_checkpoint_step restore_checkpoint_dir
      | Some step => Some step
      end in
    let decoder_inputs := decoder_datasets in
    let eval_inputs := filter (fun v => is_training v = false) datasets in
    let eval_inputs := if negb run_eval then [] else eval_inputs in
    match decoder_inputs, eval_inputs with
    | [], [] => Ok DecodeNothing
    | _, _ =>
        let args :=
          mkDecodeArgs (set_infeed <$> decoder_inputs) (set_infeed <$> eval_inputs)
            restore_checkpoint_dir restore_checkpoint_step continuous_decode in
        match mesh_shape with
        | Some _ =>
            Ok (DecodeSpmd args
                  (retrieve_checkpoint_type maybe_use_persistence_checkpointing))
        | None => Ok (DecodePmap args)
        end
    end.

(** The arguments of the orchestrator call, if one is made. *)
Definition decode_args (call : DecodeCall) : option DecodeArgs :=
  match call with
  | DecodeNothing => None
  | DecodeSpmd args _ | DecodePmap args => Some args
  end.

Definition evaluate_inputs (call : EvaluateCall) : option (list DatasetHParams) :=
  match call with
  | EvaluateNothing => None
  | EvaluateSpmd eval_input_p _ | EvaluatePmap eval_input_p => Some eval_input_p
  end.

Lemma set_infeed_fields inp :
  ds_name (set_infeed inp) = ds_name inp
  /\ is_training (set_infeed inp) = is_training inp
  /\ infeed_host_index (set_infeed inp) = process_index
  /\ (num_infeed_hosts inp ≠ 0 -> num_infeed_hosts (set_infeed inp) = num_infeed_hosts inp)
  /\ (num_infeed_hosts inp = 0 -> num_infeed_hosts (set_infeed inp) = process_count).
Proof.
  unfold set_infeed; simpl. repeat split; intros; by case_bool_decide.
Qed.

(** X27.  [evaluate] hands an orchestrator exactly the datasets that
    are not for training, in their order, and only when there is one;
    each goes out with this process as its infeed host index, whatever
    index it came with, and with a host count that is the one it came
    with unless that was zero, in which case it is the process count. *)
Theorem evaluate_hands_over_eval_datasets datasets mesh_shape persistence :
  let kept := filter (fun v => is_training v = false) datasets in
  match evaluate_inputs (evaluate datasets mesh_shape persistence) with
  | None => kept = []
  | Some eval_input_p =>
      kept ≠ []
      /\ length eval_input_p = length kept
      /\ forall i inp, kept !! i = Some inp ->
           exists out, eval_input_p !! i = Some out
             /\ ds_name out = ds_name inp
             /\ is_training out = false
             /\ infeed_host_index out = process_index
             /\ num_infeed_hosts out
                = (if bool_decide (num_infeed_hosts inp = 0) then process_count
                   else num_infeed_hosts inp)
  end.
Proof.
  unfold evaluate. simpl.
  assert (Forall (fun v => is_training v = false)
            (filter (fun v => is_training v = false) datasets)) as Hall.
  { apply Forall_forall. intros v Hv. by apply list_elem_of_filter in Hv as [? _]. }
  destruct (filter (fun v => is_training v = false) datasets) as [|v kept] eqn:Hkept;
    [done|].
  assert (forall eval_input_p, eval_input_p = set_infeed <$> v :: kept ->
            v :: kept ≠ []
            /\ length eval_input_p = length (v :: kept)
            /\ forall i inp, (v :: kept) !! i = Some inp ->
                 exists out, eval_input_p !! i = Some out
                   /\ ds_name out = ds_name inp
                   /\ is_training out = false
                   /\ infeed_host_index out = process_index
                   /\ num_infeed_hosts out
                      = (if bool_decide (num_infeed_hosts inp = 0) then process_count
                         else num_infeed_hosts inp)) as Hgoal.
  { intros ? ->. split; [done|]. split; [by rewrite length_fmap|].
    intros i inp Hi. exists (set_infeed inp). rewrite list_lookup_fmap, Hi.
    split; [done|]. split; [done|]. split; [|done].
    simpl. eapply Forall_lookup_1 in Hall; [|exact Hi]. done. }
  destruct mesh_shape; exact (Hgoal _ eq_refl).
Qed.

(** X28.  [decode] raises, a [ValueError], exactly when it is asked to
    decode continuously from a given checkpoint directory.  Otherwise
    it calls an orchestrator unless there is nothing to decode or
    evaluate, so the orchestrators' assertion that the two lists are not
    both empty holds; the evaluation inputs are empty unless [run_eval];
    a step that was given is passed on, a missing one is the latest of
    the directory used; and a continuous decode always reads the job's
    own checkpoint directory. *)
Theorem decode_hands_over datasets decoder_datasets mesh_shape job_log_dir persistence
    restore_checkpoint_dir restore_checkpoint_step continuous_decode run_eval :
  match decode datasets decoder_datasets mesh_shape job_log_dir persistence
          restore_checkpoint_dir restore_checkpoint_step continuous_decode run_eval with
  | Raise e =>
      e = ValueError /\ continuous_decode = true
      /\ exists c s, restore_checkpoint_dir = Some (String c s)
  | Ok call =>
      (continuous_decode = false \/ truthy restore_checkpoint_dir = false)
      /\ match decode_args call with
         | None =>
             decoder_datasets = []
             /\ (run_eval = false
                 \/ filter (fun v => is_training v = false) datasets = [])
         | Some args =>
             da_input_p args ++ da_eval_input_p args ≠ []
             /\ da_input_p args = set_infeed <$> decoder_datasets
             /\ (run_eval = false -> da_eval_input_p args = [])
             /\ (run_eval = true ->
                 da_eval_input_p args
                 = set_infeed <$> filter (fun v => is_training v = false) datasets)
             /\ (truthy restore_checkpoint_dir = true ->
                 Some (da_restore_checkpoint_dir args) = restore_checkpoint_dir)
             /\ (truthy restore_checkpoint_dir = false ->
                 da_restore_checkpoint_dir args = path_join job_log_dir "checkpoints")
             /\ da_restore_checkpoint_step args
                = match restore_checkpoint_step with
                  | Some step => Some step
                  | None => retrieve_latest_checkpoint_step
                              (da_restore_checkpoint_dir args)
                  end
             /\ da_continuous_decode args = continuous_decode
         end
  end.
Proof.
  unfold decode.
  destruct (continuous_decode && truthy restore_checkpoint_dir) eqn:Hguard.
  { apply andb_true_iff in Hguard as [-> Hdir]. split; [done|]. split; [done|].
    destruct restore_checkpoint_dir as [[|c s]|]; try done. by exists c, s. }
  apply andb_false_iff in Hguard.
  set (kept := filter (fun v => is_training v = false) datasets).
  set (dir := match restore_checkpoint_dir with
              | Some (String c s) => String c s
              | _ => path_join job_log_dir "checkpoints"
              end).
  assert ((truthy restore_checkpoint_dir = true -> Some dir = restore_checkpoint_dir)
          /\ (truthy restore_checkpoint_dir = false ->
              dir = path_join job_log_dir "checkpoints")) as [Hgiven Hdefault].
  { unfold dir. by destruct restore_checkpoint_dir as [[|c s]|]. }
  cbv zeta.
  destruct decoder_datasets as [|d ds], run_eval; simpl.
  - destruct kept as [|v vs] eqn:Hkept; simpl; [by split; [|split; [|right]]|].
    destruct mesh_shape; simpl; repeat split; done.
  - split; [done|]. split; [done|by left].
  - destruct mesh_shape; simpl; repeat split; done.
  - destruct mesh_shape; simpl; repeat split; done.
Qed.

End EntryPoints.

(** * [infer_and_write_pmap] (lines 1984-2089) *)

Section InferAndWrite.

Context {Arr Batch Out Serialized : Type}.

(** The pmapped inference step with the resharding of its input and the
    first-replica copy of its output, the serializer of the inference
    runner, the collaborators of [get_model_states], the pipeline built
    from its parameters and [trainer_lib.check_unique_names]. *)
Variable infer_pmap_step : @TrainState Arr -> Batch -> Out.
Variable serialize_outputs : Out -> Serialized.
Variable replicate_leaf : Arr -> Arr.
Variable initialize_model_state : bool -> @TrainState Arr.
Variable instantiate : InputHParams -> BaseInput (Batch := Batch).
Variable check_unique_names : list InputHParams -> result unit.

(** What the function does to the file system. *)
Inductive InferEvent : Type :=
| InferMakeDirs (dirname : string)
| InferSaveConfig (dirname : string)
| InferSaveMetadata (dirname input_name : string)
| InferOpenWriter (fq_filename : string)
| InferWrite (fq_filename : string) (serialized_outputs : Serialized)
| InferClose (fq_filename : string).

Record InferWorld : Type := mkInferWorld {
  iw_dirs : gset string;
  iw_log : list InferEvent
}.

(** The [while] loop of lines 2065-2086: the pipeline it leaves, the
    final [step], the outputs computed and the records handed to the
    writer.  The end of the input resets the pipeline and leaves the
    loop, whatever the budget. *)
Fixpoint infer_while (process_index : Z) (states : @TrainState Arr)
    (num_steps step : Z) (src pend : list Batch)
    (outs : list Out) (written : list Serialized)
    : BaseInput (Batch := Batch) * Z * list Out * list Serialized :=
  if bool_decide (num_steps < 0) || bool_decide (step < num_steps) then
    let step := step + 1 in
    match pend with
    | [] => (reset (mkInput [] src), step, outs, written)
    | batch :: rest =>
        let outputs := infer_pmap_step states batch in
        let written :=
          if bool_decide (process_index = 0)
          then written ++ [serialize_outputs outputs] else written in
        infer_while process_index states num_steps step src rest
          (outs ++ [outputs]) written
    end
  else (mkInput pend src, step, outs, written).

(** The body of the [for input_p, input_gen, num_steps in zip(...)] loop. *)
Definition infer_split (process_index : Z) (job_log_dir : string)
    (states : @TrainState Arr) (input_p : InputHParams)
    (input_gen : BaseInput (Batch := Batch)) (w : InferWorld)
    : BaseInput (Batch := Batch) * list Out * InferWorld :=
  let num_steps := steps_for input_p in
  let dirname := path_join (path_join job_log_dir "output") (name input_p) in
  let fq_filename := path_join dirname "output" in
  let w :=
    if bool_decide (process_index = 0) then
      let w :=
        if bool_decide (dirname ∈ iw_dirs w) then w
        else mkInferWorld ({[dirname]} ∪ iw_dirs w) (iw_log w ++ [InferMakeDirs dirname]) in
      mkInferWorld (iw_dirs w)
        (iw_log w ++ [InferSaveConfig dirname;
                      InferSaveMetadata dirname (name input_p);
                      InferOpenWriter fq_filename])
    else w in
  let '(input_gen, _, outs, written) :=
    infer_while process_index states num_steps 0
      (source input_gen) (pending input_gen) [] [] in
  let w :=
    mkInferWorld (iw_dirs w) (iw_log w ++ (InferWrite fq_filename <$> written)) in
  let w :=
    if bool_decide (process_index = 0)
    then mkInferWorld (iw_dirs w) (iw_log w ++ [InferClose fq_filename]) else w in
  (input_gen, outs, w).

Fixpoint infer_inputs (process_index : Z) (job_log_dir : string)
    (states : @TrainState Arr) (inputs_p : list InputHParams)
    (inputs : list (BaseInput (Batch := Batch))) (w : InferWorld)
    : list (BaseInput (Batch := Batch) * list Out) * InferWorld :=
  match inputs_p, inputs with
  | input_p :: inputs_p, input_gen :: inputs =>
      let '(input_gen, outs, w) :=
        infer_split process_index job_log_dir states input_p input_gen w in
      let '(more, w) :=
        infer_inputs process_index job_log_dir states inputs_p inputs w in
      ((input_gen, outs) :: more, w)
  | _, _ => ([], w)
  end.

(** [restored] is what the checkpoint store returned for the directory
    and step of [task_p.infer_writer]. *)
Definition infer_and_write_pmap (process_index : Z) (job_log_dir : string)
    (inputs_p : list InputHParams) (restored : option (@TrainState Arr))
    (use_ema track_metric : bool) (w : InferWorld)
    : result (list (BaseInput (Batch := Batch) * list Out)) * InferWorld :=
  match inputs_p with
  | [] => (Ok [], w)
  | p0 :: _ =>
      match get_next_padded (instantiate p0) with
      | Raise e => (Raise e, w)
      | Ok _ =>
          match get_model_states replicate_leaf initialize_model_state restored
                  use_ema track_metric with
          | Raise e => (Raise e, w)
          | Ok replicated_model_states =>
              match check_unique_names inputs_p with
              | Raise e => (Raise e, w)
              | Ok _ =>
                  let '(r, w) :=
                    infer_inputs process_index job_log_dir replicated_model_states
                      inputs_p (instantiate <$> inputs_p) w in
                  (Ok r, w)
              end
          end
      end
  end.

(** The batches a pass with budget [num_steps] takes from [pend]. *)
Definition infer_taken (num_steps : Z) (pend : list Batch) : list Batch :=
  if bool_decide (num_steps < 0) then pend else take (Z.to_nat num_steps) pend.

(** The records host 0 hands to the writer for these batches. *)
Definition infer_records (process_index : Z) (states : @TrainState Arr)
    (batches : list Batch) : list Serialized :=
  if bool_decide (process_index = 0)
  then (fun b => serialize_outputs (infer_pmap_step states b)) <$> batches
  else [].

Lemma infer_records_cons process_index states b rest written :
  (if bool_decide (process_index = 0)
   then written ++ [serialize_outputs (infer_pmap_step states b)] else written)
  ++ infer_records process_index states rest
  = written ++ infer_records process_index states (b :: rest).
Proof.
  unfold infer_records. case_bool_decide; [|done].
  by rewrite fmap_cons, <- app_assoc.
Qed.

Lemma infer_while_unbounded process_index states num_steps step src pend outs written :
  num_steps < 0 ->
  infer_while process_index states num_steps step src pend outs written
  = (mkInput src src, step + Z.of_nat (length pend) + 1,
     outs ++ (infer_pmap_step states <$> pend),
     written ++ infer_records process_index states pend).
Proof.
  intros Hneg. revert step outs written.
  induction pend as [|b rest IH]; intros step outs written; cbn [infer_while];
    rewrite (bool_decide_eq_true_2 (num_steps < 0)) by done; cbn [orb].
  - unfold infer_records, reset. cbn [source length fmap list_fmap].
    replace (if bool_decide (process_index = 0) then [] else []) with (@nil Serialized)
      by (by case_bool_decide).
    rewrite !app_nil_r. do 3 f_equal. lia.
  - rewrite IH, infer_records_cons, fmap_cons, <- app_assoc. cbn [app length].
    do 3 f_equal. lia.
Qed.

Lemma infer_while_budget process_index states num_steps step src pend outs written :
  0 <= num_steps -> step <= num_steps ->
  let k := Z.to_nat (num_steps - step) in
  infer_while process_index states num_steps step src pend outs written
  = ((if bool_decide (length pend < k)%nat then mkInput src src
      else mkInput (drop k pend) src),
     (if bool_decide (length pend < k)%nat
      then step + Z.of_nat (length pend) + 1 else num_steps),
     outs ++ (infer_pmap_step states <$> take k pend),
     written ++ infer_records process_index states (take k pend)).
Proof.
  intros Hpos. revert step outs written.
  induction pend as [|b rest IH]; intros step outs written Hstep k; cbn [infer_while];
    rewrite (bool_decide_eq_false_2 (num_steps < 0)) by lia; cbn [orb].
  - rewrite take_nil, drop_nil. unfold infer_records, reset.
    cbn [source length fmap list_fmap].
    replace (if bool_decide (process_index = 0) then [] else []) with (@nil Serialized)
      by (by case_bool_decide).
    rewrite !app_nil_r.
    case_bool_decide as Hlt; case_bool_decide as Hk; try lia.
    + do 3 f_equal. lia.
    + do 3 f_equal. lia.
  - case_bool_decide as Hlt.
    + rewrite IH by lia.
      replace k with (S (Z.to_nat (num_steps - (step + 1)))) by lia.
      cbn [take drop length].
      rewrite infer_records_cons, fmap_cons, <- app_assoc. cbn [app].
      replace (bool_decide (S (length rest) < S (Z.to_nat (num_steps - (step + 1))))%nat)
        with (bool_decide (length rest < Z.to_nat (num_steps - (step + 1)))%nat)
        by (apply bool_decide_ext; lia).
      case_bool_decide; [|done]. do 3 f_equal. lia.
    + replace k with 0%nat by lia. cbn [take drop length fmap list_fmap].
      unfold infer_records.
      replace (if bool_decide (process_index = 0)
               then (fun b0 => serialize_outputs (infer_pmap_step states b0)) <$> []
               else []) with (@nil Serialized) by (by case_bool_decide).
      rewrite !app_nil_r. rewrite bool_decide_eq_false_2 by lia.
      do 3 f_equal. lia.
Qed.

(** Whether a pass with budget [num_steps] runs into the end of [pend]. *)
Definition infer_exhausts (num_steps : Z) (pend : list Batch) : bool :=
  bool_decide (num_steps < 0) || bool_decide (Z.of_nat (length pend) < num_steps).

Lemma infer_while_from_start process_index states num_steps src pend :
  infer_while process_index states num_steps 0 src pend [] []
  = let taken := infer_taken num_steps pend in
    ((if infer_exhausts num_steps pend then mkInput src src
      else mkInput (drop (length taken) pend) src),
     (if infer_exhausts num_steps pend then Z.of_nat (length pend) + 1 else num_steps),
     infer_pmap_step states <$> taken,
     infer_records process_index states taken).
Proof.
  unfold infer_exhausts, infer_taken. cbv zeta.
  destruct (bool_decide (num_steps < 0)) eqn:Hneg.
  - apply bool_decide_eq_true_1 in Hneg. by rewrite infer_while_unbounded.
  - apply bool_decide_eq_false_1 in Hneg.
    rewrite infer_while_budget by lia. cbn [orb app]. rewrite Z.sub_0_r, Z.add_0_l.
    replace (bool_decide (length pend < Z.to_nat num_steps)%nat)
      with (bool_decide (Z.of_nat (length pend) < num_steps))
      by (apply bool_decide_ext; lia).
    case_bool_decide as Hshort; [done|].
    by rewrite length_take_le by lia.
Qed.

(** What one input does to the pipeline and to the world. *)
Lemma infer_split_effect process_index job_log_dir states input_p input_gen w :
  let num_steps := steps_for input_p in
  let taken := infer_taken num_steps (pending input_gen) in
  let dirname := path_join (path_join job_log_dir "output") (name input_p) in
  let fq_filename := path_join dirname "output" in
  let '(input_gen', outs, w') :=
    infer_split process_index job_log_dir states input_p input_gen w in
  outs = infer_pmap_step states <$> taken
  /\ input_gen'
     = (if infer_exhausts num_steps (pending input_gen) then reset input_gen
        else mkInput (drop (length taken) (pending input_gen)) (source input_gen))
  /\ (process_index ≠ 0 -> w' = w)
  /\ (process_index = 0 ->
      iw_dirs w' = {[dirname]} ∪ iw_dirs w
      /\ iw_log w'
         = iw_log w
           ++ (if bool_decide (dirname ∈ iw_dirs w) then [] else [InferMakeDirs dirname])
           ++ [InferSaveConfig dirname; InferSaveMetadata dirname (name input_p);
               InferOpenWriter fq_filename]
           ++ (InferWrite fq_filename ∘ serialize_outputs <$> outs)
           ++ [InferClose fq_filename]).
Proof.
  unfold infer_split. cbv zeta. rewrite infer_while_from_start. cbv zeta.
  split; [done|]. split; [done|]. split.
  - intros Hhost. rewrite !bool_decide_eq_false_2 by done.
    unfold infer_records. rewrite bool_decide_eq_false_2 by done.
    destruct w; simpl. by rewrite app_nil_r.
  - intros ->. unfold infer_records.
    rewrite !(bool_decide_eq_true_2 (0 = 0)) by done.
    case_bool_decide as Hdir; cbn [iw_dirs iw_log].
    + split; [symmetry; by apply subseteq_union_1_L, singleton_subseteq_l|].
      rewrite <- !list_fmap_compose, <- !app_assoc. done.
    + split; [done|]. rewrite <- !list_fmap_compose, <- !app_assoc. done.
Qed.

(** X29.  One input of [infer_and_write_pmap]: inference runs on all the
    pending batches of the pipeline when the budget is negative, on the
    first [num_steps] of them otherwise, in order, on every host.  The
    end of the input never raises here: a pass that runs into it leaves
    the pipeline reset, any other leaves it behind the batches taken.
    Host 0 makes the output directory unless it exists, saves the
    configuration and the metadata, opens the writer, writes one record
    per output in order and closes the writer; the other hosts leave the
    world as it is. *)
Theorem infer_split_spec process_index job_log_dir states input_p input_gen w :
  let num_steps := steps_for input_p in
  let taken := infer_taken num_steps (pending input_gen) in
  let dirname := path_join (path_join job_log_dir "output") (name input_p) in
  let fq_filename := path_join dirname "output" in
  let '(input_gen', outs, w') :=
    infer_split process_index job_log_dir states input_p input_gen w in
  outs = infer_pmap_step states <$> taken
  /\ input_gen'
     = (if infer_exhausts num_steps (pending input_gen) then reset input_gen
        else mkInput (drop (length taken) (pending input_gen)) (source input_gen))
  /\ (process_index ≠ 0 -> w' = w)
  /\ (process_index = 0 ->
      iw_dirs w' = {[dirname]} ∪ iw_dirs w
      /\ iw_log w'
         = iw_log w
           ++ (if bool_decide (dirname ∈ iw_dirs w) then [] else [InferMakeDirs dirname])
           ++ [InferSaveConfig dirname; InferSaveMetadata dirname (name input_p);
               InferOpenWriter fq_filename]
           ++ (InferWrite fq_filename ∘ serialize_outputs <$> outs)
           ++ [InferClose fq_filename]).
Proof. apply infer_split_effect. Qed.

Lemma infer_inputs_other_host process_index job_log_dir states inputs_p inputs w :
  process_index ≠ 0 ->
  infer_inputs process_index job_log_dir states inputs_p inputs w
  = ((infer_inputs 0 job_log_dir states inputs_p inputs w).1, w).
Proof.
  intros Hhost. revert inputs w.
  induction inputs_p as [|input_p inputs_p IH]; intros inputs w; [done|].
  destruct inputs as [|input_gen inputs]; [done|].
  cbn [infer_inputs].
  pose proof (infer_split_effect process_index job_log_dir states input_p input_gen w) as Hp.
  pose proof (infer_split_effect 0 job_log_dir states input_p input_gen w) as H0.
  cbv zeta in Hp, H0.
  destruct (infer_split process_index _ _ _ _ _) as [[g outs] w1].
  destruct (infer_split 0 _ _ _ _ _) as [[g0 outs0] w0].
  destruct Hp as (-> & -> & Hw & _). destruct H0 as (-> & -> & _).
  rewrite (Hw Hhost), IH.
  assert (forall w2, (infer_inputs 0 job_log_dir states inputs_p inputs w2).1
                     = (infer_inputs 0 job_log_dir states inputs_p inputs w).1) as Hany.
  { clear. revert inputs w. induction inputs_p as [|input_p inputs_p IH];
      intros inputs w w2; [done|].
    destruct inputs as [|input_gen inputs]; [done|].
    cbn [infer_inputs].
    pose proof (infer_split_effect 0 job_log_dir states input_p input_gen w) as H1.
    pose proof (infer_split_effect 0 job_log_dir states input_p input_gen w2) as H2.
    cbv zeta in H1, H2.
    destruct (infer_split 0 _ _ _ _ w) as [[g1 outs1] w1'].
    destruct (infer_split 0 _ _ _ _ w2) as [[g2 outs2] w2'].
    destruct H1 as (-> & -> & _). destruct H2 as (-> & -> & _).
    specialize (IH inputs w1' w2').
    destruct (infer_inputs 0 _ _ _ _ w1') as [m1 ?].
    destruct (infer_inputs 0 _ _ _ _ w2') as [m2 ?].
    simpl in IH |- *. by rewrite IH. }
  specialize (Hany w0).
  destruct (infer_inputs 0 _ _ _ _ w0) as [m0 ?].
  destruct (infer_inputs 0 _ _ _ _ w) as [m ?].
  simpl in Hany |- *. by rewrite Hany.
Qed.

(** X30.  [infer_and_write_pmap] on a host other than host 0 computes
    what host 0 computes, outputs and pipelines alike, and leaves the
    world as it found it.  On any host it raises only before the first
    inference: [StopIteration] when the pipeline of the first input has
    no batch for the sample, or what [get_model_states] or the check of
    the names raises. *)
Theorem infer_and_write_pmap_hosts process_index job_log_dir inputs_p restored
    use_ema track_metric w :
  let run := infer_and_write_pmap process_index job_log_dir inputs_p restored
               use_ema track_metric w in
  (process_index ≠ 0 ->
   run.2 = w
   /\ run.1 = (infer_and_write_pmap 0 job_log_dir inputs_p restored
                 use_ema track_metric w).1)
  /\ (forall e, run.1 = Raise e ->
        run.2 = w
        /\ exists p0 more, inputs_p = p0 :: more
             /\ ((pending (instantiate p0) = [] /\ e = StopIteration)
                 \/ get_model_states replicate_leaf initialize_model_state restored
                      use_ema track_metric = Raise e
                 \/ check_unique_names inputs_p = Raise e)).
Proof.
  unfold infer_and_write_pmap. cbv zeta.
  destruct inputs_p as [|p0 more]; [done|].
  unfold get_next_padded.
  destruct (pending (instantiate p0)) as [|b bs] eqn:Hpending.
  { split; [done|]. intros e [= <-]. split; [done|]. exists p0, more. by split; [|left]. }
  destruct (get_model_states _ _ _ _ _) as [states|e0] eqn:Hstates.
  2: { split; [done|]. intros e [= <-]. split; [done|]. exists p0, more.
       by split; [|right; left]. }
  destruct (check_unique_names (p0 :: more)) as [[]|e0] eqn:Hnames.
  2: { split; [done|]. intros e [= <-]. split; [done|]. exists p0, more.
       by split; [|right; right]. }
  split.
  - intros Hhost. rewrite (infer_inputs_other_host process_index) by done.
    by destruct (infer_inputs 0 _ _ _ _ w) as [r0 w0].
  - intros e He. by destruct (infer_inputs process_index _ _ _ _ w).
Qed.

End InferAndWrite.

(** * Concrete runs of the further properties *)

(** ** The evaluation loop *)

Lemma eval_pass_first_batches_witness :
  let inp := new_input [11; 12; 13]%nat in
  let p := mkPass (mkInput [13]%nat [11; 12; 13]%nat) 2 [11; 12]%nat in
  eval_split_pass 2 inp = Ok p
  /\ pass_batches p = take (Z.to_nat 2) (pending inp).
Proof.
  cbv zeta.
  assert (eval_split_pass 2 (new_input [11; 12; 13]%nat)
          = Ok (mkPass (mkInput [13]%nat [11; 12; 13]%nat) 2 [11; 12]%nat)) as Hrun
    by reflexivity.
  assert (0 <= 2) as Hn by lia.
  split; [exact Hrun|].
  apply (proj1 (eval_pass_hands_out_first_batches 2 _ _ Hn Hrun)).
Defined.

Lemma eval_loop_results_aligned_witness :
  let out := mkEvalOut [3%nat] [3] [(0, 11); (0, 12); (0, 13)]%nat
               [mkInput [14; 15]%nat [11; 12; 13; 14; 15]%nat] in
  length (eval_metrics_list out) = length [3]
  /\ length (num_eval_steps out) = length [3]
  /\ length (model_inputs_after out) = length [new_input [11; 12; 13; 14; 15]%nat].
Proof.
  apply (eval_loop_results_aligned (fun b : nat => b) (fun outs => length outs)
           [3] [new_input [11; 12; 13; 14; 15]%nat]).
  vm_compute. reflexivity.
Defined.

Lemma eval_loop_unbounded_repeatable_witness :
  exists out out2,
    run_eval_loop_over_test_splits (fun b : nat => b) (fun outs => length outs)
      [-1] [mkInput [12]%nat [11; 12]%nat] = Ok out
    /\ eval_metrics_list out
       = (fun inp => length ((fun b : nat => b) <$> pending inp))
           <$> [mkInput [12]%nat [11; 12]%nat]
    /\ model_inputs_after out = reset <$> [mkInput [12]%nat [11; 12]%nat]
    /\ run_eval_loop_over_test_splits (fun b : nat => b) (fun outs => length outs)
         [-1] (model_inputs_after out) = Ok out2
    /\ eval_metrics_list out2
       = (fun inp => length ((fun b : nat => b) <$> source inp))
           <$> [mkInput [12]%nat [11; 12]%nat]
    /\ model_inputs_after out2 = model_inputs_after out.
Proof.
  apply (eval_loop_unbounded_repeatable (fun b : nat => b) (fun outs => length outs)
           [-1] [mkInput [12]%nat [11; 12]%nat]).
  - constructor; [lia | constructor].
  - reflexivity.
Defined.

(** Two splits with pipelines that cover their budgets: with one summary
    writer the run raises [IndexError] once the second split's pass is
    over, with two it completes. *)
Example eval_loop_short_of_writers :
  run_eval_loop_with_writers (fun b : nat => b) (fun outs => length outs)
    [()] [1; -1] [new_input [11; 12]%nat; new_input [21]%nat]
  = Raise IndexError
  /\ run_eval_loop_with_writers (fun b : nat => b) (fun outs => length outs)
       [(); ()] [1; -1] [new_input [11; 12]%nat; new_input [21]%nat]
     = Ok (mkEvalOut [1%nat; 1%nat] [1; 2] [(0, 11); (1, 21)]%nat
             [mkInput [12]%nat [11; 12]%nat; new_input [21]%nat]).
Proof. split; vm_compute; reflexivity. Qed.

(** ** Metrics and EMA *)

Lemma merge_clu_metrics_assoc_witness :
  exists abc : gmap string nat,
    _merge_clu_metrics Nat.add {["loss" := 1%nat]} {["loss" := 2%nat]}
      ≫= (fun ab => _merge_clu_metrics Nat.add ab {["loss" := 4%nat]}) = Ok abc
    /\ dom abc = dom ({["loss" := 1%nat]} : gmap string nat).
Proof.
  apply (merge_clu_metrics_assoc Nat.add {["loss" := 1%nat]}
           {["loss" := 2%nat]} {["loss" := 4%nat]}).
  - intros x y z. symmetry. apply Nat.add_assoc.
  - apply (bool_decide_unpack _). vm_compute. exact I.
  - apply (bool_decide_unpack _). vm_compute. exact I.
Defined.

Lemma tree_merge_keeps_unmasked_witness :
  let x := Dict [("a", Leaf 1%nat); ("b", Tuple [Leaf 2%nat])] in
  let y := Dict [("a", Leaf 5%nat); ("b", Tuple [Leaf 6%nat])] in
  has_masked x = false /\ tree_merge x y = Ok x /\ x = x.
Proof.
  cbv zeta. split; [reflexivity|]. split; [reflexivity|].
  apply (tree_merge_keeps_unmasked
           (Dict [("a", Leaf 1%nat); ("b", Tuple [Leaf 2%nat])])
           (Dict [("a", Leaf 5%nat); ("b", Tuple [Leaf 6%nat])])); reflexivity.
Defined.

(** ** The tracker *)

Lemma tracker_checkpoint_is_restored_witness :
  let w' := (maybe_update_min_tracked_metric (Batch := nat) (KV := nat) id 0
               0.5 100 "tracker" "wer" "test" demo_restored empty_world).2 in
  fs_checkpoints (fs w')
  = fs_checkpoints (fs (empty_world (Batch := nat) (KV := nat)))
    ++ [("tracker", demo_restored)].
Proof.
  assert (forall a : nat, id (id a) = a) as Hid by reflexivity.
  assert (get_model_states id (fun _ => demo_states) (Some demo_restored) false true
          = Ok demo_restored) as Hstates by reflexivity.
  assert (PrimFloat.ltb 0.5
            (tracker_metric_value (fs (empty_world (Arr := nat) (Batch := nat) (KV := nat)))
               "tracker" float_info_max) = true)
    as Hlt by reflexivity.
  apply (proj1 (tracker_checkpoint_is_restored_state (Batch := nat) (KV := nat)
                  id id (fun _ => demo_states) demo_restored demo_restored
                  0.5%float 100 "tracker" "wer" "test" empty_world
                  Hid Hstates Hlt)).
Defined.

Lemma tracker_running_minimum_witness :
  let final := (feed_tracked_values (Batch := nat) (KV := nat) id 2
                  "tracker" "wer" "test" demo_states 1
                  [5.0; 7.0; 3.0]%float empty_world).2 in
  let best := tracker_metric_value (fs (empty_world (Arr := nat) (Batch := nat) (KV := nat)))
                "tracker" float_info_max in
  tracker_metric_value (fs final) "tracker" float_info_max
  = foldl better_of best [5.0; 7.0; 3.0]%float.
Proof.
  assert (0 < 2)%nat as Hpc by lia.
  apply (proj1 (tracker_keeps_running_minimum (Batch := nat) (KV := nat) id 2
                  "tracker" "wer" "test" demo_states [5.0; 7.0; 3.0]%float 1
                  empty_world Hpc)).
Defined.

(** ** The decode passes *)

(** What the first pass of host 0 returns. *)
Definition demo_decode_out : @DecodeOnceOut nat unit :=
  match (demo_decode_once_pmap 0 demo_world).1 with
  | Ok out => out
  | Raise _ => all_skipped 0
  end.

(** A world without pipelines. *)
Definition demo_no_inputs : @World nat nat nat := mkWorld [] (mkFS ∅ ∅ ∅ []) [].

Lemma decode_once_results_aligned_witness :
  length (decode_metrics_list demo_decode_out) = length demo_input_p
  /\ length (processed_decode_metrics_list demo_decode_out) = length demo_input_p
  /\ length (seqio_metrics_list demo_decode_out) = length demo_input_p
  /\ length (num_decode_steps demo_decode_out) = length demo_input_p.
Proof.
  assert (demo_decode_once_pmap 0 demo_world = (Ok demo_decode_out, demo_world_after))
    as Hrun by (vm_compute; reflexivity).
  apply (decode_once_results_aligned Nat.add id demo_load_outputs demo_decode_step
           demo_process_decode_out demo_summarize (fun _ => false) (fun _ => ())
           (Some "wer") false 0 "job" demo_input_p demo_states demo_world
           demo_world_after demo_decode_out (or_introl Hrun)).
Defined.

Lemma decode_once_raises_witness :
  ((demo_decode_once_pmap 0 demo_no_inputs).1 = Raise IndexError
   /\ IndexError ≠ StopIteration)
  /\ inputs
       (decode_split_pmap Nat.add id demo_load_outputs demo_decode_step
          demo_process_decode_out demo_summarize (fun _ => false) (fun _ => ())
          (Some "wer") false 0 "job" demo_states 0%nat (mkHParams "test" true 0)
          demo_world).2
     = [mkInput [1; 2]%nat [1; 2]%nat]
  /\ inputs
       (decode_split_spmd Nat.add demo_load_outputs demo_decode_step
          demo_process_decode_out demo_summarize (fun _ => false) (fun _ => ())
          0 "job" demo_states 0%nat (mkHParams "test" false 1) demo_world).2
     = [mkInput [2]%nat [1; 2]%nat].
Proof.
  pose proof (decode_once_raises_only_mismatch Nat.add id demo_load_outputs
                demo_decode_step demo_process_decode_out demo_summarize
                (fun _ => false) (fun _ => ()) (Some "wer") false 0 "job"
                demo_input_p demo_states demo_no_inputs) as [Hraise _].
  pose proof (decode_once_raises_only_mismatch Nat.add id demo_load_outputs
                demo_decode_step demo_process_decode_out demo_summarize
                (fun _ => false) (fun _ => ()) (Some "wer") false 0 "job"
                demo_input_p demo_states demo_world) as [_ Hpipe].
  assert ((demo_decode_once_pmap 0 demo_no_inputs).1 = Raise IndexError) as Hrun
    by (vm_compute; reflexivity).
  split; [split; [exact Hrun | exact (proj1 (Hraise IndexError (or_introl Hrun)))]|].
  split.
  - destruct (decode_split_pmap Nat.add id demo_load_outputs demo_decode_step
                demo_process_decode_out demo_summarize (fun _ => false)
                (fun _ => ()) (Some "wer") false 0 "job" demo_states 0%nat
                (mkHParams "test" true 0) demo_world) as [[r|e] w'] eqn:Hsplit;
      [|vm_compute in Hsplit; discriminate].
    exact (Hpipe 0%nat (mkHParams "test" true 0) (new_input [1; 2]%nat) r w'
             eq_refl eq_refl (or_introl Hsplit)).
  - destruct (decode_split_spmd Nat.add demo_load_outputs demo_decode_step
                demo_process_decode_out demo_summarize (fun _ => false)
                (fun _ => ()) 0 "job" demo_states 0%nat
                (mkHParams "test" false 1) demo_world) as [[r|e] w'] eqn:Hsplit;
      [|vm_compute in Hsplit; discriminate].
    exact (Hpipe 0%nat (mkHParams "test" false 1) (new_input [1; 2]%nat) r w'
             eq_refl eq_refl (or_intror Hsplit)).
Defined.

Lemma pmap_only_aggregating_witness :
  writes_only (seqio_output_of 0 "job" (step demo_states) demo_input_p)
    (decode_once_pmap_model Nat.add id demo_load_outputs demo_decode_step
       demo_process_decode_out demo_summarize (fun _ => true) (fun _ => ())
       None true 0 "job" demo_input_p demo_states)
  /\ writes_nothing
       (decode_once_pmap_model Nat.add id demo_load_outputs demo_decode_step
          demo_process_decode_out demo_summarize (fun _ => false) (fun _ => ())
          None true 0 "job" demo_input_p demo_states).
Proof.
  split.
  - apply (pmap_decode_only_aggregating_keeps_files Nat.add id demo_load_outputs
             demo_decode_step demo_process_decode_out demo_summarize
             (fun _ => true) (fun _ => ()) None true 0 "job" demo_input_p
             demo_states); reflexivity.
  - apply (pmap_decode_only_aggregating_keeps_files Nat.add id demo_load_outputs
             demo_decode_step demo_process_decode_out demo_summarize
             (fun _ => false) (fun _ => ()) None true 0 "job" demo_input_p
             demo_states); reflexivity.
Defined.

Definition demo_split_spmd : M SplitResult :=
  decode_split_spmd Nat.add demo_load_outputs demo_decode_step
    demo_process_decode_out demo_summarize (fun _ => false) (fun _ => ())
    0 "job" demo_states 0%nat (mkHParams "test" true 0).

Definition demo_split_pmap : M SplitResult :=
  decode_split_pmap Nat.add id demo_load_outputs demo_decode_step
    demo_process_decode_out demo_summarize (fun _ => false) (fun _ => ())
    (Some "wer") false 0 "job" demo_states 0%nat (mkHParams "test" true 0).

Definition demo_split_result (run : result (@SplitResult nat unit))
    : @SplitResult nat unit :=
  match run with
  | Ok r => r
  | Raise _ => (None, None, None, 0)
  end.

Lemma spmd_host0_pass_witness :
  decode_step_calls (log (demo_split_spmd demo_world).2)
  = decode_step_calls (log demo_world)
    ++ ((fun b => (0%nat, b))
          <$> planned_batches (steps_for (mkHParams "test" true 0)) 0
                (pending (new_input [1; 2]%nat))).
Proof.
  assert (_can_load_decode_outs demo_load_outputs (fs demo_world) "job"
            (name (mkHParams "test" true 0)) (step demo_states) = false)
    as Hprobe by (vm_compute; reflexivity).
  assert (inputs demo_world !! 0%nat = Some (new_input [1; 2]%nat)) as Hinp
    by reflexivity.
  assert (demo_split_spmd demo_world
          = (Ok (demo_split_result (demo_split_spmd demo_world).1),
             (demo_split_spmd demo_world).2)) as Hrun
    by (vm_compute; reflexivity).
  apply (proj1 (spmd_host0_pass_persists_outputs Nat.add demo_load_outputs
                  demo_decode_step demo_process_decode_out demo_summarize
                  (fun _ => false) (fun _ => ()) "job" demo_states 0%nat
                  (mkHParams "test" true 0) (new_input [1; 2]%nat) demo_world
                  _ _ Hprobe Hinp Hrun)).
Defined.

Lemma pmap_host0_pass_witness :
  decode_step_calls (log (demo_split_pmap demo_world).2)
  = decode_step_calls (log demo_world)
    ++ ((fun b => (0%nat, b))
          <$> planned_batches (steps_for (mkHParams "test" true 0)) 0
                (pending (new_input [1; 2]%nat))).
Proof.
  assert (_can_load_decode_outs demo_load_outputs (fs demo_world) "job"
            (name (mkHParams "test" true 0)) (step demo_states) = false)
    as Hprobe by (vm_compute; reflexivity).
  assert (inputs demo_world !! 0%nat = Some (new_input [1; 2]%nat)) as Hinp
    by reflexivity.
  assert (demo_split_pmap demo_world
          = (Ok (demo_split_result (demo_split_pmap demo_world).1),
             (demo_split_pmap demo_world).2)) as Hrun
    by (vm_compute; reflexivity).
  apply (proj1 (pmap_host0_pass_persists_outputs Nat.add id demo_load_outputs
                  demo_decode_step demo_process_decode_out demo_summarize
                  (fun _ => false) (fun _ => ()) (Some "wer") false "job"
                  demo_states 0%nat (mkHParams "test" true 0)
                  (new_input [1; 2]%nat) demo_world _ _ eq_refl Hprobe Hinp Hrun)).
Defined.

Lemma get_filename_inj_witness :
  _get_filename 0 100 = "decoder_out_100_shard_0"
  /\ _get_filename 0 100 = _get_filename 0 100
  /\ (100 = 100 /\ 0 = 0).
Proof.
  split; [reflexivity|]. split; [reflexivity|].
  apply (get_filename_inj 0 0 100 100 eq_refl).
Defined.

(** ** The orchestrators *)

(** A store that holds a checkpoint at every step asked for by number. *)
Definition demo_restore_checkpoint (step : option Z) : option (@TrainState nat) :=
  match step with
  | Some s => Some (mkTrainState s (Leaf 1%nat) [OptTuple [Dict [("count", Leaf 3%nat)]]])
  | None => None
  end.

Definition demo_eval_loop (fuel : nat) (polls : list (option Z))
    : list (@Iteration nat unit) * Outcome :=
  evaluate_pmap_loop (Report := nat) (fun _ (b : nat) => b) (fun outs => length outs)
    (fun _ => ()) (fun _ _ _ => false) demo_restore_checkpoint id 10 100 false
    [-1] fuel demo_states (Some 10) [new_input [1; 2]%nat] polls.

Definition demo_polls : list (option Z) := [Some 10; Some 20; Some 20; Some 95].

(** Three turns, at steps 10, 20 and 95; 95 is the last step of a
    training of 100 steps saved every 10. *)
Example demo_eval_loop_run :
  (it_last <$> (demo_eval_loop 5 demo_polls).1) = [Some 10; Some 20; Some 95]
  /\ (demo_eval_loop 5 demo_polls).2 = Finished
  /\ (demo_eval_loop 2 demo_polls).2 = OutOfFuel.
Proof. vm_compute. done. Qed.

Lemma eval_loop_enough_fuel_witness :
  (demo_eval_loop 5 demo_polls).2 ≠ OutOfFuel
  /\ demo_eval_loop 7 demo_polls = demo_eval_loop 5 demo_polls.
Proof.
  assert (length demo_polls < 5)%nat as Hlen by (simpl; lia).
  assert (5 <= 7)%nat as Hle by lia.
  apply (eval_loop_enough_fuel (Report := nat) (fun _ (b : nat) => b)
           (fun outs => length outs) (fun _ => ()) (fun _ _ _ => false)
           demo_restore_checkpoint 10 100 (pmap_restored id false) [-1] 5 7
           demo_states (Some 10) [new_input [1; 2]%nat] demo_polls Hlen Hle).
Defined.

Lemma eval_loop_turns_witness :
  Forall (fun it => it_calls it = calls_of 10 100 it) (demo_eval_loop 5 demo_polls).1.
Proof.
  apply (proj2 (proj2
    (eval_loop_turns (Report := nat) (fun _ (b : nat) => b)
       (fun outs => length outs) (fun _ => ()) (fun _ _ _ => false)
       demo_restore_checkpoint 10 100 (pmap_restored id false) [-1] 5
       demo_states (Some 10) [new_input [1; 2]%nat] demo_polls
       (demo_eval_loop 5 demo_polls).1 (demo_eval_loop 5 demo_polls).2
       (surjective_pairing _)))).
Defined.

Lemma eval_loop_finishes_witness :
  (demo_eval_loop 5 demo_polls).2 = Finished
  <-> exists it, list.last (demo_eval_loop 5 demo_polls).1 = Some it
                 /\ stops_at (fun _ _ (_ : unit) => false) 10 100 it = true.
Proof.
  apply (proj1
    (eval_loop_finishes_at_first_stop (Report := nat) (fun _ (b : nat) => b)
       (fun outs => length outs) (fun _ => ()) (fun _ _ _ => false)
       demo_restore_checkpoint 10 100 (pmap_restored id false) [-1] 5
       demo_states (Some 10) [new_input [1; 2]%nat] demo_polls
       (demo_eval_loop 5 demo_polls).1 (demo_eval_loop 5 demo_polls).2
       (surjective_pairing _))).
Defined.

Lemma evaluate_pmap_loop_checkpoint_witness :
  exists it ms weights,
    (demo_eval_loop 5 demo_polls).1 !! 1%nat = Some it
    /\ demo_restore_checkpoint (it_last it) = Some ms
    /\ weights = mdl_vars ms
    /\ it_states it = mkTrainState (step ms) (tree_map id weights) [].
Proof.
  assert ((demo_eval_loop 5 demo_polls).1 !! 1%nat
          = Some (mkIteration (mkTrainState 20 (Leaf 1%nat) []) (Some 20) ()
                    [mkCall () 20 false])) as Hit by (vm_compute; reflexivity).
  destruct (evaluate_pmap_loop_evaluates_reported_checkpoint (Report := nat)
              (fun _ (b : nat) => b) (fun outs => length outs) (fun _ => ())
              (fun _ _ _ => false) demo_restore_checkpoint id 10 100 false [-1] 5
              demo_states (Some 10) [new_input [1; 2]%nat] demo_polls
              (demo_eval_loop 5 demo_polls).1 (demo_eval_loop 5 demo_polls).2
              0%nat _ (surjective_pairing _) Hit) as (ms & weights & Hres & Hw & Hst).
  eexists _, ms, weights. split; [exact Hit|]. split; [exact Hres|].
  split; [exact Hw | exact Hst].
Defined.

Definition demo_evaluate_pmap_model : list (@Iteration nat unit) * Outcome :=
  evaluate_pmap_model (Report := nat) (fun _ (b : nat) => b) (fun outs => length outs)
    (fun _ => ()) (fun _ _ _ => false) demo_restore_checkpoint id
    (fun _ => new_input [1; 2]%nat) (fun _ => demo_states) (fun _ => Ok ())
    10 1000 false 3 demo_input_p (Some 10) (Some 20) [Some 20].

(** A checkpoint written between the two reads: the first turn reports
    step 20 for the states of step 10. *)
Lemma evaluate_pmap_model_first_turn_witness :
  exists it,
    head demo_evaluate_pmap_model.1 = Some it
    /\ step (it_states it) = 10
    /\ it_last it = Some 20.
Proof.
  assert (demo_evaluate_pmap_model
          = (mkIteration (mkTrainState 10 (Leaf 1%nat) []) (Some 20) ()
               [mkCall () 20 false] :: [], StillWaiting)) as Hrun
    by (vm_compute; reflexivity).
  destruct (evaluate_pmap_model_first_turn (Report := nat) (fun _ (b : nat) => b)
              (fun outs => length outs) (fun _ => ()) (fun _ _ _ => false)
              demo_restore_checkpoint id (fun _ => new_input [1; 2]%nat)
              (fun _ => demo_states) (fun _ => Ok ()) 10 1000 false 3
              demo_input_p (Some 10) (Some 20) [Some 20] _ _ _ Hrun)
    as (Hstates & Hlast & _).
  eexists. split; [rewrite Hrun; reflexivity|]. split; [reflexivity | exact Hlast].
Defined.

(** The decode loop over the demo decoder, with a tracked metric. *)
Definition demo_decode_once_fn (states : @TrainState nat)
    : M (Arr := nat) (Batch := nat) (KV := nat) (@DecodeOnceOut nat unit) :=
  decode_once_pmap_model Nat.add id demo_load_outputs demo_decode_step
    demo_process_decode_out demo_summarize (fun _ => false) (fun _ => ())
    (Some "wer") false 0 "job" demo_input_p states.

Definition demo_decode_loop (continuous_decode : bool) (fuel : nat)
    (polls : list (option Z))
    : list (@DecodeTurn nat unit (@DecodeOnceOut nat unit)) * Outcome
      * @World nat nat nat :=
  decode_pmap_loop (Report := nat) (fun _ (b : nat) => b) (fun outs => length outs)
    (fun _ => ()) demo_restore_checkpoint id 10 100 false demo_decode_once_fn
    (fun _ _ _ _ => false) true continuous_decode [] fuel demo_states (Some 10) []
    polls demo_world.

(** One decode of the world, however many checkpoints the store shows. *)
Lemma decode_once_mode_witness :
  (demo_decode_loop false 3 demo_polls).2 = demo_world_after.
Proof.
  pose proof (decode_once_mode_makes_one_turn (Report := nat) (fun _ (b : nat) => b)
                (fun outs => length outs) (fun _ => ()) demo_restore_checkpoint
                10 100 demo_decode_once_fn (fun _ _ _ _ => false) false
                (fun model_states => restore_for_next_decode id model_states false true)
                [] 2 demo_states (Some 10) [] demo_polls demo_world eq_refl) as Hone.
  unfold demo_decode_loop, decode_pmap_loop.
  destruct (decode_loop _ _ _ _ _ _ _ _ _ _ _ _ _ _ _ _ _) as [[turns o] w'].
  exact (proj1 Hone).
Defined.

(** With a tracked metric and no EMA the second turn decodes the
    checkpoint of step 20 with its optimizer state. *)
Lemma decode_pmap_loop_turns_witness :
  exists t ms,
    (demo_decode_loop true 5 demo_polls).1.1 !! 1%nat = Some t
    /\ demo_restore_checkpoint (dt_last t) = Some ms
    /\ dt_states t = replicate_model_state id ms.
Proof.
  assert (1 < length (demo_decode_loop true 5 demo_polls).1.1)%nat as Hlen
    by (vm_compute; lia).
  destruct (lookup_lt_is_Some_2 _ _ Hlen) as [t Ht].
  assert (demo_decode_loop true 5 demo_polls
          = ((demo_decode_loop true 5 demo_polls).1.1,
             (demo_decode_loop true 5 demo_polls).1.2,
             (demo_decode_loop true 5 demo_polls).2)) as Hrun
    by (by destruct (demo_decode_loop true 5 demo_polls) as [[? ?] ?]).
  destruct (proj2 (decode_pmap_loop_turns (Report := nat) (fun _ (b : nat) => b)
                     (fun outs => length outs) (fun _ => ()) demo_restore_checkpoint
                     id 10 100 false demo_decode_once_fn (fun _ _ _ _ => false)
                     true true [] 5 demo_states (Some 10) [] demo_polls demo_world
                     _ _ _ Hrun) 0%nat t Ht) as (ms & Hres & _ & Hkeep).
  exists t, ms. split; [exact Ht|]. split; [exact Hres|]. by apply Hkeep.
Defined.
